(** * Jellyseerr Pi UI: the interaction engine of [ui.py]

    A shallow embedding of the controller-driven front end: the image cache
    with least-recently-used eviction ([load_image], [_add_to_cache]), the
    image download with its size limit ([JellyseerrAPI.download_image]), the
    screen navigation ([navigate], [handle_back], the select handlers), the
    on-screen keyboard cursor, the background search and browse threads and
    the body of the main loop with its deferred back-transition.

    Conventions.  Python integers are [Z]; [bytes] are lists of [Byte.byte];
    [str] is [string]; a [dict] whose order matters ([OrderedDict]) is an
    association list, oldest entry first.  Timestamps ([time.time()], float
    seconds) are exact rationals [Q]: rounding of the clock is not modelled.
    What the outside world answers (HTTP exchanges, image decoders, the
    remote API, the clock) is supplied by oracles. *)

From Stdlib Require Import ZArith List String Ascii Bool Lia QArith Qabs Lqa.
Import ListNotations.

Local Open Scope string_scope.
Local Open Scope list_scope.
Local Open Scope Z_scope.

Set Implicit Arguments.

(* ===================================================================== *)
(** * Python values used by the model *)
(* ===================================================================== *)

Definition bytes := list Byte.byte.

(** [len(x)] as a Python integer. *)
Definition len {A} (l : list A) : Z := Z.of_nat (List.length l).

(** [l[i]] on a Python list: a negative index counts from the end, an index
    out of range raises [IndexError] (here [None]). *)
Definition py_getitem {A} (l : list A) (i : Z) : option A :=
  if (0 <=? i) && (i <? len l) then nth_error l (Z.to_nat i)
  else if (- len l <=? i) && (i <? 0) then nth_error l (Z.to_nat (len l + i))
  else None.

(** The values a JSON record of the remote service holds, as far as the
    interface reads them. *)
Inductive Value :=
| VNone
| VInt (n : Z)
| VStr (s : string).

(** A media item is a [dict] from field names to values. *)
Definition Media := list (string * Value).

(** [d.get(key, default)]. *)
Fixpoint dict_get (d : Media) (key : string) (default : Value) : Value :=
  match d with
  | [] => default
  | (k, v) :: rest => if String.eqb k key then v else dict_get rest key default
  end.

(* ===================================================================== *)
(** * The image download: [JellyseerrAPI.download_image] *)
(* ===================================================================== *)

Module Api.

(** [config.MAX_IMAGE_DOWNLOAD_SIZE = 5 * 1024 * 1024]. *)
Definition MAX_IMAGE_DOWNLOAD_SIZE : Z := 5 * 1024 * 1024.

(** The [content-length] header of a response: absent, a string [int()]
    cannot parse (it raises [ValueError]), or a number. *)
Inductive ContentLength :=
| Absent
| Malformed
| Declared (n : Z).

(** What [response.iter_content] yields: chunks of bytes, possibly cut short
    by a [RequestException] of the transport. *)
Inductive StreamItem :=
| Chunk (b : bytes)
| Broken.

(** One HTTP exchange [session.get(url, stream=True)]: the call raises a
    [RequestException], or a response arrives with its status code, its
    [content-length] header and its body stream. *)
Inductive Exchange :=
| RequestException
| Response (status_code : Z) (content_length : ContentLength)
           (body : list StreamItem).

(** How the body of one attempt of [download_image] ends. *)
Inductive Attempt :=
| Return (r : option bytes)     (* [return ...] *)
| Retry                         (* a [RequestException] was caught *)
| ValueError.                   (* [int(content_length)] failed *)

(** The loop [for chunk in response.iter_content(...)], with the chunks read
    so far (in order) and their total size. *)
Fixpoint read_body (body : list StreamItem) (chunks : list bytes)
    (total_size : Z) : Attempt :=
  match body with
  | [] => Return (Some (List.concat chunks))         (* b''.join(chunks) *)
  | Broken :: _ => Retry
  | Chunk chunk :: rest =>
      let total_size := total_size + len chunk in
      if MAX_IMAGE_DOWNLOAD_SIZE <? total_size then Return None
      else read_body rest (chunks ++ [chunk]) total_size
  end.

(** [response.raise_for_status()] raises for the 4xx and 5xx codes. *)
Definition raise_for_status (status_code : Z) : bool :=
  (400 <=? status_code) && (status_code <? 600).

(** The body of the [try] of one attempt. *)
Definition attempt (e : Exchange) : Attempt :=
  match e with
  | RequestException => Retry
  | Response status_code content_length body =>
      if raise_for_status status_code then Retry
      else
        match content_length with
        | Malformed => ValueError
        | Declared n =>
            if MAX_IMAGE_DOWNLOAD_SIZE <? n then Return None
            else read_body body [] 0
        | Absent => read_body body [] 0
        end
  end.

(** The network: [session_get k url] is the exchange that the [k]-th call of
    [session.get] (counted over the life of the process) produces when it
    asks for [url]. *)
Definition Network := nat -> string -> Exchange.

(** The outcome of [download_image]: what it returns, or the exception that
    escapes it. *)
Inductive Download :=
| Returned (r : option bytes)
| Raised.

(** [for attempt in range(max_retries)], with [remaining] attempts left.
    [calls] is the log of the URLs requested so far, oldest first. *)
Fixpoint download_attempts (session_get : Network) (remaining : nat)
    (url : string) (calls : list string) : Download * list string :=
  match remaining with
  | O => (Returned None, calls)                    (* the final [return None] *)
  | S remaining' =>
      let e := session_get (List.length calls) url in
      let calls := calls ++ [url] in
      match attempt e with
      | Return r => (Returned r, calls)
      | ValueError => (Raised, calls)
      | Retry =>
          (* [if attempt == max_retries - 1: return None], else sleep, loop *)
          match remaining' with
          | O => (Returned None, calls)
          | S _ => download_attempts session_get remaining' url calls
          end
      end
  end.

Definition max_retries : nat := 3.

Definition download_image (session_get : Network) (url : string)
    (calls : list string) : Download * list string :=
  download_attempts session_get max_retries url calls.

(** The total size of the chunks of a body. *)
Definition chunks_size (chunks : list bytes) : Z :=
  fold_right (fun chunk total => len chunk + total) 0 chunks.

End Api.

(* ===================================================================== *)
(** * The image cache: [load_image] and [_add_to_cache] *)
(* ===================================================================== *)

Module ImageCache.

(** How the decoding of downloaded bytes into a scaled surface ends.  For
    pygame ([pygame.image.load] then [pygame.transform.scale]) [Rejected] is
    one of [pygame.error], [IOError], [OSError], which [load_image] catches
    to fall back on PIL; for PIL ([Image.open], [resize], [tobytes],
    [pygame.image.fromstring]) it is one of [IOError], [OSError],
    [ValueError].  [Crashed] is any other exception. *)
Inductive Decode (Surface : Type) :=
| Decoded (image : Surface)
| Rejected
| Crashed.
Arguments Decoded {Surface} image.
Arguments Rejected {Surface}.
Arguments Crashed {Surface}.

(** What [load_image] uses of its surroundings: the placeholder built once by
    [create_placeholder_image], the two decoders, whether PIL was imported,
    and the network behind [self.api.download_image]. *)
Record World (Surface : Type) := {
  placeholder_image : Surface;
  pygame_decode : bytes -> Decode Surface;
  pil_decode : bytes -> Decode Surface;
  PIL_AVAILABLE : bool;
  session_get : Api.Network
}.

(** The part of [JellyseerrUI] that [load_image] reads and writes:
    [self.image_cache] (an [OrderedDict], least recently used entry first),
    [self.max_cache_size], and the log of the URLs asked of the network. *)
Record State (Surface : Type) := {
  image_cache : list (string * Surface);
  max_cache_size : Z;
  http_calls : list string
}.

(** [config.MAX_IMAGE_CACHE_SIZE]. *)
Definition MAX_IMAGE_CACHE_SIZE : Z := 50.

Section Cache.

Variable Surface : Type.
Variable world : World Surface.

Local Abbreviation OrderedDict := (list (string * Surface)).

(** The state [__init__] leaves: an empty [OrderedDict] and the configured
    capacity. *)
Definition init (capacity : Z) : State Surface :=
  {| image_cache := []; max_cache_size := capacity; http_calls := [] |}.

(** [d.get(url)]: the image stored under [url], if any; [url in d] is
    whether there is one. *)
Fixpoint lookup (url : string) (d : OrderedDict) : option Surface :=
  match d with
  | [] => None
  | (k, v) :: rest => if String.eqb k url then Some v else lookup url rest
  end.

Definition contains (url : string) (d : OrderedDict) : bool :=
  match lookup url d with Some _ => true | None => false end.

(** The dictionary without the entry of [url]. *)
Fixpoint remove (url : string) (d : OrderedDict) : OrderedDict :=
  match d with
  | [] => []
  | (k, v) :: rest =>
      if String.eqb k url then remove url rest else (k, v) :: remove url rest
  end.

(** [d.move_to_end(url)] for a key that is present: its entry becomes the
    last, that is the most recently used. *)
Definition move_to_end (url : string) (d : OrderedDict) : OrderedDict :=
  match lookup url d with
  | Some v => remove url d ++ [(url, v)]
  | None => d
  end.

(** [d[url] = image]: a present key keeps its place and takes the new value,
    a new key is appended. *)
Fixpoint setitem (url : string) (image : Surface) (d : OrderedDict)
  : OrderedDict :=
  match d with
  | [] => [(url, image)]
  | (k, v) :: rest =>
      if String.eqb k url then (k, image) :: rest
      else (k, v) :: setitem url image rest
  end.

Definition set_image_cache (st : State Surface) (d : OrderedDict) :=
  {| image_cache := d;
     max_cache_size := max_cache_size st;
     http_calls := http_calls st |}.

Definition set_http_calls (st : State Surface) (calls : list string) :=
  {| image_cache := image_cache st;
     max_cache_size := max_cache_size st;
     http_calls := calls |}.

(** [_add_to_cache]: when the cache is full the oldest entry,
    [next(iter(self.image_cache))], is popped first.  On an empty dictionary
    [next] raises [StopIteration]: the result is [None] and nothing is
    stored. *)
Definition _add_to_cache (url : string) (image : Surface)
    (st : State Surface) : option (State Surface) :=
  if max_cache_size st <=? len (image_cache st) then
    match image_cache st with
    | [] => None
    | _oldest :: rest => Some (set_image_cache st (setitem url image rest))
    end
  else Some (set_image_cache st (setitem url image (image_cache st))).

(** The two statements [self._add_to_cache(url, image); return image].  An
    exception of [_add_to_cache] reaches the outer [except Exception] of
    [load_image], which returns the placeholder. *)
Definition cache_and_return (url : string) (image : Surface)
    (st : State Surface) : Surface * State Surface :=
  match _add_to_cache url image st with
  | Some st' => (image, st')
  | None => (placeholder_image world, st)
  end.

(** [load_image(url)].  [url] is what [get_poster_url] returned, so it may be
    [None]; [not url] holds for [None] and for the empty string. *)
Definition load_image (url : option string) (st : State Surface)
  : Surface * State Surface :=
  match url with
  | None | Some EmptyString => (placeholder_image world, st)
  | Some url =>
      match lookup url (image_cache st) with
      | Some image =>
          (* [url in self.image_cache]: move to end, return the entry *)
          (image, set_image_cache st (move_to_end url (image_cache st)))
      | None =>
          let (download, calls) :=
            Api.download_image (session_get world) url (http_calls st) in
          let st := set_http_calls st calls in
          match download with
          | Api.Raised => (placeholder_image world, st)
          | Api.Returned None => (placeholder_image world, st)
          | Api.Returned (Some []) => (placeholder_image world, st)
          | Api.Returned (Some image_data) =>
              match pygame_decode world image_data with
              | Decoded pygame_image => cache_and_return url pygame_image st
              | Rejected =>
                  if PIL_AVAILABLE world then
                    match pil_decode world image_data with
                    | Decoded pygame_image =>
                        cache_and_return url pygame_image st
                    | Rejected | Crashed => (placeholder_image world, st)
                    end
                  else (placeholder_image world, st)
              | Crashed => (placeholder_image world, st)
              end
          end
      end
  end.

(** [cleanup] clears the cache. *)
Definition clear (st : State Surface) : State Surface :=
  set_image_cache st [].

(** The keys of the cache, least recently used first. *)
Definition keys (d : OrderedDict) : list string := map fst d.

(* Notions used in the statements. *)

(** What the decoders of [load_image] make of the downloaded bytes: pygame
    first, then PIL when pygame rejects the data and PIL is available. *)
Definition decode (image_data : bytes) : option Surface :=
  match pygame_decode world image_data with
  | Decoded image => Some image
  | Rejected =>
      if PIL_AVAILABLE world then
        match pil_decode world image_data with
        | Decoded image => Some image
        | Rejected | Crashed => None
        end
      else None
  | Crashed => None
  end.

(** What fetching [url] yields when the network log stands at [calls]: the
    decoded image, or [None] when the download raises, returns [None] or no
    bytes, or the bytes cannot be decoded; and the log afterwards. *)
Definition fetch (url : string) (calls : list string)
  : option Surface * list string :=
  let (download, calls') :=
    Api.download_image (session_get world) url calls in
  (match download with
   | Api.Returned (Some (b :: image_data)) => decode (b :: image_data)
   | _ => None
   end, calls').

(** [load_image] for each URL of a list in turn. *)
Definition load_all (urls : list string) (st : State Surface)
  : State Surface :=
  fold_left (fun st url => snd (load_image (Some url) st)) urls st.

End Cache.

(** A world for examples: every URL is served, its body is the bytes of the
    URL itself, pygame decodes everything to the bytes it was given, and the
    placeholder is the empty surface. *)
Definition demo_world : World bytes :=
  {| placeholder_image := [];
     pygame_decode := fun image_data => Decoded image_data;
     pil_decode := fun _ => Rejected;
     PIL_AVAILABLE := false;
     session_get := fun _ url =>
       Api.Response 200 Api.Absent [Api.Chunk (list_byte_of_string url)] |}.

(** A world in which every image is announced with 6 MiB. *)
Definition oversized_world : World bytes :=
  {| placeholder_image := [];
     pygame_decode := fun image_data => Decoded image_data;
     pil_decode := fun _ => Rejected;
     PIL_AVAILABLE := false;
     session_get := fun _ url =>
       Api.Response 200 (Api.Declared (6 * 1024 * 1024))
                    [Api.Chunk (list_byte_of_string url)] |}.

End ImageCache.

(* ===================================================================== *)
(** * The interface state: [JellyseerrUI] *)
(* ===================================================================== *)

Module UI.

(** The values [self.current_screen] takes: the strings ["main_menu"],
    ["keyboard"], ["search_results"], ["browse"] and ["media_detail"]. *)
Inductive Screen :=
| Main_menu
| Keyboard
| Search_results
| Browse
| Media_detail.

Definition Screen_eqb (a b : Screen) : bool :=
  match a, b with
  | Main_menu, Main_menu | Keyboard, Keyboard
  | Search_results, Search_results | Browse, Browse
  | Media_detail, Media_detail => true
  | _, _ => false
  end.

(** The colours of [config] that messages use. *)
Inductive Color :=
| COLOR_TEXT
| COLOR_PRIMARY
| COLOR_SUCCESS
| COLOR_ERROR.

(** The attributes of [self] that input handling, navigation and the
    background threads read and write, as [__init__] declares them.  The
    image cache is the state of [ImageCache]. *)
Record JellyseerrUI := {
  running : bool;
  last_nav_time : Q;
  current_screen : Screen;
  screen_stack : list Screen;
  menu_items : list string;
  selected_index : Z;
  message : option string;
  message_color : Color;
  message_time : Q;
  scheduled_back_time : option Q;
  search_query : string;
  search_results : list Media;
  keyboard_row : Z;
  keyboard_col : Z;
  browse_results : list Media;
  browse_page : Z;
  browse_type : option string;
  selected_media : option Media
}.

(** Assignments [self.field = v], one function per attribute that the
    modelled code assigns. *)
Definition set_running (v : bool) (s : JellyseerrUI) : JellyseerrUI :=
  {| running := v; last_nav_time := last_nav_time s;
     current_screen := current_screen s; screen_stack := screen_stack s;
     menu_items := menu_items s; selected_index := selected_index s;
     message := message s; message_color := message_color s;
     message_time := message_time s;
     scheduled_back_time := scheduled_back_time s;
     search_query := search_query s; search_results := search_results s;
     keyboard_row := keyboard_row s; keyboard_col := keyboard_col s;
     browse_results := browse_results s; browse_page := browse_page s;
     browse_type := browse_type s; selected_media := selected_media s |}.

Definition set_last_nav_time (v : Q) (s : JellyseerrUI) : JellyseerrUI :=
  {| running := running s; last_nav_time := v;
     current_screen := current_screen s; screen_stack := screen_stack s;
     menu_items := menu_items s; selected_index := selected_index s;
     message := message s; message_color := message_color s;
     message_time := message_time s;
     scheduled_back_time := scheduled_back_time s;
     search_query := search_query s; search_results := search_results s;
     keyboard_row := keyboard_row s; keyboard_col := keyboard_col s;
     browse_results := browse_results s; browse_page := browse_page s;
     browse_type := browse_type s; selected_media := selected_media s |}.

Definition set_current_screen (v : Screen) (s : JellyseerrUI) : JellyseerrUI :=
  {| running := running s; last_nav_time := last_nav_time s;
     current_screen := v; screen_stack := screen_stack s;
     menu_items := menu_items s; selected_index := selected_index s;
     message := message s; message_color := message_color s;
     message_time := message_time s;
     scheduled_back_time := scheduled_back_time s;
     search_query := search_query s; search_results := search_results s;
     keyboard_row := keyboard_row s; keyboard_col := keyboard_col s;
     browse_results := browse_results s; browse_page := browse_page s;
     browse_type := browse_type s; selected_media := selected_media s |}.

Definition set_screen_stack (v : list Screen) (s : JellyseerrUI) : JellyseerrUI :=
  {| running := running s; last_nav_time := last_nav_time s;
     current_screen := current_screen s; screen_stack := v;
     menu_items := menu_items s; selected_index := selected_index s;
     message := message s; message_color := message_color s;
     message_time := message_time s;
     scheduled_back_time := scheduled_back_time s;
     search_query := search_query s; search_results := search_results s;
     keyboard_row := keyboard_row s; keyboard_col := keyboard_col s;
     browse_results := browse_results s; browse_page := browse_page s;
     browse_type := browse_type s; selected_media := selected_media s |}.

Definition set_menu_items (v : list string) (s : JellyseerrUI) : JellyseerrUI :=
  {| running := running s; last_nav_time := last_nav_time s;
     current_screen := current_screen s; screen_stack := screen_stack s;
     menu_items := v; selected_index := selected_index s;
     message := message s; message_color := message_color s;
     message_time := message_time s;
     scheduled_back_time := scheduled_back_time s;
     search_query := search_query s; search_results := search_results s;
     keyboard_row := keyboard_row s; keyboard_col := keyboard_col s;
     browse_results := browse_results s; browse_page := browse_page s;
     browse_type := browse_type s; selected_media := selected_media s |}.

Definition set_selected_index (v : Z) (s : JellyseerrUI) : JellyseerrUI :=
  {| running := running s; last_nav_time := last_nav_time s;
     current_screen := current_screen s; screen_stack := screen_stack s;
     menu_items := menu_items s; selected_index := v; message := message s;
     message_color := message_color s; message_time := message_time s;
     scheduled_back_time := scheduled_back_time s;
     search_query := search_query s; search_results := search_results s;
     keyboard_row := keyboard_row s; keyboard_col := keyboard_col s;
     browse_results := browse_results s; browse_page := browse_page s;
     browse_type := browse_type s; selected_media := selected_media s |}.

Definition set_message (v : option string) (s : JellyseerrUI) : JellyseerrUI :=
  {| running := running s; last_nav_time := last_nav_time s;
     current_screen := current_screen s; screen_stack := screen_stack s;
     menu_items := menu_items s; selected_index := selected_index s;
     message := v; message_color := message_color s;
     message_time := message_time s;
     scheduled_back_time := scheduled_back_time s;
     search_query := search_query s; search_results := search_results s;
     keyboard_row := keyboard_row s; keyboard_col := keyboard_col s;
     browse_results := browse_results s; browse_page := browse_page s;
     browse_type := browse_type s; selected_media := selected_media s |}.

Definition set_message_color (v : Color) (s : JellyseerrUI) : JellyseerrUI :=
  {| running := running s; last_nav_time := last_nav_time s;
     current_screen := current_screen s; screen_stack := screen_stack s;
     menu_items := menu_items s; selected_index := selected_index s;
     message := message s; message_color := v;
     message_time := message_time s;
     scheduled_back_time := scheduled_back_time s;
     search_query := search_query s; search_results := search_results s;
     keyboard_row := keyboard_row s; keyboard_col := keyboard_col s;
     browse_results := browse_results s; browse_page := browse_page s;
     browse_type := browse_type s; selected_media := selected_media s |}.

Definition set_message_time (v : Q) (s : JellyseerrUI) : JellyseerrUI :=
  {| running := running s; last_nav_time := last_nav_time s;
     current_screen := current_screen s; screen_stack := screen_stack s;
     menu_items := menu_items s; selected_index := selected_index s;
     message := message s; message_color := message_color s;
     message_time := v; scheduled_back_time := scheduled_back_time s;
     search_query := search_query s; search_results := search_results s;
     keyboard_row := keyboard_row s; keyboard_col := keyboard_col s;
     browse_results := browse_results s; browse_page := browse_page s;
     browse_type := browse_type s; selected_media := selected_media s |}.

Definition set_scheduled_back_time (v : option Q) (s : JellyseerrUI) : JellyseerrUI :=
  {| running := running s; last_nav_time := last_nav_time s;
     current_screen := current_screen s; screen_stack := screen_stack s;
     menu_items := menu_items s; selected_index := selected_index s;
     message := message s; message_color := message_color s;
     message_time := message_time s; scheduled_back_time := v;
     search_query := search_query s; search_results := search_results s;
     keyboard_row := keyboard_row s; keyboard_col := keyboard_col s;
     browse_results := browse_results s; browse_page := browse_page s;
     browse_type := browse_type s; selected_media := selected_media s |}.

Definition set_search_query (v : string) (s : JellyseerrUI) : JellyseerrUI :=
  {| running := running s; last_nav_time := last_nav_time s;
     current_screen := current_screen s; screen_stack := screen_stack s;
     menu_items := menu_items s; selected_index := selected_index s;
     message := message s; message_color := message_color s;
     message_time := message_time s;
     scheduled_back_time := scheduled_back_time s; search_query := v;
     search_results := search_results s; keyboard_row := keyboard_row s;
     keyboard_col := keyboard_col s; browse_results := browse_results s;
     browse_page := browse_page s; browse_type := browse_type s;
     selected_media := selected_media s |}.

Definition set_search_results (v : list Media) (s : JellyseerrUI) : JellyseerrUI :=
  {| running := running s; last_nav_time := last_nav_time s;
     current_screen := current_screen s; screen_stack := screen_stack s;
     menu_items := menu_items s; selected_index := selected_index s;
     message := message s; message_color := message_color s;
     message_time := message_time s;
     scheduled_back_time := scheduled_back_time s;
     search_query := search_query s; search_results := v;
     keyboard_row := keyboard_row s; keyboard_col := keyboard_col s;
     browse_results := browse_results s; browse_page := browse_page s;
     browse_type := browse_type s; selected_media := selected_media s |}.

Definition set_keyboard_row (v : Z) (s : JellyseerrUI) : JellyseerrUI :=
  {| running := running s; last_nav_time := last_nav_time s;
     current_screen := current_screen s; screen_stack := screen_stack s;
     menu_items := menu_items s; selected_index := selected_index s;
     message := message s; message_color := message_color s;
     message_time := message_time s;
     scheduled_back_time := scheduled_back_time s;
     search_query := search_query s; search_results := search_results s;
     keyboard_row := v; keyboard_col := keyboard_col s;
     browse_results := browse_results s; browse_page := browse_page s;
     browse_type := browse_type s; selected_media := selected_media s |}.

Definition set_keyboard_col (v : Z) (s : JellyseerrUI) : JellyseerrUI :=
  {| running := running s; last_nav_time := last_nav_time s;
     current_screen := current_screen s; screen_stack := screen_stack s;
     menu_items := menu_items s; selected_index := selected_index s;
     message := message s; message_color := message_color s;
     message_time := message_time s;
     scheduled_back_time := scheduled_back_time s;
     search_query := search_query s; search_results := search_results s;
     keyboard_row := keyboard_row s; keyboard_col := v;
     browse_results := browse_results s; browse_page := browse_page s;
     browse_type := browse_type s; selected_media := selected_media s |}.

Definition set_browse_results (v : list Media) (s : JellyseerrUI) : JellyseerrUI :=
  {| running := running s; last_nav_time := last_nav_time s;
     current_screen := current_screen s; screen_stack := screen_stack s;
     menu_items := menu_items s; selected_index := selected_index s;
     message := message s; message_color := message_color s;
     message_time := message_time s;
     scheduled_back_time := scheduled_back_time s;
     search_query := search_query s; search_results := search_results s;
     keyboard_row := keyboard_row s; keyboard_col := keyboard_col s;
     browse_results := v; browse_page := browse_page s;
     browse_type := browse_type s; selected_media := selected_media s |}.

Definition set_browse_type (v : option string) (s : JellyseerrUI) : JellyseerrUI :=
  {| running := running s; last_nav_time := last_nav_time s;
     current_screen := current_screen s; screen_stack := screen_stack s;
     menu_items := menu_items s; selected_index := selected_index s;
     message := message s; message_color := message_color s;
     message_time := message_time s;
     scheduled_back_time := scheduled_back_time s;
     search_query := search_query s; search_results := search_results s;
     keyboard_row := keyboard_row s; keyboard_col := keyboard_col s;
     browse_results := browse_results s; browse_page := browse_page s;
     browse_type := v; selected_media := selected_media s |}.

Definition set_selected_media (v : option Media) (s : JellyseerrUI) : JellyseerrUI :=
  {| running := running s; last_nav_time := last_nav_time s;
     current_screen := current_screen s; screen_stack := screen_stack s;
     menu_items := menu_items s; selected_index := selected_index s;
     message := message s; message_color := message_color s;
     message_time := message_time s;
     scheduled_back_time := scheduled_back_time s;
     search_query := search_query s; search_results := search_results s;
     keyboard_row := keyboard_row s; keyboard_col := keyboard_col s;
     browse_results := browse_results s; browse_page := browse_page s;
     browse_type := browse_type s; selected_media := v |}.

(** The on-screen keyboard, [self.keyboard_layout]; it is never assigned
    again after [__init__]. *)
Definition keyboard_layout : list (list string) :=
  [ ["a"; "b"; "c"; "d"; "e"; "f"; "g"; "h"; "i"; "j"];
    ["k"; "l"; "m"; "n"; "o"; "p"; "q"; "r"; "s"; "t"];
    ["u"; "v"; "w"; "x"; "y"; "z"; "1"; "2"; "3"; "4"];
    ["5"; "6"; "7"; "8"; "9"; "0"; " "; "DEL"; "SEARCH"; "CANCEL"] ].

(** The state [__init__] leaves. *)
Definition init : JellyseerrUI :=
  {| running := true;
     last_nav_time := 0%Q;
     current_screen := Main_menu;
     screen_stack := [];
     menu_items := [];
     selected_index := 0;
     message := None;
     message_color := COLOR_TEXT;
     message_time := 0%Q;
     scheduled_back_time := None;
     search_query := "";
     search_results := [];
     keyboard_row := 0;
     keyboard_col := 0;
     browse_results := [];
     browse_page := 1;
     browse_type := None;
     selected_media := None |}.

(* --------------------------------------------------------------------- *)
(** ** List navigation: [navigate] *)

(** The part of [navigate] after the list of the current screen is chosen. *)
Definition navigate_items {A} (items : list A) (direction : Z)
    (s : JellyseerrUI) : JellyseerrUI :=
  match items with
  | [] => set_selected_index 0 s                          (* [if not items] *)
  | _ :: _ =>
      (* Clamp direction to -1, 0, or 1 *)
      let direction := Z.max (-1) (Z.min 1 direction) in
      let new_index := selected_index s + direction in
      (* Wrap around with explicit bounds checking *)
      let new_index :=
        if new_index <? 0 then len items - 1
        else if len items <=? new_index then 0
        else new_index in
      set_selected_index new_index s
  end.

(** [navigate(direction)]. *)
Definition navigate (direction : Z) (s : JellyseerrUI) : JellyseerrUI :=
  match current_screen s with
  | Main_menu => navigate_items (menu_items s) direction s
  | Search_results => navigate_items (search_results s) direction s
  | Browse => navigate_items (browse_results s) direction s
  | Keyboard | Media_detail => s      (* no list navigation: [return] *)
  end.

(** The length of the list [navigate] moves in, for the screens that have
    one. *)
Definition active_length (s : JellyseerrUI) : option Z :=
  match current_screen s with
  | Main_menu => Some (len (menu_items s))
  | Search_results => Some (len (search_results s))
  | Browse => Some (len (browse_results s))
  | Keyboard | Media_detail => None
  end.

(** [max(-1, min(1, direction))], the first statement of [navigate] after
    the list is known to be non-empty. *)
Definition clamp (direction : Z) : Z := Z.max (-1) (Z.min 1 direction).

Definition defined {A} (o : option A) : bool :=
  match o with Some _ => true | None => false end.

(** Whether the subscript [items[self.selected_index]] of the list of the
    current screen is defined. *)
Definition selected_item_defined (s : JellyseerrUI) : bool :=
  match current_screen s with
  | Main_menu => defined (py_getitem (menu_items s) (selected_index s))
  | Search_results =>
      defined (py_getitem (search_results s) (selected_index s))
  | Browse => defined (py_getitem (browse_results s) (selected_index s))
  | Keyboard | Media_detail => true
  end.

(* --------------------------------------------------------------------- *)
(** ** The back-stack: pushing a screen and [handle_back] *)

(** [l.pop()]: the last element and the list without it; [None] on an empty
    list. *)
Definition pop {A} (l : list A) : option (A * list A) :=
  match rev l with
  | [] => None
  | x :: r => Some (x, rev r)
  end.

(** The two statements
    [self.screen_stack.append(self.current_screen); self.current_screen = next]
    with which every select handler enters a screen (lines 477-478, 482-483,
    487-488, 497-498 and 504-505 of ui.py). *)
Definition push_screen (next : Screen) (s : JellyseerrUI) : JellyseerrUI :=
  set_current_screen next
    (set_screen_stack (screen_stack s ++ [current_screen s]) s).

(** [handle_back]. *)
Definition handle_back (s : JellyseerrUI) : JellyseerrUI :=
  match pop (screen_stack s) with
  | Some (top, rest) =>
      set_selected_index 0 (set_current_screen top (set_screen_stack rest s))
  | None =>
      (* Go to main menu or exit *)
      match current_screen s with
      | Main_menu => s
      | _ => set_selected_index 0 (set_current_screen Main_menu s)
      end
  end.

(** [handle_search_result_select]; [None] stands for an [IndexError] of the
    subscript. *)
Definition handle_search_result_select (s : JellyseerrUI)
  : option JellyseerrUI :=
  if (0 <=? selected_index s) && (selected_index s <? len (search_results s))
  then
    match py_getitem (search_results s) (selected_index s) with
    | Some item => Some (push_screen Media_detail
                           (set_selected_media (Some item) s))
    | None => None
    end
  else Some s.

(** [handle_browse_select]. *)
Definition handle_browse_select (s : JellyseerrUI) : option JellyseerrUI :=
  if (0 <=? selected_index s) && (selected_index s <? len (browse_results s))
  then
    match py_getitem (browse_results s) (selected_index s) with
    | Some item => Some (push_screen Media_detail
                           (set_selected_media (Some item) s))
    | None => None
    end
  else Some s.

(* --------------------------------------------------------------------- *)
(** ** The keyboard cursor *)

(** The four cursor statements, which [handle_dpad_motion],
    [handle_keyboard] and [handle_analog_navigation] repeat verbatim. *)

(** [self.keyboard_row = max(0, self.keyboard_row - 1)]. *)
Definition keyboard_up (s : JellyseerrUI) : JellyseerrUI :=
  set_keyboard_row (Z.max 0 (keyboard_row s - 1)) s.

(** [self.keyboard_row = min(len(self.keyboard_layout) - 1,
    self.keyboard_row + 1)]. *)
Definition keyboard_down (s : JellyseerrUI) : JellyseerrUI :=
  set_keyboard_row (Z.min (len keyboard_layout - 1) (keyboard_row s + 1)) s.

(** [self.keyboard_col = max(0, self.keyboard_col - 1)]. *)
Definition keyboard_left (s : JellyseerrUI) : JellyseerrUI :=
  set_keyboard_col (Z.max 0 (keyboard_col s - 1)) s.

(** [max_col = len(self.keyboard_layout[self.keyboard_row]) - 1;
    self.keyboard_col = min(max_col, self.keyboard_col + 1)]; [None] stands
    for an [IndexError] of the subscript. *)
Definition keyboard_right (s : JellyseerrUI) : option JellyseerrUI :=
  match py_getitem keyboard_layout (keyboard_row s) with
  | Some row =>
      let max_col := len row - 1 in
      Some (set_keyboard_col (Z.min max_col (keyboard_col s + 1)) s)
  | None => None
  end.

(** [handle_dpad_motion(value)] for the hat value [(x, y)]. *)
Definition handle_dpad_motion (value : Z * Z) (s : JellyseerrUI)
  : option JellyseerrUI :=
  let (x, y) := value in
  match current_screen s with
  | Keyboard =>
      (* 2D navigation on keyboard *)
      let s := if y =? 1 then keyboard_up s
               else if y =? -1 then keyboard_down s
               else s in
      if x =? -1 then Some (keyboard_left s)
      else if x =? 1 then keyboard_right s
      else Some s
  | _ =>
      (* Vertical navigation *)
      if y =? 1 then Some (navigate (-1) s)
      else if y =? -1 then Some (navigate 1 s)
      else Some s
  end.

(* --------------------------------------------------------------------- *)
(** ** Notions used in the statements *)

(** A sequence of screens entered one after the other, and [k] presses of
    "back". *)
Definition push_all (targets : list Screen) (s : JellyseerrUI)
  : JellyseerrUI :=
  fold_left (fun s next => push_screen next s) targets s.

Definition back_times (k : nat) (s : JellyseerrUI) : JellyseerrUI :=
  Nat.iter k handle_back s.

(** [s'] is [s] after it entered the screen [next]: the screen left is on
    top of the back-stack, and the selection is the one of [s]. *)
Definition entered (next : Screen) (s s' : JellyseerrUI) : Prop :=
  screen_stack s' = screen_stack s ++ [current_screen s]
  /\ current_screen s' = next
  /\ selected_index s' = selected_index s.

(** The cursor [(row, col)] designates a cell of [keyboard_layout]. *)
Definition cursor_ok (cursor : Z * Z) : bool :=
  let (row, col) := cursor in
  (0 <=? row) && (row <? len keyboard_layout)
  && match nth_error keyboard_layout (Z.to_nat row) with
     | Some keys => (0 <=? col) && (col <? len keys)
     | None => false
     end.

Definition cursor_valid (s : JellyseerrUI) : bool :=
  cursor_ok (keyboard_row s, keyboard_col s).

(** A sequence of hat motions. *)
Fixpoint dpad_motions (values : list (Z * Z)) (s : JellyseerrUI)
  : option JellyseerrUI :=
  match values with
  | [] => Some s
  | value :: rest =>
      match handle_dpad_motion value s with
      | Some s' => dpad_motions rest s'
      | None => None
      end
  end.

(* --------------------------------------------------------------------- *)
(** ** The process around [self]: clock, remote service, threads *)

(** A background thread that was started and has not run its update yet:
    the closure it was created with. *)
Inductive Thread :=
| LoadPopularContent
| PerformSearch (query : string).

(** What the handlers use of their surroundings.  [clock k] is the value of
    the [k]-th reading of [time.time()] that the model takes (the readings
    made only for frame statistics and for drawing are not counted);
    [request_media k media_id media_type] is what the [k]-th call of
    [self.api.request_media] returns, [None] when it raises (its rate limit
    does); the button numbers are the ones [setup_controller] resolved;
    [joystick] tells whether a controller was found. *)
Record Host := {
  clock : nat -> Q;
  request_media : nat -> Value -> Value -> option bool;
  BUTTON_A : Z;
  BUTTON_B : Z;
  BUTTON_START : Z;
  joystick : bool
}.

Record Process := {
  self : JellyseerrUI;
  threads : list Thread;
  clock_reads : nat;
  api_requests : nat
}.

Definition start (s : JellyseerrUI) : Process :=
  {| self := s; threads := []; clock_reads := 0; api_requests := 0 |}.

(** A method either returns, or an exception leaves it; either way the
    assignments made so far stay. *)
Inductive Outcome (A : Type) :=
| Done (a : A) (p : Process)
| Exception (p : Process).
Arguments Done {A} a p.
Arguments Exception {A} p.

Definition M (A : Type) := Process -> Outcome A.

Definition ret {A} (a : A) : M A := fun p => Done a p.

Definition bind {A B} (c : M A) (k : A -> M B) : M B :=
  fun p => match c p with
           | Done a p' => k a p'
           | Exception p' => Exception p'
           end.

Declare Scope py_scope.
Delimit Scope py_scope with py.
Notation "x <- c1 ;; c2" := (bind c1 (fun x => c2))
  (at level 61, c1 at next level, right associativity) : py_scope.
Notation "c1 ;; c2" := (bind c1 (fun _ => c2))
  (at level 61, right associativity) : py_scope.
Local Open Scope py_scope.

Definition raise {A} : M A := fun p => Exception p.

Definition get_self : M JellyseerrUI := fun p => Done (self p) p.

(** Run assignments on [self]. *)
Definition modify (f : JellyseerrUI -> JellyseerrUI) : M unit :=
  fun p => Done tt {| self := f (self p); threads := threads p;
                      clock_reads := clock_reads p;
                      api_requests := api_requests p |}.

(** Run a method that may raise. *)
Definition attempt (f : JellyseerrUI -> option JellyseerrUI) : M unit :=
  fun p => match f (self p) with
           | Some s => Done tt {| self := s; threads := threads p;
                                  clock_reads := clock_reads p;
                                  api_requests := api_requests p |}
           | None => Exception p
           end.

(** [threading.Thread(target=..., daemon=True).start()]. *)
Definition start_thread (t : Thread) : M unit :=
  fun p => Done tt {| self := self p; threads := threads p ++ [t];
                      clock_reads := clock_reads p;
                      api_requests := api_requests p |}.

(** The final state of a run, whichever way it ended. *)
Definition final {A} (o : Outcome A) : Process :=
  match o with Done _ p => p | Exception p => p end.

Definition raised {A} (o : Outcome A) : bool :=
  match o with Done _ _ => false | Exception _ => true end.

(* Timestamps. *)
Definition Qltb (x y : Q) : bool := negb (Qle_bool y x).

(** [config.NAV_DELAY = 0.15], [config.CONTROLLER_DEADZONE = 0.35]. *)
Definition NAV_DELAY : Q := 3 # 20.
Definition CONTROLLER_DEADZONE : Q := 7 # 20.

(** The delay of the scheduled back navigation, [1.5] seconds, and the
    default [duration] of [show_message], [3.0]. *)
Definition BACK_DELAY : Q := 3 # 2.
Definition MESSAGE_DURATION : Q := 3 # 1.

(** [config.MAX_BROWSE_ITEMS_PER_TYPE]. *)
Definition MAX_BROWSE_ITEMS_PER_TYPE : nat := 10.

Section Handlers.

Variable host : Host.

(** [time.time()]. *)
Definition time_time : M Q :=
  fun p => Done (clock host (clock_reads p))
                {| self := self p; threads := threads p;
                   clock_reads := S (clock_reads p);
                   api_requests := api_requests p |}.

(** [self.api.request_media(media_id, media_type)]. *)
Definition api_request_media (media_id media_type : Value) : M bool :=
  fun p =>
    let p' := {| self := self p; threads := threads p;
                 clock_reads := clock_reads p;
                 api_requests := S (api_requests p) |} in
    match request_media host (api_requests p) media_id media_type with
    | Some b => Done b p'
    | None => Exception p'
    end.

(** [show_message(message, color, duration)]; [color or config.COLOR_TEXT]
    takes the default for [None]. *)
Definition show_message (text : string) (color : option Color)
    (duration : Q) : M unit :=
  modify (set_message (Some text)) ;;
  modify (set_message_color
            (match color with Some c => c | None => COLOR_TEXT end)) ;;
  now <- time_time ;;
  modify (set_message_time (now + duration)%Q).

(** [can_navigate]. *)
Definition can_navigate : M bool :=
  current_time <- time_time ;;
  s <- get_self ;;
  if Qltb NAV_DELAY (current_time - last_nav_time s)%Q then
    modify (set_last_nav_time current_time) ;; ret true
  else ret false.

(* --------------------------------------------------------------------- *)
(** ** Background work: [load_popular_content] and [perform_search] *)

(** [load_popular_content]: the message, then the thread. *)
Definition load_popular_content : M unit :=
  show_message "Loading popular content..." (Some COLOR_PRIMARY)
               MESSAGE_DURATION ;;
  start_thread LoadPopularContent.

(** [perform_search(query)]. *)
Definition perform_search (query : string) : M unit :=
  show_message (String.append "Searching for '"
                  (String.append query "'...")) (Some COLOR_PRIMARY)
               MESSAGE_DURATION ;;
  start_thread (PerformSearch query).

(** What a call of the remote service returns to a thread:
    [Optional[List[Dict]]], or an exception. *)
Inductive ApiList :=
| Answer (r : option (list Media))
| Fails.

(** What the remote service answers at the time a thread runs. *)
Record Service := {
  search_movies : string -> ApiList;
  search_tv : string -> ApiList;
  get_popular_movies : ApiList;
  get_popular_tv : ApiList
}.

(** The call a search thread makes: [search_movies(query)] if
    [self.browse_type == "movie"], else [search_tv(query)]. *)
Definition search_answer (api : Service) (s : JellyseerrUI) (query : string)
  : ApiList :=
  match browse_type s with
  | Some "movie" => search_movies api query
  | _ => search_tv api query
  end.

(** The closure [search_in_background] of [perform_search(query)].  The
    thread is taken to run as one step between two steps of the main thread:
    it reads [self.browse_type], gets the answer of the service and updates
    [self]. *)
Definition search_in_background (query : string) (api : Service) : M unit :=
  s <- get_self ;;
  let results := search_answer api s query in
  match results with
  | Answer (Some ((_ :: _) as results)) =>
      modify (set_search_results results) ;;
      modify (set_current_screen Search_results) ;;
      modify (set_selected_index 0) ;;
      modify (set_message None)
  | Answer _ =>
      show_message "No results found" (Some COLOR_ERROR) MESSAGE_DURATION
  | Fails => show_message "Search error" (Some COLOR_ERROR) MESSAGE_DURATION
  end.

(** The closure [load_in_background] of [load_popular_content]. *)
Definition load_in_background (api : Service) : M unit :=
  match get_popular_movies api, get_popular_tv api with
  | Answer movies, Answer tv_shows =>
      let part (r : option (list Media)) :=
        match r with
        | Some l => firstn MAX_BROWSE_ITEMS_PER_TYPE l
        | None => []
        end in
      let results := part movies ++ part tv_shows in
      modify (set_browse_results results) ;;
      match results with
      | _ :: _ => modify (set_message None) ;; modify (set_selected_index 0)
      | [] => show_message "No content found" (Some COLOR_ERROR)
                           MESSAGE_DURATION
      end
  | _, _ =>
      show_message "Error loading content" (Some COLOR_ERROR)
                   MESSAGE_DURATION
  end.

(** The pool of threads without its [i]-th member. *)
Definition without {A} (i : nat) (l : list A) : list A :=
  firstn i l ++ skipn (S i) l.

(** The [i]-th started thread finishes its call of the service, which
    answered [api], and runs its update. *)
Definition run_thread (i : nat) (api : Service) : M unit :=
  fun p =>
    match nth_error (threads p) i with
    | None => Done tt p
    | Some t =>
        let p' := {| self := self p;
                     threads := without i (threads p);
                     clock_reads := clock_reads p;
                     api_requests := api_requests p |} in
        match t with
        | PerformSearch query => search_in_background query api p'
        | LoadPopularContent => load_in_background api p'
        end
    end.

(* --------------------------------------------------------------------- *)
(** ** Selection *)

(** [handle_main_menu_select]. *)
Definition handle_main_menu_select : M unit :=
  s <- get_self ;;
  if selected_index s =? 0 then          (* Search Movies *)
    modify (push_screen Keyboard) ;;
    modify (set_browse_type (Some "movie")) ;;
    modify (set_search_query "")
  else if selected_index s =? 1 then     (* Search TV Shows *)
    modify (push_screen Keyboard) ;;
    modify (set_browse_type (Some "tv")) ;;
    modify (set_search_query "")
  else if selected_index s =? 2 then     (* Browse Popular *)
    modify (push_screen Browse) ;;
    load_popular_content
  else if selected_index s =? 3 then     (* Exit *)
    modify (set_running false)
  else ret tt.

(** [handle_media_detail_select]; an empty [dict] is as false as [None]. *)
Definition handle_media_detail_select : M unit :=
  s <- get_self ;;
  match selected_media s with
  | Some ((_ :: _) as media) =>
      let media_type := dict_get media "mediaType" (VStr "movie") in
      let media_id := dict_get media "id" VNone in
      accepted <- api_request_media media_id media_type ;;
      if accepted : bool then
        show_message "Request submitted successfully!" (Some COLOR_SUCCESS)
                     MESSAGE_DURATION ;;
        (* Schedule non-blocking back navigation after 1.5 seconds *)
        now <- time_time ;;
        modify (set_scheduled_back_time (Some (now + BACK_DELAY)%Q))
      else
        show_message "Failed to submit request" (Some COLOR_ERROR)
                     MESSAGE_DURATION
  | _ => ret tt
  end.

(** [s[:-1]]. *)
Fixpoint drop_last (s : string) : string :=
  match s with
  | EmptyString => EmptyString
  | String c EmptyString => EmptyString
  | String c rest => String c (drop_last rest)
  end.

(** The characters [str.strip] removes. *)
Definition is_space (c : ascii) : bool :=
  let n := nat_of_ascii c in
  ((9 <=? n) && (n <=? 13) || (28 <=? n) && (n <=? 32))%nat.

(** [bool(s.strip())]: some character of [s] is not white space. *)
Fixpoint strip_nonempty (s : string) : bool :=
  match s with
  | EmptyString => false
  | String c rest => negb (is_space c) || strip_nonempty rest
  end.

(** [handle_keyboard_select]. *)
Definition handle_keyboard_select : M unit :=
  s <- get_self ;;
  if len keyboard_layout <=? keyboard_row s then ret tt
  else
    match py_getitem keyboard_layout (keyboard_row s) with
    | None => raise
    | Some row =>
        if len row <=? keyboard_col s then ret tt
        else
          match py_getitem row (keyboard_col s) with
          | None => raise
          | Some key =>
              if String.eqb key "SEARCH" then
                if strip_nonempty (search_query s)
                then perform_search (search_query s)
                else ret tt
              else if String.eqb key "CANCEL" then modify handle_back
              else if String.eqb key "DEL" then
                modify (set_search_query (drop_last (search_query s)))
              else if String.eqb key " " then
                modify (set_search_query (String.append (search_query s) " "))
              else
                modify (set_search_query (String.append (search_query s) key))
          end
    end.

(** [handle_select]. *)
Definition handle_select : M unit :=
  s <- get_self ;;
  match current_screen s with
  | Main_menu => handle_main_menu_select
  | Search_results => attempt handle_search_result_select
  | Browse => attempt handle_browse_select
  | Media_detail => handle_media_detail_select
  | Keyboard => handle_keyboard_select
  end.

(* --------------------------------------------------------------------- *)
(** ** Input *)

(** [handle_button_press(button)]. *)
Definition handle_button_press (button : Z) : M unit :=
  if button =? BUTTON_START host then modify (set_running false)
  else if button =? BUTTON_A host then handle_select
  else if button =? BUTTON_B host then modify handle_back
  else ret tt.

(** The key codes of pygame 2 that [handle_keyboard] tests. *)
Definition K_BACKSPACE : Z := 8.
Definition K_RETURN : Z := 13.
Definition K_ESCAPE : Z := 27.
Definition K_SPACE : Z := 32.
Definition K_0 : Z := 48.
Definition K_9 : Z := 57.
Definition K_a : Z := 97.
Definition K_z : Z := 122.
Definition K_RIGHT : Z := 1073741903.
Definition K_LEFT : Z := 1073741904.
Definition K_DOWN : Z := 1073741905.
Definition K_UP : Z := 1073741906.

(** [chr(key)] as a one-character string. *)
Definition chr (key : Z) : string :=
  String (ascii_of_nat (Z.to_nat key)) EmptyString.

(** [if self.can_navigate(): ...]. *)
Definition when_can_navigate (c : M unit) : M unit :=
  ok <- can_navigate ;;
  if ok : bool then c else ret tt.

(** [handle_keyboard(key)]. *)
Definition handle_keyboard (key : Z) : M unit :=
  s <- get_self ;;
  match current_screen s with
  | Keyboard =>
      (* Arrow keys navigate the on-screen keyboard *)
      if key =? K_UP then when_can_navigate (modify keyboard_up)
      else if key =? K_DOWN then when_can_navigate (modify keyboard_down)
      else if key =? K_LEFT then when_can_navigate (modify keyboard_left)
      else if key =? K_RIGHT then when_can_navigate (attempt keyboard_right)
      else if key =? K_RETURN then handle_keyboard_select
      else if key =? K_ESCAPE then modify handle_back
      else if key =? K_BACKSPACE then
        modify (set_search_query (drop_last (search_query s)))
      else if key =? K_SPACE then
        modify (set_search_query (String.append (search_query s) " "))
      else if (K_a <=? key) && (key <=? K_z) then
        modify (set_search_query (String.append (search_query s) (chr key)))
      else if (K_0 <=? key) && (key <=? K_9) then
        modify (set_search_query (String.append (search_query s) (chr key)))
      else ret tt
  | _ =>
      (* Normal navigation *)
      if key =? K_ESCAPE then modify (set_running false)
      else if (key =? K_RETURN) || (key =? K_SPACE) then handle_select
      else if key =? K_BACKSPACE then modify handle_back
      else if key =? K_UP then when_can_navigate (modify (navigate (-1)))
      else if key =? K_DOWN then when_can_navigate (modify (navigate 1))
      else ret tt
  end.

(** [handle_analog_navigation], with the two axis values
    [get_axis(0), get_axis(1)] read in this frame. *)
Definition handle_analog_navigation (axes : Q * Q) : M unit :=
  if negb (joystick host) then ret tt
  else
    ok <- can_navigate ;;
    if negb ok then ret tt
    else
      let (x_axis, y_axis) := axes in
      s <- get_self ;;
      match current_screen s with
      | Keyboard =>
          (if Qltb CONTROLLER_DEADZONE (Qabs y_axis) then
             if Qltb y_axis 0 then modify keyboard_up
             else modify keyboard_down
           else ret tt) ;;
          (if Qltb CONTROLLER_DEADZONE (Qabs x_axis) then
             if Qltb x_axis 0 then modify keyboard_left
             else attempt keyboard_right
           else ret tt)
      | _ =>
          if Qltb CONTROLLER_DEADZONE (Qabs y_axis) then
            if Qltb y_axis 0 then modify (navigate (-1))
            else modify (navigate 1)
          else ret tt
      end.

(** The events of [pygame.event.get()] that [handle_input] tells apart. *)
Inductive Event :=
| QUIT
| JOYBUTTONDOWN (button : Z)
| JOYHATMOTION (value : Z * Z)
| KEYDOWN (key : Z)
| OTHER.

Definition handle_event (event : Event) : M unit :=
  match event with
  | QUIT => modify (set_running false)
  | JOYBUTTONDOWN button => handle_button_press button
  | JOYHATMOTION value =>
      when_can_navigate (attempt (handle_dpad_motion value))
  | KEYDOWN key => handle_keyboard key
  | OTHER => ret tt
  end.

Fixpoint handle_events (events : list Event) : M unit :=
  match events with
  | [] => ret tt
  | event :: rest => handle_event event ;; handle_events rest
  end.

(** What one frame reads from the devices: the queued events and the
    position of the analog stick. *)
Record Input := {
  events : list Event;
  axes : Q * Q
}.

(** [handle_input]. *)
Definition handle_input (input : Input) : M unit :=
  handle_events (events input) ;;
  if joystick host then handle_analog_navigation (axes input) else ret tt.

(* --------------------------------------------------------------------- *)
(** ** The main loop: [run] *)

(** The check for scheduled actions in [run].  [None] and [0.0] are both
    false, and then the clock is not read. *)
Definition check_scheduled_back : M unit :=
  s <- get_self ;;
  match scheduled_back_time s with
  | None => ret tt
  | Some t =>
      if Qeq_bool t 0 then ret tt
      else
        now <- time_time ;;
        if Qle_bool t now then
          modify (set_scheduled_back_time None) ;;
          modify handle_back
        else ret tt
  end.

(** What [draw] assigns: [draw_main_menu] sets [self.menu_items].  The
    drawing itself and the posters it loads through [load_image] do not
    touch the attributes modelled here. *)
Definition draw : M unit :=
  s <- get_self ;;
  match current_screen s with
  | Main_menu =>
      modify (set_menu_items
                ["Search Movies"; "Search TV Shows"; "Browse Popular"; "Exit"])
  | _ => ret tt
  end.

(** One turn of the [while self.running] loop. *)
Definition run_iteration (input : Input) : M unit :=
  handle_input input ;;
  check_scheduled_back ;;
  draw.

(** What happens next in the process: the main thread runs one turn of its
    loop, or a background thread completes. *)
Inductive Step :=
| Frame (input : Input)
| ThreadDone (i : nat) (api : Service).

(** The process along a schedule.  A frame runs only while [self.running]
    holds; an exception in a frame ends the loop ([run] catches it and
    leaves). *)
Fixpoint run (schedule : list Step) : M unit :=
  match schedule with
  | [] => ret tt
  | Frame input :: rest =>
      s <- get_self ;;
      if running s then run_iteration input ;; run rest else ret tt
  | ThreadDone i api :: rest => run_thread i api ;; run rest
  end.

(** A frame in which no device reports anything. *)
Definition idle : Input := {| events := []; axes := (0%Q, 0%Q) |}.

End Handlers.

(* --------------------------------------------------------------------- *)
(** ** Notions used in the statements about the process *)

(** The slot of the deferred back-transition. *)
Definition slot (p : Process) : option Q := scheduled_back_time (self p).

(** What the user sees of the navigation: the current screen, the
    back-stack and the selection. *)
Definition nav_of (s : JellyseerrUI) : Screen * list Screen * Z :=
  (current_screen s, screen_stack s, selected_index s).

(** The part of [self] that the invariants of the process are about: the
    slot of the deferred back-transition and the keyboard cursor. *)
Definition View : Type := option Q * (Z * Z).

Definition view (s : JellyseerrUI) : View :=
  (scheduled_back_time s, (keyboard_row s, keyboard_col s)).

(** A method relates the view before it to the view after it by [R],
    whichever way it ends. *)
Definition Keeps (R : View -> View -> Prop) {A} (c : M A) : Prop :=
  forall p, R (view (self p)) (view (self (final (c p)))).

(** A relation on views that looks at the slot only, and the relation that
    says that a cursor that designates a cell still does. *)
Definition on_slot (R : option Q -> option Q -> Prop) : View -> View -> Prop :=
  fun before after => R (fst before) (fst after).

Definition cursor_kept : View -> View -> Prop :=
  fun before after =>
    cursor_ok (snd before) = true -> cursor_ok (snd after) = true.

(** The slot is as before, or was set anew from a reading of the clock: it
    was not cleared. *)
Definition rescheduled (host : Host) (before after : option Q) : Prop :=
  after = before
  \/ exists k : nat, after = Some (clock host k + BACK_DELAY)%Q.

(** The inputs that move a cursor or a selection. *)
Definition is_navigation (event : Event) : bool :=
  match event with
  | JOYHATMOTION _ => true
  | KEYDOWN key =>
      (key =? K_UP) || (key =? K_DOWN) || (key =? K_LEFT) || (key =? K_RIGHT)
  | _ => false
  end.

(** A host for examples: an Xbox controller's buttons without the stick, a
    clock that advances by a quarter of a second at each reading, and a
    service that accepts every request. *)
Definition demo_host : Host :=
  {| clock := fun k => Z.of_nat k # 4;
     request_media := fun _ _ _ => Some true;
     BUTTON_A := 0;
     BUTTON_B := 1;
     BUTTON_START := 7;
     joystick := false |}.

(** A service for examples: a search is answered with one item that carries
    the query as its title. *)
Definition demo_service : Service :=
  {| search_movies := fun query =>
       Answer (Some [[("id", VInt 1); ("mediaType", VStr "movie");
                      ("title", VStr query)]]);
     search_tv := fun query =>
       Answer (Some [[("id", VInt 2); ("mediaType", VStr "tv");
                      ("title", VStr query)]]);
     get_popular_movies := Answer None;
     get_popular_tv := Answer None |}.

(* --------------------------------------------------------------------- *)
(** ** States and schedules for examples *)

(** A menu with its four entries, the selection on the last one. *)
Definition menu_state : JellyseerrUI :=
  set_selected_index 3
    (set_menu_items
       ["Search Movies"; "Search TV Shows"; "Browse Popular"; "Exit"] init).

(** The results screen before any result has arrived, with a stale
    selection. *)
Definition empty_results_state : JellyseerrUI :=
  set_selected_index 5 (set_current_screen Search_results init).

(** The results of a search for movies, reached from the main menu through
    the keyboard: the menu is on the stack. *)
Definition results_state : JellyseerrUI :=
  set_selected_index 1
    (set_current_screen Search_results
       (set_screen_stack [Main_menu]
          (set_search_results
             [[("id", VInt 603); ("mediaType", VStr "movie")];
              [("id", VInt 604); ("mediaType", VStr "movie")]] init))).

(** The keyboard screen with the cursor on the last key, [CANCEL]. *)
Definition keyboard_corner : JellyseerrUI :=
  set_keyboard_col 9 (set_keyboard_row 3 (set_current_screen Keyboard init)).

(** The detail screen of a movie, opened from the search results. *)
Definition detail_state : JellyseerrUI :=
  set_current_screen Media_detail
    (set_screen_stack [Main_menu; Search_results]
       (set_selected_media
          (Some [("id", VInt 603); ("mediaType", VStr "movie")])
          (set_search_results
             [[("id", VInt 603); ("mediaType", VStr "movie")]] init))).

(** The keyboard screen of a movie search with ["ma"] typed and the cursor
    on [SEARCH]. *)
Definition typing_state : JellyseerrUI :=
  set_keyboard_col 8
    (set_keyboard_row 3
       (set_search_query "ma"
          (set_browse_type (Some "movie")
             (set_current_screen Keyboard
                (set_screen_stack [Main_menu] init))))).

(** Button A starts the search for ["ma"]; in the next frame the key [t]
    and button A start the search for ["mat"]; the second thread completes,
    then the first. *)
Definition two_searches : list Step :=
  [ Frame {| events := [JOYBUTTONDOWN 0]; axes := (0%Q, 0%Q) |};
    Frame {| events := [KEYDOWN 116; JOYBUTTONDOWN 0]; axes := (0%Q, 0%Q) |};
    ThreadDone 1 demo_service;
    ThreadDone 0 demo_service ].

(** The process after the two frames: both searches are in flight. *)
Definition two_dispatched : Process :=
  final (run demo_host (firstn 2 two_searches) (start typing_state)).

End UI.

(* ===================================================================== *)
(** * Drawing: the list window, title truncation and word wrapping *)
(* ===================================================================== *)

Module Draw.

(** [range(start, stop)]. *)
Definition range (start stop : Z) : list Z :=
  map (fun k => start + Z.of_nat k) (seq 0 (Z.to_nat (stop - start))).

(** [visible_items = 10] of [draw_search_results] and [draw_browse]. *)
Definition visible_items : Z := 10.

(** [scroll_offset = max(0, self.selected_index - visible_items // 2)]. *)
Definition scroll_offset (selected_index : Z) : Z :=
  Z.max 0 (selected_index - visible_items / 2).

(** The indices the list loop of [draw_search_results] and [draw_browse]
    visits:
    [range(scroll_offset, min(scroll_offset + visible_items, len(results)))].
    The loop subscripts [results[i]] for each and draws it in row
    [display_index = i - scroll_offset]. *)
Definition visible_rows {A} (selected_index : Z) (results : list A) : list Z :=
  range (scroll_offset selected_index)
        (Z.min (scroll_offset selected_index + visible_items) (len results)).

(** [results[selected_index] if selected_index < len(results) else None];
    the outer [None] stands for an [IndexError] of the subscript. *)
Definition selected_item {A} (results : list A) (selected_index : Z)
  : option (option A) :=
  if selected_index <? len results then
    match py_getitem results selected_index with
    | Some item => Some (Some item)
    | None => None
    end
  else Some None.

(** [max_chars = 40] and the truncation of long titles:
    [if len(title_text) > max_chars:
       title_text = title_text[:max_chars - 3] + "..."]. *)
Definition max_chars : nat := 40.

Definition truncate (title_text : string) : string :=
  if (max_chars <? String.length title_text)%nat then
    String.append (substring 0 (max_chars - 3) title_text) "..."
  else title_text.

(** [text.split(' ')]: the pieces between single spaces; an empty text gives
    one empty piece. *)
Fixpoint split (text : string) : list string :=
  match text with
  | EmptyString => [EmptyString]
  | String c rest =>
      if Ascii.eqb c " " then EmptyString :: split rest
      else match split rest with
           | word :: words => String c word :: words
           | [] => [String c EmptyString]
           end
  end.

(** [' '.join(words)]. *)
Fixpoint join (words : list string) : string :=
  match words with
  | [] => EmptyString
  | [word] => word
  | word :: rest => String.append word (String " " (join rest))
  end.

(** Whether a line holds a space, that is more than one word. *)
Fixpoint has_space (line : string) : bool :=
  match line with
  | EmptyString => false
  | String c rest => Ascii.eqb c " " || has_space rest
  end.

Section Wrap.

(** [self.font_small.render(line, True, color).get_width()]. *)
Variable width : string -> Z.
Variable max_width : Z.

(** One turn of the loop [for word in words] of [draw_wrapped_text], on the
    pair of [lines] and [current_line]. *)
Definition wrap_word (state : list string * list string) (word : string)
  : list string * list string :=
  let (lines, current_line) := state in
  let current_line := current_line ++ [word] in
  let test_line := join current_line in
  if max_width <? width test_line then
    if 1 <? len current_line then
      (* current_line.pop(); lines.append(' '.join(current_line)) *)
      (lines ++ [join (removelast current_line)], [word])
    else (lines ++ [word], [])
  else (lines, current_line).

(** The lines [draw_wrapped_text] computes for a text. *)
Definition wrap (text : string) : list string :=
  let (lines, current_line) := fold_left wrap_word (split text) ([], []) in
  match current_line with
  | [] => lines
  | _ :: _ => lines ++ [join current_line]
  end.

(** The lines it draws: [lines[:8]]. *)
Definition drawn (text : string) : list string := firstn 8 (wrap text).

(** A line holds one word or fits; the line in progress holds at most one
    word or fits. *)
Definition line_ok (line : string) : Prop :=
  has_space line = true -> width line <= max_width.

Definition current_ok (current : list string) : Prop :=
  (List.length current <= 1)%nat \/ width (join current) <= max_width.

End Wrap.

(** A font for examples: every character is ten pixels wide. *)
Definition demo_width (line : string) : Z := 10 * Z.of_nat (String.length line).

End Draw.

(* ===================================================================== *)
(** * More notions about the interface *)
(* ===================================================================== *)

Module UIMore.
Import UI.
Local Open Scope py_scope.

(** [n] calls of [can_navigate] in a row, as the polling of the analog stick
    makes them frame after frame; the answers, in order. *)
Fixpoint polls (host : Host) (n : nat) : M (list bool) :=
  match n with
  | O => ret []
  | S n' =>
      ok <- can_navigate host ;;
      rest <- polls host n' ;;
      ret (ok :: rest)
  end.

(** The key [self.keyboard_layout[self.keyboard_row][self.keyboard_col]]
    that [handle_keyboard_select] reads, when both subscripts are defined. *)
Definition key_under_cursor (s : JellyseerrUI) : option string :=
  match py_getitem keyboard_layout (keyboard_row s) with
  | Some row => py_getitem row (keyboard_col s)
  | None => None
  end.

(** The keys that act; every other key types itself. *)
Definition is_action_key (key : string) : bool :=
  String.eqb key "SEARCH" || String.eqb key "CANCEL" || String.eqb key "DEL".

(** The characters the on-screen keyboard and the letter, digit and space
    keys of [handle_keyboard] can type: [a]-[z], [0]-[9] and the space. *)
Definition keyboard_char (c : ascii) : bool :=
  let n := nat_of_ascii c in
  ((97 <=? n) && (n <=? 122) || (48 <=? n) && (n <=? 57) || (n =? 32))%nat.

Fixpoint typed_text (q : string) : bool :=
  match q with
  | EmptyString => true
  | String c rest => keyboard_char c && typed_text rest
  end.

(** One edit of the query: it is emptied, loses its last character, or
    gains a character of the keyboard. *)
Inductive edit (q : string) : string -> Prop :=
| edit_clear : edit q EmptyString
| edit_delete : edit q (drop_last q)
| edit_char (c : ascii) :
    keyboard_char c = true -> edit q (String.append q (String c EmptyString)).

(** The part of [self] the invariants below are about: the selection, the
    query, the flag of the main loop and the browse list. *)
Definition Snapshot : Type := Z * string * bool * list Media.

Definition snapshot (s : JellyseerrUI) : Snapshot :=
  (selected_index s, search_query s, running s, browse_results s).

(** A method preserves the property [I] of the snapshot, whichever way it
    ends. *)
Definition Preserves (I : Snapshot -> Prop) {A} (c : M A) : Prop :=
  forall p, I (snapshot (self p)) -> I (snapshot (self (final (c p)))).

(** The properties of interest: the selection is not negative, the query is
    made of keyboard characters, the loop is stopped, the browse list holds
    at most [MAX_BROWSE_ITEMS_PER_TYPE] items of each of the two kinds. *)
Definition index_ok : Snapshot -> Prop :=
  fun '(index, _, _, _) => 0 <= index.

Definition query_ok : Snapshot -> Prop :=
  fun '(_, query, _, _) => typed_text query = true.

Definition stopped : Snapshot -> Prop :=
  fun '(_, _, flag, _) => flag = false.

Definition browse_ok : Snapshot -> Prop :=
  fun '(_, _, _, results) =>
    (List.length results <= 2 * MAX_BROWSE_ITEMS_PER_TYPE)%nat.

(** The events that end the main loop on every screen: the window is closed,
    or the START button is pressed. *)
Definition is_exit (host : Host) (event : Event) : bool :=
  match event with
  | QUIT => true
  | JOYBUTTONDOWN button => button =? BUTTON_START host
  | _ => false
  end.

(** A frame whose events are [events], with the stick at rest. *)
Definition frame (events : list Event) : Step :=
  Frame {| events := events; axes := (0%Q, 0%Q) |}.

End UIMore.

(* ===================================================================== *)
(** * The client of the service: validation, rate limit, requests
      (jellyseerr_api.py) *)
(* ===================================================================== *)

Module Client.

(** Strings are taken to hold code points below 256. *)

(** The characters of the class that [validate_search_query] removes: the
    angle brackets, the two quotes, the semicolon, the ampersand, the bar,
    the backquote and the dollar sign. *)
Definition dangerous (c : ascii) : bool :=
  existsb (Nat.eqb (nat_of_ascii c)) [60; 62; 34; 39; 59; 38; 124; 96; 36]%nat.

(** [re.sub(class, '', query)]. *)
Fixpoint sanitize (query : string) : string :=
  match query with
  | EmptyString => EmptyString
  | String c rest =>
      if dangerous c then sanitize rest else String c (sanitize rest)
  end.

(** Every character of [s] satisfies [test]. *)
Fixpoint all_chars (test : ascii -> bool) (s : string) : bool :=
  match s with
  | EmptyString => true
  | String c rest => test c && all_chars test rest
  end.

(** No character of [s] is of the class that is removed. *)
Definition clean (s : string) : bool :=
  all_chars (fun c => negb (dangerous c)) s.

(** [c.isspace()], the characters [str.strip] removes. *)
Definition isspace (c : ascii) : bool :=
  let n := nat_of_ascii c in
  ((9 <=? n) && (n <=? 13) || (28 <=? n) && (n <=? 32)
   || (n =? 133) || (n =? 160))%nat.

Fixpoint lstrip (s : string) : string :=
  match s with
  | EmptyString => EmptyString
  | String c rest => if isspace c then lstrip rest else s
  end.

Fixpoint rstrip (s : string) : string :=
  match s with
  | EmptyString => EmptyString
  | String c rest =>
      match rstrip rest with
      | EmptyString => if isspace c then EmptyString else String c EmptyString
      | kept => String c kept
      end
  end.

(** [s.strip()]. *)
Definition strip (s : string) : string := rstrip (lstrip s).

(** [validate_search_query]; [None] stands for the [ValueError]. *)
Definition validate_search_query (query : string) : option string :=
  if (String.length query =? 0)%nat then None        (* [not query] *)
  else if (200 <? String.length query)%nat then None
  else Some (strip (sanitize query)).

(** [validate_media_id]: an [int] above 0. *)
Definition validate_media_id (media_id : Value) : option Z :=
  match media_id with
  | VInt n => if n <=? 0 then None else Some n
  | VNone | VStr _ => None
  end.

(** [validate_media_type]: one of ['movie', 'tv']. *)
Definition validate_media_type (media_type : Value) : option string :=
  match media_type with
  | VStr t =>
      if existsb (String.eqb t) ["movie"; "tv"] then Some t else None
  | VNone | VInt _ => None
  end.

(** [validate_page_number]. *)
Definition validate_page_number (page : Z) : option Z :=
  if (page <? 1) || (1000 <? page) then None else Some page.

(* --------------------------------------------------------------------- *)
(** ** The rate limit: [_check_rate_limit] *)

(** Times are the readings of [datetime.now()], counted in microseconds, the
    resolution of [datetime]. *)
Definition rate_limit_window : Z := 60 * 1000000.
Definition max_requests_per_window : Z := 30.

(** [deque(maxlen=100)]. *)
Definition maxlen : Z := 100.

(** The loop [while self.request_times and
    (now - self.request_times[0]) > self.rate_limit_window: popleft()]. *)
Fixpoint popleft_old (now : Z) (request_times : list Z) : list Z :=
  match request_times with
  | [] => []
  | oldest :: rest =>
      if rate_limit_window <? now - oldest then popleft_old now rest
      else request_times
  end.

(** [deque.append]: a full deque drops its leftmost element. *)
Definition deque_append (request_times : list Z) (now : Z) : list Z :=
  if maxlen <=? len request_times then tl request_times ++ [now]
  else request_times ++ [now].

(** [_check_rate_limit] at the time [now]: whether the request is admitted
    ([false] stands for the [Exception] raised), and [self.request_times]
    afterwards; the old entries are dropped either way. *)
Definition _check_rate_limit (now : Z) (request_times : list Z)
  : bool * list Z :=
  let request_times := popleft_old now request_times in
  if max_requests_per_window <=? len request_times
  then (false, request_times)
  else (true, deque_append request_times now).

(** The times of the calls that [_check_rate_limit] admits, of calls made at
    the times [nows] in turn. *)
Fixpoint admitted (nows : list Z) (request_times : list Z) : list Z :=
  match nows with
  | [] => []
  | now :: rest =>
      let (ok, request_times) := _check_rate_limit now request_times in
      (if ok then [now] else []) ++ admitted rest request_times
  end.

(** The clock does not go back. *)
Fixpoint nondecreasing (nows : list Z) : bool :=
  match nows with
  | [] => true
  | now :: rest =>
      match rest with
      | [] => true
      | next :: _ => (now <=? next) && nondecreasing rest
      end
  end.

(** The times of [times] in the window that starts at [start]. *)
Definition in_window (start : Z) (times : list Z) : list Z :=
  filter (fun t => (start <=? t) && (t <=? start + rate_limit_window)) times.

(* --------------------------------------------------------------------- *)
(** ** Requests: [_make_request_with_retry] and [request_media] *)

(** What one call of [session.post] does: it raises a [RequestException],
    or a response arrives with its status code. *)
Inductive Reply :=
| ConnectionError
| Status (status_code : Z).

(** The server: its reply to the [k]-th POST of the process, which carries
    [mediaId] and [mediaType]. *)
Definition Server := nat -> Z -> string -> Reply.

(** How [_make_request_with_retry] ends: it returns the response, it
    returns [None] (status 401), or the [RequestException] of the last
    attempt leaves it. *)
Inductive Sent :=
| ReturnsResponse
| ReturnsNone
| RaisesRequestException.

(** [for attempt in range(max_retries)] with [remaining] attempts left and
    [posts] calls of [session.post] made so far. *)
Fixpoint post_with_retry (server : Server) (media_id : Z)
    (media_type : string) (remaining : nat) (posts : nat) : Sent * nat :=
  match remaining with
  | O => (ReturnsNone, posts)                  (* the final [return None] *)
  | S remaining' =>
      let retry :=
        match remaining' with
        | O => (RaisesRequestException, S posts)
        | S _ => post_with_retry server media_id media_type remaining' (S posts)
        end in
      match server posts media_id media_type with
      | ConnectionError => retry
      | Status status_code =>
          if status_code =? 401 then (ReturnsNone, S posts)
          else if Api.raise_for_status status_code then retry
          else (ReturnsResponse, S posts)
      end
  end.

(** The part of [JellyseerrAPI] that [request_media] reads and writes. *)
Record State := {
  request_times : list Z;
  posts : nat
}.

(** [request_media] returns a [bool], or the [Exception] of the rate limit
    leaves it: it is neither a [ValueError] nor a [RequestException]. *)
Inductive Outcome :=
| Returns (accepted : bool)
| RateLimitExceeded.

(** [request_media(media_id, media_type)] at the time [now].  A response
    that passed [raise_for_status] is true, and every way the parsing of its
    body ends gives [True]. *)
Definition request_media (server : Server) (now : Z)
    (media_id media_type : Value) (st : State) : Outcome * State :=
  let (ok, times) := _check_rate_limit now (request_times st) in
  let st := {| request_times := times; posts := posts st |} in
  if negb ok then (RateLimitExceeded, st)
  else
    match validate_media_id media_id with
    | None => (Returns false, st)
    | Some media_id =>
        match validate_media_type media_type with
        | None => (Returns false, st)
        | Some media_type =>
            let (sent, posts) :=
              post_with_retry server media_id media_type 3 (posts st) in
            let st := {| request_times := times; posts := posts |} in
            match sent with
            | ReturnsResponse => (Returns true, st)
            | ReturnsNone | RaisesRequestException => (Returns false, st)
            end
        end
    end.

(* --------------------------------------------------------------------- *)
(** ** Poster URLs: [get_poster_url] *)

(** [needle in haystack] for strings. *)
Fixpoint contains (needle haystack : string) : bool :=
  String.prefix needle haystack
  || match haystack with
     | EmptyString => false
     | String _ rest => contains needle rest
     end.






End Client.

(* ===================================================================== *)
(** * Controller profiles (config.py) and [setup_controller] *)
(* ===================================================================== *)

Module Config.
Import UI.

(** The buttons of a profile that the interface uses. *)
Record Profile := {
  A : Z;
  B : Z;
  X : Z;
  Y : Z;
  START : Z
}.

(** [CONTROLLER_PROFILES]. *)
Definition CONTROLLER_PROFILES : list (string * Profile) :=
  [ ("xbox", {| A := 0; B := 1; X := 2; Y := 3; START := 7 |});
    ("playstation", {| A := 1; B := 2; X := 0; Y := 3; START := 9 |});
    ("switch", {| A := 1; B := 0; X := 3; Y := 2; START := 10 |});
    ("generic", {| A := 0; B := 1; X := 2; Y := 3; START := 7 |}) ].

(** [d[key]]; [None] stands for the [KeyError]. *)
Fixpoint getitem (key : string) (d : list (string * Profile))
  : option Profile :=
  match d with
  | [] => None
  | (k, v) :: rest => if String.eqb k key then Some v else getitem key rest
  end.

(** [c.lower()] for a code point below 256. *)
Definition lower_char (c : ascii) : ascii :=
  let n := nat_of_ascii c in
  if ((65 <=? n) && (n <=? 90)
      || (192 <=? n) && (n <=? 222) && negb (n =? 215))%nat
  then ascii_of_nat (n + 32)
  else c.

Fixpoint lower (s : string) : string :=
  match s with
  | EmptyString => EmptyString
  | String c rest => String (lower_char c) (lower rest)
  end.

(** [detect_controller_profile(controller_name)]. *)
Definition detect_controller_profile (controller_name : string) : string :=
  let name_lower := lower controller_name in
  if Client.contains "xbox" name_lower || Client.contains "x-box" name_lower
  then "xbox"
  else if Client.contains "playstation" name_lower
          || Client.contains "ps4" name_lower
          || Client.contains "ps5" name_lower
          || Client.contains "dualshock" name_lower
          || Client.contains "dualsense" name_lower
  then "playstation"
  else if Client.contains "nintendo" name_lower
          || Client.contains "switch" name_lower
          || Client.contains "pro controller" name_lower
  then "switch"
  else "generic".

(** What [setup_controller] leaves in [config.BUTTON_A], [config.BUTTON_B]
    and [config.BUTTON_START] when a controller of this name is found, and
    the host the handlers then run in. *)
Definition setup_controller (controller_name : string) : option Profile :=
  getitem (detect_controller_profile controller_name) CONTROLLER_PROFILES.

Definition with_profile (profile : Profile) (host : Host) : Host :=
  {| clock := clock host;
     request_media := request_media host;
     BUTTON_A := A profile;
     BUTTON_B := B profile;
     BUTTON_START := START profile;
     joystick := true |}.

End Config.

(* ===================================================================== *)
(** * Properties of list navigation *)
(* ===================================================================== *)

Unset Implicit Arguments.

Module NavigateFacts.
Import UI.

Lemma set_selected_index_same (s : JellyseerrUI) :
  set_selected_index (selected_index s) s = s.
Proof. destruct s; reflexivity. Qed.

Lemma set_selected_index_twice (i j : Z) (s : JellyseerrUI) :
  set_selected_index i (set_selected_index j s) = set_selected_index i s.
Proof. reflexivity. Qed.

Lemma active_length_set_selected_index (i : Z) (s : JellyseerrUI) :
  active_length (set_selected_index i s) = active_length s.
Proof. reflexivity. Qed.

Lemma len_nonneg {A} (l : list A) : 0 <= len l.
Proof. unfold len; lia. Qed.

Lemma len_cons {A} (a : A) (l : list A) : len (a :: l) = len l + 1.
Proof.
  unfold len. change (List.length (a :: l)) with (S (List.length l)). lia.
Qed.

Lemma mod_wrap_low (N : Z) : 0 < N -> (-1) mod N = N - 1.
Proof.
  intros HN. symmetry. apply (Z.mod_unique (-1) N (-1) (N - 1)); lia.
Qed.

Lemma mod_wrap_high (N : Z) : 0 < N -> N mod N = 0.
Proof. intros HN. apply Z.mod_same; lia. Qed.

(** On a non-empty list, with the index in range, [navigate_items] is
    addition of the clamped direction modulo the length. *)
Lemma navigate_items_mod {A} (items : list A) (d : Z) (s : JellyseerrUI) :
  0 < len items ->
  0 <= selected_index s < len items ->
  navigate_items items d s
  = set_selected_index ((selected_index s + clamp d) mod len items) s.
Proof.
  intros Hpos Hidx. unfold navigate_items, clamp.
  destruct items as [|a items]; [unfold len in Hpos; simpl in Hpos; lia|].
  set (N := len (a :: items)) in *.
  set (c := Z.max (-1) (Z.min 1 d)).
  assert (Hc : -1 <= c <= 1) by (unfold c; lia).
  destruct (Z.ltb_spec (selected_index s + c) 0) as [Hlow|Hlow].
  - replace (selected_index s + c) with (-1) by lia.
    now rewrite mod_wrap_low.
  - destruct (Z.leb_spec N (selected_index s + c)) as [Hhigh|Hhigh].
    + replace (selected_index s + c) with N by lia.
      now rewrite mod_wrap_high.
    + now rewrite Z.mod_small by lia.
Qed.

Lemma navigate_mod (d N : Z) (s : JellyseerrUI) :
  active_length s = Some N ->
  0 < N ->
  0 <= selected_index s < N ->
  navigate d s = set_selected_index ((selected_index s + clamp d) mod N) s.
Proof.
  unfold active_length, navigate. intros HN Hpos Hidx.
  destruct (current_screen s); inversion HN; subst N;
    now apply navigate_items_mod.
Qed.

(** [k] presses of "down" add [k] modulo the length. *)
Lemma navigate_down_iter (k : nat) (N : Z) (s : JellyseerrUI) :
  active_length s = Some N ->
  0 < N ->
  0 <= selected_index s < N ->
  Nat.iter k (navigate 1) s
  = set_selected_index ((selected_index s + Z.of_nat k) mod N) s.
Proof.
  intros HN Hpos Hidx. induction k as [|k IH].
  - simpl. rewrite Z.add_0_r, Z.mod_small by lia.
    now rewrite set_selected_index_same.
  - rewrite Nat.iter_succ, IH.
    rewrite (@navigate_mod 1 N); simpl selected_index.
    + rewrite set_selected_index_twice. f_equal.
      change (clamp 1) with 1.
      rewrite Zplus_mod_idemp_l. f_equal. lia.
    + now rewrite active_length_set_selected_index.
    + exact Hpos.
    + apply Z.mod_pos_bound; lia.
Qed.

(** C4.  On a screen whose list has [N > 0] items, with the selection in
    [0 .. N-1]: one call of [navigate] with a direction in [{-1, 0, 1}] sets
    the selection to [(selected_index + direction) mod N], so that moving up
    from index 0 gives [N-1] and moving down from [N-1] gives 0; and [N]
    calls of [navigate(1)] bring the whole state, hence the selection, back
    to where it started. *)
Theorem navigate_wraparound_round_trip :
  forall (s : JellyseerrUI) (N : Z),
    active_length s = Some N ->
    0 < N ->
    0 <= selected_index s < N ->
    (forall d, d = -1 \/ d = 0 \/ d = 1 ->
       navigate d s = set_selected_index ((selected_index s + d) mod N) s)
    /\ (selected_index s = 0 -> selected_index (navigate (-1) s) = N - 1)
    /\ (selected_index s = N - 1 -> selected_index (navigate 1 s) = 0)
    /\ Nat.iter (Z.to_nat N) (navigate 1) s = s
    /\ selected_index (Nat.iter (Z.to_nat N) (navigate 1) s)
       = selected_index s.
Proof.
  intros s N HN Hpos Hidx.
  assert (Hround : Nat.iter (Z.to_nat N) (navigate 1) s = s).
  { rewrite (@navigate_down_iter _ N) by assumption.
    rewrite Z2Nat.id by lia.
    replace (selected_index s + N) with (selected_index s + 1 * N) by lia.
    rewrite Z.mod_add, Z.mod_small by lia.
    apply set_selected_index_same. }
  repeat split.
  - intros d Hd. rewrite (@navigate_mod d N) by assumption.
    replace (clamp d) with d by (unfold clamp; lia). reflexivity.
  - intros H0. rewrite (@navigate_mod (-1) N) by assumption.
    simpl selected_index. rewrite H0. change (0 + clamp (-1)) with (-1).
    now apply mod_wrap_low.
  - intros Hlast. rewrite (@navigate_mod 1 N) by assumption.
    simpl selected_index. rewrite Hlast. change (clamp 1) with 1.
    replace (N - 1 + 1) with N by lia. now apply mod_wrap_high.
  - exact Hround.
  - now rewrite Hround.
Qed.

Lemma navigate_wraparound_round_trip_witness :
  selected_index (navigate 1 menu_state) = 0
  /\ Nat.iter 4 (navigate 1) menu_state = menu_state.
Proof.
  destruct (@navigate_wraparound_round_trip menu_state 4)
    as (_ & _ & Hdown & Hround & _).
  - reflexivity.
  - lia.
  - simpl. lia.
  - split; [apply Hdown; reflexivity | exact Hround].
Defined.

Lemma py_getitem_in_range {A} (l : list A) (i : Z) :
  0 <= i < len l -> defined (py_getitem l i) = true.
Proof.
  intros Hi. unfold py_getitem.
  destruct (Z.leb_spec 0 i); [|lia].
  destruct (Z.ltb_spec i (len l)); [|lia]. simpl.
  destruct (nth_error l (Z.to_nat i)) eqn:E; [reflexivity|].
  apply nth_error_None in E. unfold len in *. lia.
Qed.

Lemma len_zero_nil {A} (l : list A) : len l = 0 -> l = [].
Proof. destruct l; [reflexivity|]. rewrite len_cons. pose proof (len_nonneg l). lia. Qed.

Lemma navigate_empty (d : Z) (s : JellyseerrUI) :
  active_length s = Some 0 -> navigate d s = set_selected_index 0 s.
Proof.
  unfold active_length, navigate. intros H0.
  destruct (current_screen s); inversion H0 as [Hlen];
    apply len_zero_nil in Hlen; rewrite Hlen; reflexivity.
Qed.

(** C7.  When the list of the current screen is empty, [navigate] sets the
    selection to 0 whatever the direction, and changes nothing else.
    [navigate] has no exceptional result: none of its statements can raise.
    The hat handler that calls it returns normally too. *)
Theorem navigate_empty_list_selects_zero :
  forall (s : JellyseerrUI) (d : Z),
    active_length s = Some 0 ->
    selected_index (navigate d s) = 0
    /\ navigate d s = set_selected_index 0 s
    /\ (forall value, defined (handle_dpad_motion value s) = true).
Proof.
  intros s d H0. rewrite (navigate_empty d s H0). repeat split.
  intros [x y]. unfold handle_dpad_motion.
  unfold active_length in H0.
  destruct (current_screen s); try discriminate;
    destruct (y =? 1); try reflexivity; destruct (y =? -1); reflexivity.
Qed.

Lemma navigate_empty_list_selects_zero_witness :
  selected_index (navigate 7 empty_results_state) = 0.
Proof.
  destruct (@navigate_empty_list_selects_zero empty_results_state 7)
    as (Hzero & _).
  - reflexivity.
  - exact Hzero.
Defined.

Lemma clamp_range (d : Z) : -1 <= clamp d <= 1.
Proof. unfold clamp; lia. Qed.

Lemma clamp_idempotent (d : Z) : clamp (clamp d) = clamp d.
Proof. unfold clamp; lia. Qed.

Lemma navigate_clamps (d : Z) (s : JellyseerrUI) :
  navigate d s = navigate (clamp d) s.
Proof.
  unfold navigate, navigate_items.
  destruct (current_screen s); try reflexivity;
    match goal with |- context [match ?l with _ => _ end] => destruct l end;
    try reflexivity; fold (clamp d); fold (clamp (clamp d));
    now rewrite clamp_idempotent.
Qed.

Lemma selected_item_defined_set (i N : Z) (s : JellyseerrUI) :
  active_length s = Some N -> 0 <= i < N ->
  selected_item_defined (set_selected_index i s) = true.
Proof.
  unfold active_length, selected_item_defined. simpl. intros HN Hi.
  destruct (current_screen s); inversion HN; subst N;
    now apply py_getitem_in_range.
Qed.

(** C10.  [navigate] accepts any integer direction: it acts as on the
    direction clamped to [-1 .. 1].  On a screen with a list of [N] items,
    if the selection was in [0 .. N-1] it is in [0 .. N-1] afterwards, so
    that the subscript of the list by the selection is defined; if the list
    is empty the selection becomes 0. *)
Theorem navigate_any_direction_in_range :
  forall (s : JellyseerrUI) (N d : Z),
    active_length s = Some N ->
    navigate d s = navigate (clamp d) s
    /\ -1 <= clamp d <= 1
    /\ (0 < N -> 0 <= selected_index s < N ->
        0 <= selected_index (navigate d s) < N
        /\ selected_item_defined (navigate d s) = true)
    /\ (N = 0 -> selected_index (navigate d s) = 0).
Proof.
  intros s N d HN. split; [apply navigate_clamps|].
  split; [apply clamp_range|]. split.
  - intros Hpos Hidx. rewrite (@navigate_mod d N) by assumption.
    assert (Hb : 0 <= (selected_index s + clamp d) mod N < N)
      by (apply Z.mod_pos_bound; lia).
    split; [exact Hb|]. now apply (selected_item_defined_set _ N).
  - intros HN0. subst N. now rewrite (navigate_empty d s HN).
Qed.

Lemma navigate_any_direction_in_range_witness :
  selected_index (navigate 1000 menu_state) = 0
  /\ selected_item_defined (navigate (-1000) menu_state) = true.
Proof.
  split.
  - reflexivity.
  - destruct (@navigate_any_direction_in_range menu_state 4 (-1000))
      as (_ & _ & Hin & _); [reflexivity|].
    apply Hin; [lia | simpl; lia].
Defined.

End NavigateFacts.

(* ===================================================================== *)
(** * Properties of the back-stack *)
(* ===================================================================== *)

Module BackStackFacts.
Import UI.

Lemma pop_snoc {A} (l : list A) (x : A) : pop (l ++ [x]) = Some (x, l).
Proof. unfold pop. rewrite rev_unit, rev_involutive. reflexivity. Qed.

Lemma push_screen_entered (next : Screen) (s : JellyseerrUI) :
  entered next s (push_screen next s).
Proof. repeat split. Qed.

(** [handle_back] on a non-empty stack. *)
Lemma handle_back_pops (s : JellyseerrUI) (rest : list Screen) (top : Screen) :
  screen_stack s = rest ++ [top] ->
  handle_back s
  = set_selected_index 0 (set_current_screen top (set_screen_stack rest s)).
Proof. intros Hs. unfold handle_back. now rewrite Hs, pop_snoc. Qed.

Lemma handle_back_root (s : JellyseerrUI) :
  screen_stack s = [] ->
  handle_back s
  = match current_screen s with
    | Main_menu => s
    | _ => set_selected_index 0 (set_current_screen Main_menu s)
    end.
Proof. intros Hs. unfold handle_back. now rewrite Hs. Qed.

Lemma push_all_cons (next : Screen) (targets : list Screen) (s : JellyseerrUI) :
  push_all (next :: targets) s = push_all targets (push_screen next s).
Proof. reflexivity. Qed.

(** As many presses of "back" as screens were entered undo them, as far as
    the current screen and the stack go. *)
Lemma back_times_push_all (targets : list Screen) :
  forall s : JellyseerrUI,
    current_screen (back_times (List.length targets) (push_all targets s))
    = current_screen s
    /\ screen_stack (back_times (List.length targets) (push_all targets s))
       = screen_stack s.
Proof.
  induction targets as [|next targets IH]; intros s.
  - split; reflexivity.
  - rewrite push_all_cons. unfold back_times in *. simpl List.length.
    rewrite Nat.iter_succ.
    destruct (IH (push_screen next s)) as [Hcur Hstack].
    simpl in Hcur, Hstack.
    rewrite (handle_back_pops _ _ _ Hstack). split; reflexivity.
Qed.

(** Entering the detail screen from the results and going back once leaves
    the main menu on the stack: the stack is as before, not empty. *)
Lemma push_back_keeps_earlier_screens :
  let s' := back_times 1 (push_all [Media_detail] results_state) in
  current_screen s' = current_screen results_state
  /\ screen_stack s' = [Main_menu]
  /\ screen_stack s' <> [].
Proof. repeat split. discriminate. Qed.

(** C5 (amended).  After [k] screens were entered and "back" was pressed [k]
    times, the current screen and the back-stack are what they were at the
    start; the stack is then empty if it was empty at the start.  One
    [handle_back] pops the stack into the current screen when the stack is
    not empty, goes to the main menu when the stack is empty and the current
    screen is another one, and changes nothing otherwise; in the first two
    cases it sets the selection to 0. *)
Theorem push_then_back_restores :
  forall (s : JellyseerrUI) (targets : list Screen),
    (current_screen (back_times (List.length targets) (push_all targets s))
     = current_screen s
     /\ screen_stack (back_times (List.length targets) (push_all targets s))
        = screen_stack s
     /\ (screen_stack s = [] ->
         screen_stack (back_times (List.length targets) (push_all targets s)) = []))
    /\ (forall rest top, screen_stack s = rest ++ [top] ->
          handle_back s
          = set_selected_index 0
              (set_current_screen top (set_screen_stack rest s)))
    /\ (screen_stack s = [] -> current_screen s <> Main_menu ->
          handle_back s = set_selected_index 0 (set_current_screen Main_menu s))
    /\ (screen_stack s = [] -> current_screen s = Main_menu ->
          handle_back s = s).
Proof.
  intros s targets.
  destruct (back_times_push_all targets s) as [Hcur Hstack].
  split; [|split; [|split]].
  - repeat split; try assumption. intros Hempty. now rewrite Hstack.
  - intros rest top. apply handle_back_pops.
  - intros Hempty Hscreen. rewrite handle_back_root by assumption.
    destruct (current_screen s); congruence.
  - intros Hempty Hscreen. rewrite handle_back_root by assumption.
    now rewrite Hscreen.
Qed.

Lemma push_then_back_restores_witness :
  screen_stack
    (back_times 2 (push_all [Keyboard; Media_detail] init)) = []
  /\ handle_back init = init.
Proof.
  destruct (push_then_back_restores init [Keyboard; Media_detail])
    as ((_ & _ & Hempty) & _ & _ & Hroot).
  split; [apply Hempty | apply Hroot]; reflexivity.
Defined.

(** C3 as stated fails: selecting the second search result enters the
    detail screen with the selection still on 1. *)
Lemma select_result_keeps_selection :
  exists s',
    handle_search_result_select results_state = Some s'
    /\ current_screen s' = Media_detail
    /\ screen_stack s' = [Main_menu; Search_results]
    /\ selected_index s' = 1
    /\ selected_index s' <> 0.
Proof. eexists. repeat split. discriminate. Qed.

End BackStackFacts.

(* ===================================================================== *)
(** * What the handlers keep *)
(* ===================================================================== *)

Module HandlerFacts.
Import UI.
Local Open Scope py_scope.

Create HintDb view.
Create HintDb keeps.

(** The functions on [self] that leave the slot and the cursor alone. *)
Lemma view_navigate (d : Z) (s : JellyseerrUI) : view (navigate d s) = view s.
Proof.
  unfold navigate, navigate_items.
  destruct (current_screen s); try reflexivity;
    match goal with |- context [match ?l with _ => _ end] => destruct l end;
    reflexivity.
Qed.

Lemma view_handle_back (s : JellyseerrUI) : view (handle_back s) = view s.
Proof.
  unfold handle_back. destruct (pop (screen_stack s)) as [[top rest]|];
    [reflexivity|]. destruct (current_screen s); reflexivity.
Qed.

Lemma view_select_item (s s' : JellyseerrUI) :
  handle_search_result_select s = Some s'
  \/ handle_browse_select s = Some s' ->
  view s' = view s.
Proof.
  unfold handle_search_result_select, handle_browse_select.
  intros [H|H];
    match type of H with
    | (if ?b then _ else _) = _ => destruct b
    end;
    try match type of H with
        | match ?o with _ => _ end = _ => destruct o
        end;
    inversion H; reflexivity.
Qed.

Lemma slot_keyboard_right (s s' : JellyseerrUI) :
  keyboard_right s = Some s' ->
  scheduled_back_time s' = scheduled_back_time s.
Proof.
  unfold keyboard_right.
  destruct (py_getitem keyboard_layout (keyboard_row s)); [|discriminate].
  intros H; inversion H; reflexivity.
Qed.

#[local] Hint Resolve view_navigate view_handle_back : view.

Section Kit.

Variable host : Host.
Variable R : View -> View -> Prop.
Hypothesis R_refl : forall v, R v v.
Hypothesis R_trans : forall u v w, R u v -> R v w -> R u w.

(** The four cursor statements, the only assignments of the cursor. *)
Hypothesis R_up : forall s, R (view s) (view (keyboard_up s)).
Hypothesis R_down : forall s, R (view s) (view (keyboard_down s)).
Hypothesis R_left : forall s, R (view s) (view (keyboard_left s)).
Hypothesis R_right :
  forall s s', keyboard_right s = Some s' -> R (view s) (view s').

Lemma keeps_ret {A} (a : A) : Keeps R (ret a).
Proof. intros p. apply R_refl. Qed.

Lemma keeps_raise {A} : Keeps R (@raise A).
Proof. intros p. apply R_refl. Qed.

Lemma keeps_get_self : Keeps R get_self.
Proof. intros p. apply R_refl. Qed.

Lemma keeps_time_time : Keeps R (time_time host).
Proof. intros p. apply R_refl. Qed.

Lemma keeps_start_thread (t : Thread) : Keeps R (start_thread t).
Proof. intros p. apply R_refl. Qed.

Lemma keeps_api_request_media (media_id media_type : Value) :
  Keeps R (api_request_media host media_id media_type).
Proof.
  intros p. unfold api_request_media.
  destruct (request_media host (api_requests p) media_id media_type);
    apply R_refl.
Qed.

Lemma keeps_bind {A B} (c : M A) (k : A -> M B) :
  Keeps R c -> (forall a, Keeps R (k a)) -> Keeps R (bind c k).
Proof.
  intros Hc Hk p. unfold bind. specialize (Hc p).
  destruct (c p) as [a p'|p']; simpl in Hc.
  - apply (R_trans _ (view (self p'))); [exact Hc | apply Hk].
  - exact Hc.
Qed.

Lemma keeps_step (f : JellyseerrUI -> JellyseerrUI) :
  (forall s, R (view s) (view (f s))) -> Keeps R (modify f).
Proof. intros Hf p. apply Hf. Qed.

Lemma keeps_modify (f : JellyseerrUI -> JellyseerrUI) :
  (forall s, view (f s) = view s) -> Keeps R (modify f).
Proof. intros Hf. apply keeps_step. intros s. rewrite Hf. apply R_refl. Qed.

Lemma keeps_attempt (f : JellyseerrUI -> option JellyseerrUI) :
  (forall s s', f s = Some s' -> R (view s) (view s')) ->
  Keeps R (attempt f).
Proof.
  intros Hf p. unfold attempt.
  destruct (f (self p)) as [s'|] eqn:E; simpl.
  - now apply Hf.
  - apply R_refl.
Qed.

(** A hat motion is made of cursor statements, or of [navigate]. *)
Lemma R_handle_dpad_motion (value : Z * Z) (s s' : JellyseerrUI) :
  handle_dpad_motion value s = Some s' -> R (view s) (view s').
Proof.
  destruct value as [x y]. unfold handle_dpad_motion.
  assert (Hy : R (view s)
                 (view (if y =? 1 then keyboard_up s
                        else if y =? -1 then keyboard_down s else s)))
    by (destruct (y =? 1); [|destruct (y =? -1)]; auto).
  destruct (current_screen s).
  2: { destruct (x =? -1).
       - intros H; inversion H.
         eapply R_trans; [exact Hy | apply R_left].
       - destruct (x =? 1); [|intros H; inversion H; subst; exact Hy].
         intros H. eapply R_trans; [exact Hy | now apply R_right]. }
  all: destruct (y =? 1); [|destruct (y =? -1)];
    intros H; inversion H; try rewrite view_navigate; apply R_refl.
Qed.

(** Decompose a method into its statements. *)
Ltac keeps :=
  repeat first
    [ solve [auto with keeps]
    | apply keeps_ret
    | apply keeps_raise
    | apply keeps_get_self
    | apply keeps_time_time
    | apply keeps_start_thread
    | apply keeps_api_request_media
    | apply keeps_modify; solve [intros; auto with view]
    | apply keeps_step; solve [auto]
    | apply keeps_attempt; solve [auto | eauto using R_handle_dpad_motion]
    | apply keeps_bind; [|intros ?]
    | match goal with
      | |- Keeps _ (if ?b then _ else _) => destruct b
      | |- Keeps _ (match ?x with _ => _ end) => destruct x
      end ].

Lemma keeps_show_message (text : string) (color : option Color)
    (duration : Q) :
  Keeps R (show_message host text color duration).
Proof. unfold show_message. keeps. Qed.

Lemma keeps_can_navigate : Keeps R (can_navigate host).
Proof. unfold can_navigate. keeps. Qed.

#[local] Hint Resolve keeps_show_message keeps_can_navigate : keeps.

Lemma keeps_when_can_navigate (c : M unit) :
  Keeps R c -> Keeps R (when_can_navigate host c).
Proof. intros Hc. unfold when_can_navigate. keeps. Qed.

Lemma keeps_perform_search (query : string) :
  Keeps R (perform_search host query).
Proof. unfold perform_search. keeps. Qed.

Lemma keeps_load_popular_content : Keeps R (load_popular_content host).
Proof. unfold load_popular_content. keeps. Qed.

#[local] Hint Resolve keeps_perform_search keeps_load_popular_content : keeps.

Lemma keeps_handle_main_menu_select :
  Keeps R (handle_main_menu_select host).
Proof. unfold handle_main_menu_select. keeps. Qed.

Lemma keeps_handle_keyboard_select : Keeps R (handle_keyboard_select host).
Proof. unfold handle_keyboard_select. keeps. Qed.

Lemma keeps_handle_analog_navigation (axes : Q * Q) :
  Keeps R (handle_analog_navigation host axes).
Proof. unfold handle_analog_navigation. keeps. Qed.

Lemma keeps_draw : Keeps R draw.
Proof. unfold draw. keeps. Qed.

#[local] Hint Resolve keeps_handle_main_menu_select
  keeps_handle_keyboard_select keeps_handle_analog_navigation
  keeps_draw : keeps.

(** The background threads. *)
Lemma keeps_search_in_background (query : string) (api : Service) :
  Keeps R (search_in_background host query api).
Proof. unfold search_in_background. keeps. Qed.

Lemma keeps_load_in_background (api : Service) :
  Keeps R (load_in_background host api).
Proof. unfold load_in_background. keeps. Qed.

Lemma keeps_run_thread (i : nat) (api : Service) :
  Keeps R (run_thread host i api).
Proof.
  intros p. unfold run_thread.
  destruct (nth_error (threads p) i) as [[|query]|]; [| |apply R_refl].
  - apply (keeps_load_in_background api
             {| self := self p; threads := without i (threads p);
                clock_reads := clock_reads p;
                api_requests := api_requests p |}).
  - apply (keeps_search_in_background query api
             {| self := self p; threads := without i (threads p);
                clock_reads := clock_reads p;
                api_requests := api_requests p |}).
Qed.

(** The inputs that navigate do not go through a select handler. *)
Lemma keeps_navigation (event : Event) :
  is_navigation event = true -> Keeps R (handle_event host event).
Proof.
  destruct event as [|button|value|key|]; try discriminate; intros Hnav.
  - unfold handle_event. apply keeps_when_can_navigate. keeps.
  - unfold handle_event.
    assert (Hkey : key = K_UP \/ key = K_DOWN \/ key = K_LEFT \/ key = K_RIGHT).
    { simpl in Hnav.
      destruct (Z.eqb_spec key K_UP); [auto|].
      destruct (Z.eqb_spec key K_DOWN); [auto|].
      destruct (Z.eqb_spec key K_LEFT); [auto|].
      destruct (Z.eqb_spec key K_RIGHT); [auto | discriminate]. }
    unfold handle_keyboard. apply keeps_bind; [keeps|]. intros s.
    destruct Hkey as [-> | [-> | [-> | ->]]];
      destruct (current_screen s); cbn;
      try apply keeps_when_can_navigate; keeps.
Qed.

(** With a select handler of the detail screen that keeps [R], every input
    does. *)
Hypothesis keeps_detail : Keeps R (handle_media_detail_select host).

Lemma keeps_handle_select : Keeps R (handle_select host).
Proof.
  unfold handle_select. apply keeps_bind; [keeps|]. intros s.
  destruct (current_screen s); auto with keeps;
    apply keeps_attempt; intros s1 s2 H;
    rewrite (view_select_item s1 s2) by auto; apply R_refl.
Qed.

#[local] Hint Resolve keeps_handle_select : keeps.

Lemma keeps_handle_button_press (button : Z) :
  Keeps R (handle_button_press host button).
Proof. unfold handle_button_press. keeps. Qed.

Lemma keeps_handle_keyboard (key : Z) : Keeps R (handle_keyboard host key).
Proof.
  unfold handle_keyboard. apply keeps_bind; [keeps|]. intros s.
  destruct (current_screen s);
    repeat match goal with
           | |- Keeps _ (if ?b then _ else _) => destruct b
           end;
    try apply keeps_when_can_navigate; keeps.
Qed.

#[local] Hint Resolve keeps_handle_button_press keeps_handle_keyboard : keeps.

Lemma keeps_handle_event (event : Event) : Keeps R (handle_event host event).
Proof.
  destruct event; unfold handle_event;
    try apply keeps_when_can_navigate; keeps.
Qed.

Lemma keeps_handle_events (events : list Event) :
  Keeps R (handle_events host events).
Proof.
  induction events as [|event events IH]; simpl.
  - apply keeps_ret.
  - apply keeps_bind; [apply keeps_handle_event | intros _; exact IH].
Qed.

Lemma keeps_handle_input (input : Input) : Keeps R (handle_input host input).
Proof.
  unfold handle_input. apply keeps_bind; [apply keeps_handle_events|].
  intros _. keeps.
Qed.

(** With a check of the scheduled action that keeps [R], the whole process
    does. *)
Hypothesis keeps_check : Keeps R (check_scheduled_back host).

Lemma keeps_run_iteration (input : Input) :
  Keeps R (run_iteration host input).
Proof.
  unfold run_iteration. apply keeps_bind; [apply keeps_handle_input|].
  intros _. apply keeps_bind; [exact keeps_check|]. intros _. apply keeps_draw.
Qed.

Lemma keeps_run (schedule : list Step) : Keeps R (run host schedule).
Proof.
  induction schedule as [|[input|i api] schedule IH]; cbn [run].
  - apply keeps_ret.
  - apply keeps_bind; [apply keeps_get_self|]. intros s.
    destruct (running s); [|apply keeps_ret].
    apply keeps_bind; [apply keeps_run_iteration | intros _; exact IH].
  - apply keeps_bind; [apply keeps_run_thread | intros _; exact IH].
Qed.

End Kit.

End HandlerFacts.

(* ===================================================================== *)
(** * Properties of the keyboard cursor *)
(* ===================================================================== *)

Module KeyboardFacts.
Import UI.

(** Every row of the layout has ten keys. *)
Lemma keyboard_row_length (r : Z) :
  0 <= r < 4 ->
  exists row,
    py_getitem keyboard_layout r = Some row
    /\ nth_error keyboard_layout (Z.to_nat r) = Some row
    /\ len row = 10.
Proof.
  intros Hr.
  assert (Hcases : r = 0 \/ r = 1 \/ r = 2 \/ r = 3) by lia.
  destruct Hcases as [-> | [-> | [-> | ->]]];
    eexists; repeat split; reflexivity.
Qed.

Lemma cursor_valid_iff (s : JellyseerrUI) :
  cursor_valid s = true
  <-> 0 <= keyboard_row s < 4 /\ 0 <= keyboard_col s < 10.
Proof.
  unfold cursor_valid, cursor_ok. change (len keyboard_layout) with 4. split.
  - intros H. apply andb_prop in H. destruct H as [Hrow Hcol].
    apply andb_prop in Hrow. destruct Hrow as [Hr0 Hr4].
    apply Z.leb_le in Hr0. apply Z.ltb_lt in Hr4.
    destruct (keyboard_row_length (keyboard_row s)) as (row & _ & Hnth & Hlen);
      [lia|].
    rewrite Hnth, Hlen in Hcol. apply andb_prop in Hcol.
    destruct Hcol as [Hc0 Hc10].
    apply Z.leb_le in Hc0. apply Z.ltb_lt in Hc10. lia.
  - intros [Hr Hc].
    destruct (keyboard_row_length (keyboard_row s)) as (row & _ & Hnth & Hlen);
      [lia|].
    rewrite Hnth, Hlen.
    repeat (apply andb_true_intro; split);
      try apply Z.leb_le; try apply Z.ltb_lt; lia.
Qed.

Lemma keyboard_right_valid (s : JellyseerrUI) :
  0 <= keyboard_row s < 4 ->
  exists row,
    py_getitem keyboard_layout (keyboard_row s) = Some row
    /\ len row = 10
    /\ keyboard_right s
       = Some (set_keyboard_col (Z.min (len row - 1) (keyboard_col s + 1)) s).
Proof.
  intros Hr.
  destruct (keyboard_row_length (keyboard_row s) Hr) as (row & Hget & _ & Hlen).
  exists row. unfold keyboard_right. rewrite Hget. auto.
Qed.

(** One hat motion from a valid cursor: the handler returns, the cursor is
    valid, and on the keyboard screen the row and the column are the old ones
    moved by one step and clamped. *)
Lemma handle_dpad_motion_valid (s : JellyseerrUI) (x y : Z) :
  cursor_valid s = true ->
  exists s',
    handle_dpad_motion (x, y) s = Some s'
    /\ cursor_valid s' = true
    /\ (current_screen s = Keyboard -> -1 <= x <= 1 -> -1 <= y <= 1 ->
        keyboard_row s'
        = Z.max 0 (Z.min (len keyboard_layout - 1) (keyboard_row s - y))
        /\ exists row,
             py_getitem keyboard_layout (keyboard_row s') = Some row
             /\ keyboard_col s'
                = Z.max 0 (Z.min (len row - 1) (keyboard_col s + x))).
Proof.
  intros Hvalid. apply cursor_valid_iff in Hvalid. destruct Hvalid as [Hr Hc].
  unfold handle_dpad_motion.
  destruct (current_screen s) eqn:Hscreen.
  2: {
    (* keyboard *)
    set (s1 := if y =? 1 then keyboard_up s
               else if y =? -1 then keyboard_down s else s).
    assert (Hr1 : 0 <= keyboard_row s1 < 4
                  /\ keyboard_col s1 = keyboard_col s
                  /\ (-1 <= y <= 1 ->
                      keyboard_row s1
                      = Z.max 0 (Z.min (len keyboard_layout - 1)
                                       (keyboard_row s - y)))).
    { unfold s1. change (len keyboard_layout) with 4.
      destruct (Z.eqb_spec y 1); [simpl; lia|].
      destruct (Z.eqb_spec y (-1)); simpl;
        change (len keyboard_layout) with 4; lia. }
    destruct Hr1 as (Hr1 & Hc1 & Hrow).
    destruct (keyboard_row_length (keyboard_row s1) Hr1)
      as (row1 & Hget1 & _ & Hlen1).
    destruct (Z.eqb_spec x (-1)).
    - eexists. split; [reflexivity|]. split.
      + apply cursor_valid_iff. simpl. lia.
      + intros _ Hx Hy. split; [simpl; now apply Hrow|].
        exists row1. simpl. split; [exact Hget1|]. lia.
    - destruct (Z.eqb_spec x 1).
      + destruct (keyboard_right_valid s1 Hr1) as (row & Hget & Hlen & ->).
        eexists. split; [reflexivity|]. split.
        * apply cursor_valid_iff. simpl. lia.
        * intros _ Hx Hy. split; [simpl; now apply Hrow|].
          exists row. simpl. split; [exact Hget|]. lia.
      + eexists. split; [reflexivity|]. split.
        * apply cursor_valid_iff. lia.
        * intros _ Hx Hy. split; [now apply Hrow|].
          exists row1. split; [exact Hget1|]. lia. }
  all: assert (Hnav : forall d, cursor_valid (navigate d s) = true)
         by (intros d; apply cursor_valid_iff; unfold navigate, navigate_items;
             rewrite Hscreen;
             repeat match goal with
                    | |- context [match ?l with _ => _ end] => destruct l
                    end; simpl; lia).
  all: destruct (y =? 1);
         [eexists; split; [reflexivity|]; split; [apply Hnav | discriminate]|].
  all: destruct (y =? -1);
         [eexists; split; [reflexivity|]; split; [apply Hnav | discriminate]|].
  all: eexists; split; [reflexivity|]; split;
         [apply cursor_valid_iff; lia | discriminate].
Qed.

(** The select handler of the detail screen and the check of the scheduled
    action leave the cursor alone. *)
Lemma detail_keeps_cursor (host : Host) :
  Keeps cursor_kept (handle_media_detail_select host).
Proof.
  intros p. unfold cursor_kept, handle_media_detail_select, bind, get_self.
  destruct (selected_media (self p)) as [[|item media]|]; try (cbn; tauto).
  unfold api_request_media.
  destruct (request_media host (api_requests p) _ _) as [[|]|]; cbn; tauto.
Qed.

Lemma check_keeps_cursor (host : Host) :
  Keeps cursor_kept (check_scheduled_back host).
Proof.
  intros p. unfold cursor_kept, check_scheduled_back, bind, get_self.
  destruct (scheduled_back_time (self p)) as [t|]; [|cbn; tauto].
  destruct (Qeq_bool t 0); [cbn; tauto|].
  unfold time_time. destruct (Qle_bool t _); [|cbn; tauto].
  cbn [final modify self]. rewrite HandlerFacts.view_handle_back. cbn. tauto.
Qed.

(** Whatever the process does, a cursor that designates a cell still does
    so afterwards. *)
Lemma run_keeps_cursor (host : Host) (schedule : list Step) (p : Process) :
  cursor_valid (self p) = true ->
  cursor_valid (self (final (run host schedule p))) = true.
Proof.
  apply (HandlerFacts.keeps_run host cursor_kept).
  - intros v H. exact H.
  - intros u v w Huv Hvw H. auto.
  - intros s H. fold (cursor_valid s) in H.
    apply cursor_valid_iff in H.
    apply (cursor_valid_iff (keyboard_up s)). simpl. lia.
  - intros s H. fold (cursor_valid s) in H.
    apply cursor_valid_iff in H.
    apply (cursor_valid_iff (keyboard_down s)). simpl.
    change (len keyboard_layout) with 4. lia.
  - intros s H. fold (cursor_valid s) in H.
    apply cursor_valid_iff in H.
    apply (cursor_valid_iff (keyboard_left s)). simpl. lia.
  - intros s s' Hright H. fold (cursor_valid s) in H.
    apply cursor_valid_iff in H. destruct H as [Hr Hc].
    destruct (keyboard_right_valid s Hr) as (row & _ & Hlen & Heq).
    rewrite Heq in Hright. inversion Hright.
    apply (cursor_valid_iff (set_keyboard_col _ s)). simpl. lia.
  - apply detail_keeps_cursor.
  - apply check_keeps_cursor.
Qed.

(** C8.  From a cursor that designates a cell of the keyboard, a hat motion
    returns normally and leaves a cursor that designates a cell; on the
    keyboard screen a single step [(x, y)] moves the row to [row - y] clamped
    to [0 .. numRows - 1] and the column to [col + x] clamped to
    [0 .. rowLength - 1] for the length of the row arrived at, so that
    nothing wraps; and the cursor designates a cell after any sequence of
    motions.  The same holds for each of the four cursor statements, which
    the arrow keys and the analog stick run as well, and so for every run of
    the process, whatever the inputs and the threads that complete. *)
Theorem keyboard_cursor_clamped :
  forall s : JellyseerrUI,
    cursor_valid s = true ->
    (forall x y : Z,
        exists s',
          handle_dpad_motion (x, y) s = Some s'
          /\ cursor_valid s' = true
          /\ (current_screen s = Keyboard -> -1 <= x <= 1 -> -1 <= y <= 1 ->
              keyboard_row s'
              = Z.max 0 (Z.min (len keyboard_layout - 1) (keyboard_row s - y))
              /\ exists row,
                   py_getitem keyboard_layout (keyboard_row s') = Some row
                   /\ keyboard_col s'
                      = Z.max 0 (Z.min (len row - 1) (keyboard_col s + x))))
    /\ (forall values : list (Z * Z),
           exists s', dpad_motions values s = Some s'
                      /\ cursor_valid s' = true)
    /\ (cursor_valid (keyboard_up s) = true
        /\ cursor_valid (keyboard_down s) = true
        /\ cursor_valid (keyboard_left s) = true
        /\ exists s', keyboard_right s = Some s' /\ cursor_valid s' = true)
    /\ (forall (host : Host) (schedule : list Step) (p : Process),
          self p = s ->
          cursor_valid (self (final (run host schedule p))) = true).
Proof.
  intros s Hvalid. split; [|split; [|split]].
  4: { intros host schedule p Hp. apply run_keeps_cursor. now rewrite Hp. }
  3: { pose proof (proj1 (cursor_valid_iff s) Hvalid) as [Hr Hc].
       destruct (keyboard_right_valid s Hr) as (row & _ & Hlen & Hright).
       repeat split; try (apply cursor_valid_iff; simpl;
                          change (len keyboard_layout) with 4; lia).
       eexists. split; [exact Hright|].
       apply cursor_valid_iff. simpl. lia. }
  - intros x y. now apply handle_dpad_motion_valid.
  - intros values. revert s Hvalid.
    induction values as [|[x y] values IH]; intros s Hvalid.
    + exists s. split; [reflexivity | exact Hvalid].
    + destruct (handle_dpad_motion_valid s x y Hvalid) as (s1 & Hstep & Hv1 & _).
      cbn [dpad_motions]. rewrite Hstep. now apply IH.
Qed.

Lemma keyboard_cursor_clamped_witness :
  exists s',
    dpad_motions [(1, -1); (1, 0); (0, -1)] keyboard_corner = Some s'
    /\ cursor_valid s' = true.
Proof.
  destruct (keyboard_cursor_clamped keyboard_corner) as (_ & Hseq & _).
  - reflexivity.
  - apply Hseq.
Defined.

Example keyboard_corner_stays :
  option_map (fun s => (keyboard_row s, keyboard_col s))
             (dpad_motions [(1, -1); (1, 0); (0, -1)] keyboard_corner)
  = Some (3, 9).
Proof. reflexivity. Qed.

End KeyboardFacts.

(* ===================================================================== *)
(** * Properties of the image cache *)
(* ===================================================================== *)

Module ImageCacheFacts.
Import ImageCache.

Section CacheFacts.

Variable Surface : Type.
Variable world : World Surface.

Local Abbreviation OrderedDict := (list (string * Surface)).

(* ------------------------------------------------------------------- *)
(** ** The dictionary operations *)

Lemma lookup_None_keys (url : string) (d : OrderedDict) :
  lookup url d = None <-> ~ In url (keys d).
Proof.
  induction d as [|[k v] d IH]; simpl.
  - tauto.
  - destruct (String.eqb_spec k url) as [->|Hne].
    + split; [discriminate | intros H; exfalso; apply H; now left].
    + rewrite IH. split; [intros H [Hk|Hin]; [congruence | tauto] | tauto].
Qed.

Lemma setitem_absent (url : string) (image : Surface) (d : OrderedDict) :
  lookup url d = None -> setitem url image d = d ++ [(url, image)].
Proof.
  induction d as [|[k v] d IH]; simpl; [reflexivity|].
  destruct (String.eqb k url); [discriminate|].
  intros H. now rewrite IH.
Qed.

Lemma length_setitem (url : string) (image : Surface) (d : OrderedDict) :
  (List.length (setitem url image d) <= S (List.length d))%nat.
Proof.
  induction d as [|[k v] d IH]; simpl; [lia|].
  destruct (String.eqb k url); simpl; lia.
Qed.

Lemma length_remove_le (url : string) (d : OrderedDict) :
  (List.length (remove url d) <= List.length d)%nat.
Proof.
  induction d as [|[k v] d IH]; simpl; [lia|].
  destruct (String.eqb k url); simpl; lia.
Qed.

Lemma length_remove_present (url : string) (d : OrderedDict) (v : Surface) :
  lookup url d = Some v ->
  (S (List.length (remove url d)) <= List.length d)%nat.
Proof.
  induction d as [|[k w] d IH]; simpl; [discriminate|].
  destruct (String.eqb k url).
  - intros _. pose proof (length_remove_le url d). lia.
  - intros H. apply IH in H. simpl. lia.
Qed.

Lemma lookup_remove_other (url other : string) (d : OrderedDict) :
  lookup other d = None -> lookup other (remove url d) = None.
Proof.
  induction d as [|[k v] d IH]; simpl; [reflexivity|].
  destruct (String.eqb k other) eqn:E; [discriminate|].
  intros H. destruct (String.eqb k url); [now apply IH|].
  simpl. rewrite E. now apply IH.
Qed.

Lemma lookup_app_None (url : string) (d1 d2 : OrderedDict) :
  lookup url d1 = None -> lookup url (d1 ++ d2) = lookup url d2.
Proof.
  induction d1 as [|[k v] d1 IH]; simpl; [reflexivity|].
  destruct (String.eqb k url); [discriminate | exact IH].
Qed.

Lemma contains_app_r (url : string) (d1 d2 : OrderedDict) :
  contains url d2 = true -> contains url (d1 ++ d2) = true.
Proof.
  unfold contains. induction d1 as [|[k v] d1 IH]; simpl; [auto|].
  destruct (String.eqb k url); auto.
Qed.

Lemma contains_last (url : string) (v : Surface) (d : OrderedDict) :
  contains url (d ++ [(url, v)]) = true.
Proof.
  apply contains_app_r. unfold contains. simpl. now rewrite String.eqb_refl.
Qed.

Lemma contains_setitem (url other : string) (image : Surface)
    (d : OrderedDict) :
  contains url d = true -> contains url (setitem other image d) = true.
Proof.
  unfold contains. induction d as [|[k v] d IH]; simpl; [discriminate|].
  destruct (String.eqb k other) eqn:Eo; simpl;
    destruct (String.eqb k url); auto.
Qed.

Lemma keys_app (d1 d2 : OrderedDict) : keys (d1 ++ d2) = keys d1 ++ keys d2.
Proof. apply map_app. Qed.

(* ------------------------------------------------------------------- *)
(** ** [load_image], case by case *)

Lemma load_image_falsy (url : option string) (st : State Surface) :
  url = None \/ url = Some "" ->
  load_image world url st = (placeholder_image world, st).
Proof. intros [-> | ->]; reflexivity. Qed.

Lemma load_image_hit (url : string) (image : Surface) (st : State Surface) :
  url <> "" ->
  lookup url (image_cache st) = Some image ->
  load_image world (Some url) st
  = (image,
     set_image_cache st (remove url (image_cache st) ++ [(url, image)])).
Proof.
  intros Hurl Hhit. destruct url as [|c url]; [congruence|].
  unfold load_image, move_to_end. now rewrite Hhit.
Qed.

(** On a miss [load_image] stores what [fetch] obtained, or answers with the
    placeholder. *)
Lemma load_image_miss (url : string) (st : State Surface) :
  url <> "" ->
  lookup url (image_cache st) = None ->
  load_image world (Some url) st
  = match fetch world url (http_calls st) with
    | (Some image, calls) =>
        cache_and_return world url image (set_http_calls st calls)
    | (None, calls) => (placeholder_image world, set_http_calls st calls)
    end.
Proof.
  intros Hurl Hmiss. destruct url as [|c url]; [congruence|].
  unfold load_image, fetch. rewrite Hmiss.
  destruct (Api.download_image (session_get world) (String c url)
              (http_calls st)) as [download calls].
  destruct download as [[[|b image_data]|]|]; try reflexivity.
  unfold decode.
  destruct (pygame_decode world (b :: image_data)); try reflexivity.
  destruct (PIL_AVAILABLE world); try reflexivity.
  destruct (pil_decode world (b :: image_data)); reflexivity.
Qed.

(* ------------------------------------------------------------------- *)
(** ** Capacity *)

Lemma _add_to_cache_capacity (url : string) (image : Surface)
    (st st' : State Surface) :
  _add_to_cache url image st = Some st' ->
  len (image_cache st) <= max_cache_size st ->
  len (image_cache st') <= max_cache_size st'
  /\ max_cache_size st' = max_cache_size st.
Proof.
  unfold _add_to_cache, len. intros Hadd Hcap.
  destruct (Z.leb_spec (max_cache_size st)
              (Z.of_nat (List.length (image_cache st)))) as [Hfull|Hroom].
  - destruct (image_cache st) as [|oldest rest] eqn:Hcache; [discriminate|].
    inversion Hadd; subst st'; simpl.
    pose proof (length_setitem url image rest). simpl in Hcap. lia.
  - inversion Hadd; subst st'; simpl.
    pose proof (length_setitem url image (image_cache st)). lia.
Qed.

Lemma cache_and_return_capacity (url : string) (image : Surface)
    (st : State Surface) :
  len (image_cache st) <= max_cache_size st ->
  let st' := snd (cache_and_return world url image st) in
  len (image_cache st') <= max_cache_size st'
  /\ max_cache_size st' = max_cache_size st.
Proof.
  intros Hcap. unfold cache_and_return.
  destruct (_add_to_cache url image st) as [st1|] eqn:Hadd; simpl.
  - now apply (_add_to_cache_capacity url image st st1).
  - split; [exact Hcap | reflexivity].
Qed.

(** [load_image] never lets the cache grow beyond its capacity. *)
Lemma load_image_capacity (url : option string) (st : State Surface) :
  len (image_cache st) <= max_cache_size st ->
  let st' := snd (load_image world url st) in
  len (image_cache st') <= max_cache_size st'
  /\ max_cache_size st' = max_cache_size st.
Proof.
  intros Hcap.
  destruct url as [url|]; [|now rewrite load_image_falsy by auto].
  destruct (String.eqb_spec url "") as [->|Hurl];
    [now rewrite load_image_falsy by auto|].
  destruct (lookup url (image_cache st)) as [image|] eqn:Hlook.
  - rewrite (load_image_hit url image st Hurl Hlook). simpl.
    split; [|reflexivity].
    pose proof (length_remove_present url (image_cache st) image Hlook).
    unfold len in *. rewrite length_app. simpl. lia.
  - rewrite (load_image_miss url st Hurl Hlook).
    destruct (fetch world url (http_calls st)) as [[image|] calls].
    + apply (cache_and_return_capacity url image (set_http_calls st calls)).
      exact Hcap.
    + simpl. split; [exact Hcap | reflexivity].
Qed.

Lemma load_all_capacity (urls : list string) :
  forall st : State Surface,
    len (image_cache st) <= max_cache_size st ->
    len (image_cache (load_all world urls st)) <= max_cache_size st
    /\ max_cache_size (load_all world urls st) = max_cache_size st.
Proof.
  induction urls as [|u urls IH]; intros st Hcap.
  - split; [exact Hcap | reflexivity].
  - change (load_all world (u :: urls) st)
      with (load_all world urls (snd (load_image world (Some u) st))).
    destruct (load_image_capacity (Some u) st Hcap) as [Hcap1 Hmax1].
    destruct (IH _ Hcap1) as [Hcap2 Hmax2].
    rewrite Hmax2, Hmax1 in *. split; [exact Hcap2 | reflexivity].
Qed.

(* ------------------------------------------------------------------- *)
(** ** Eviction *)

(** A miss that fetches an image into a full cache drops the oldest entry
    and appends the new one. *)
Lemma load_image_evicts_oldest (url : string) (image : Surface)
    (st : State Surface) :
  1 <= max_cache_size st ->
  len (image_cache st) = max_cache_size st ->
  url <> "" ->
  lookup url (image_cache st) = None ->
  fst (fetch world url (http_calls st)) = Some image ->
  exists oldest rest,
    image_cache st = oldest :: rest
    /\ fst (load_image world (Some url) st) = image
    /\ image_cache (snd (load_image world (Some url) st))
       = rest ++ [(url, image)]
    /\ len (image_cache (snd (load_image world (Some url) st)))
       = max_cache_size st.
Proof.
  intros Hcap Hfull Hurl Hmiss Hfetch.
  rewrite (load_image_miss url st Hurl Hmiss).
  destruct (fetch world url (http_calls st)) as [r calls].
  simpl in Hfetch. subst r.
  unfold cache_and_return, _add_to_cache. simpl.
  destruct (image_cache st) as [|oldest rest] eqn:Hcache.
  - unfold len in Hfull. simpl in Hfull. lia.
  - exists oldest, rest. split; [reflexivity|].
    rewrite <- Hfull, Z.leb_refl. simpl.
    assert (Hrest : lookup url rest = None).
    { simpl in Hmiss. destruct oldest as [k v].
      destruct (String.eqb k url); [discriminate | exact Hmiss]. }
    rewrite (setitem_absent url image rest Hrest).
    repeat split. unfold len. rewrite length_app. simpl. lia.
Qed.

(** A miss that fetches an image adds its key at the recent end, after the
    oldest key was dropped if the cache was full. *)
Lemma load_image_miss_keys (url : string) (st : State Surface) :
  1 <= max_cache_size st ->
  url <> "" ->
  ~ In url (keys (image_cache st)) ->
  fst (fetch world url (http_calls st)) <> None ->
  let st' := snd (load_image world (Some url) st) in
  max_cache_size st' = max_cache_size st
  /\ keys (image_cache st')
     = (if max_cache_size st <=? len (image_cache st)
        then tl (keys (image_cache st)) else keys (image_cache st)) ++ [url].
Proof.
  intros Hcap Hurl Hnew Hfetch.
  apply lookup_None_keys in Hnew.
  rewrite (load_image_miss url st Hurl Hnew).
  destruct (fetch world url (http_calls st)) as [[image|] calls];
    [|simpl in Hfetch; congruence].
  unfold cache_and_return, _add_to_cache. simpl.
  destruct (Z.leb_spec (max_cache_size st) (len (image_cache st))).
  - destruct (image_cache st) as [|[k v] rest] eqn:Hcache.
    + unfold len in *. simpl in *. lia.
    + simpl. split; [reflexivity|].
      assert (Hrest : lookup url rest = None).
      { simpl in Hnew. destruct (String.eqb k url);
          [discriminate | exact Hnew]. }
      rewrite (setitem_absent url image rest Hrest), keys_app. reflexivity.
  - simpl. split; [reflexivity|].
    rewrite (setitem_absent url image _ Hnew), keys_app. reflexivity.
Qed.

Lemma tl_skipn {A} (n : nat) :
  forall l : list A, tl (skipn n l) = skipn (S n) l.
Proof.
  induction n as [|n IH]; intros [|a l]; try reflexivity. apply IH.
Qed.

Lemma In_skipn {A} (x : A) (n : nat) :
  forall l : list A, In x (skipn n l) -> In x l.
Proof.
  induction n as [|n IH]; intros [|a l]; simpl; auto.
Qed.

Lemma skipn_step {A} (l : list A) (u : A) (c : nat) :
  (1 <= c)%nat ->
  (if (c <=? List.length (skipn (List.length l - c) l))%nat
   then tl (skipn (List.length l - c) l)
   else skipn (List.length l - c) l) ++ [u]
  = skipn (List.length (l ++ [u]) - c) (l ++ [u]).
Proof.
  intros Hc. rewrite length_skipn, length_app. simpl List.length.
  destruct (Nat.leb_spec c (List.length l - (List.length l - c))) as [H|H].
  - assert (Hle : (c <= List.length l)%nat) by lia.
    replace (List.length l + 1 - c)%nat with (S (List.length l - c)) by lia.
    rewrite skipn_app.
    replace (S (List.length l - c) - List.length l)%nat with 0%nat by lia.
    change (skipn 0 [u]) with [u]. f_equal. apply tl_skipn.
  - replace (List.length l - c)%nat with 0%nat by lia.
    replace (List.length l + 1 - c)%nat with 0%nat by lia.
    reflexivity.
Qed.

(** After the URLs [seen], then [urls], were loaded, all distinct and all
    fetched, the cache holds the most recent ones, as many as fit. *)
Lemma load_all_keys (urls : list string) :
  forall (seen : list string) (st : State Surface),
    1 <= max_cache_size st ->
    keys (image_cache st)
    = skipn (List.length seen - Z.to_nat (max_cache_size st)) seen ->
    NoDup (seen ++ urls) ->
    (forall u, In u urls -> u <> "") ->
    (forall u calls, In u urls -> fst (fetch world u calls) <> None) ->
    max_cache_size (load_all world urls st) = max_cache_size st
    /\ keys (image_cache (load_all world urls st))
       = skipn (List.length (seen ++ urls) - Z.to_nat (max_cache_size st))
               (seen ++ urls).
Proof.
  induction urls as [|u urls IH]; intros seen st Hcap Hkeys Hnodup Hne Hfetch.
  - rewrite app_nil_r. split; [reflexivity | exact Hkeys].
  - assert (Hnew : ~ In u (keys (image_cache st))).
    { rewrite Hkeys. intros Hin.
      apply NoDup_remove_2 in Hnodup. apply Hnodup.
      apply in_or_app. left. now apply In_skipn in Hin. }
    destruct (load_image_miss_keys u st Hcap (Hne u (or_introl eq_refl)) Hnew
                (Hfetch u _ (or_introl eq_refl))) as [Hmax Hk].
    change (load_all world (u :: urls) st)
      with (load_all world urls (snd (load_image world (Some u) st))).
    set (st1 := snd (load_image world (Some u) st)) in *.
    destruct (IH (seen ++ [u]) st1) as [Hmax' Hk'].
    + now rewrite Hmax.
    + rewrite Hk, Hmax.
      set (c := Z.to_nat (max_cache_size st)) in *.
      assert (Hlen : len (image_cache st)
                     = Z.of_nat (List.length
                                   (skipn (List.length seen - c) seen))).
      { unfold len. rewrite <- Hkeys. unfold keys. now rewrite length_map. }
      assert (Hb : (max_cache_size st <=? len (image_cache st))
                   = (c <=? List.length
                              (skipn (List.length seen - c) seen))%nat).
      { rewrite Hlen.
        destruct (Z.leb_spec (max_cache_size st)
                    (Z.of_nat (List.length
                                 (skipn (List.length seen - c) seen))));
          destruct (Nat.leb_spec c
                      (List.length (skipn (List.length seen - c) seen)));
          auto; lia. }
      rewrite Hb, Hkeys. apply skipn_step. lia.
    + now rewrite <- app_assoc.
    + intros v Hv. apply Hne. now right.
    + intros v calls Hv. apply Hfetch. now right.
    + rewrite Hmax', Hmax. split; [reflexivity|].
      rewrite Hk', Hmax, <- app_assoc. reflexivity.
Qed.

(* ------------------------------------------------------------------- *)
(** ** A read hit protects the key *)

Lemma read_then_insert_keeps (url other : string) (image : Surface)
    (st : State Surface) :
  2 <= max_cache_size st ->
  url <> "" -> other <> "" ->
  lookup url (image_cache st) = Some image ->
  lookup other (image_cache st) = None ->
  fst (load_image world (Some url) st) = image
  /\ image_cache (snd (load_image world (Some url) st))
     = remove url (image_cache st) ++ [(url, image)]
  /\ contains url
       (image_cache
          (snd (load_image world (Some other)
                  (snd (load_image world (Some url) st))))) = true.
Proof.
  intros Hcap Hurl Hother Hhit Hmiss.
  rewrite (load_image_hit url image st Hurl Hhit). cbn [fst snd].
  split; [reflexivity|]. split; [reflexivity|].
  set (st1 := set_image_cache st (remove url (image_cache st)
                                    ++ [(url, image)])).
  assert (Hne : String.eqb url other = false).
  { destruct (String.eqb_spec url other); [congruence | reflexivity]. }
  assert (Hmiss1 : lookup other (image_cache st1) = None).
  { simpl. rewrite lookup_app_None by now apply lookup_remove_other.
    simpl. now rewrite Hne. }
  rewrite (load_image_miss other st1 Hother Hmiss1).
  destruct (fetch world other (http_calls st1)) as [[image2|] calls]; simpl;
    [|apply contains_last].
  unfold cache_and_return, _add_to_cache. simpl.
  destruct (Z.leb_spec (max_cache_size st)
              (len (remove url (image_cache st) ++ [(url, image)]))).
  - destruct (remove url (image_cache st)) as [|x r]; simpl.
    + unfold len in *. simpl in *. lia.
    + apply contains_setitem, contains_last.
  - simpl. apply contains_setitem, contains_last.
Qed.

(** C1 (amended).  [load_image] never leaves more entries in the cache than
    its capacity, neither in one call nor in a sequence of calls.  When the cache holds exactly its capacity (at least 1)
    and a new key is fetched, the least recently used entry is dropped and
    the new one appended, so that the size stays at the capacity; after
    [capacity + 1] distinct keys were fetched into the empty cache, exactly
    [capacity] entries remain and the first key is absent.  A read hit makes
    its key the most recent one; if the capacity is at least 2, a load that
    follows a read hit leaves the key that was read in the cache. *)
Theorem image_cache_lru_capacity :
  forall st : State Surface,
    (forall url,
        len (image_cache st) <= max_cache_size st ->
        len (image_cache (snd (load_image world url st)))
        <= max_cache_size (snd (load_image world url st))
        /\ max_cache_size (snd (load_image world url st))
           = max_cache_size st)
    /\ (forall urls,
          len (image_cache st) <= max_cache_size st ->
          len (image_cache (load_all world urls st)) <= max_cache_size st)
    /\ (forall url image,
          1 <= max_cache_size st ->
          len (image_cache st) = max_cache_size st ->
          url <> "" ->
          lookup url (image_cache st) = None ->
          fst (fetch world url (http_calls st)) = Some image ->
          exists oldest rest,
            image_cache st = oldest :: rest
            /\ fst (load_image world (Some url) st) = image
            /\ image_cache (snd (load_image world (Some url) st))
               = rest ++ [(url, image)]
            /\ len (image_cache (snd (load_image world (Some url) st)))
               = max_cache_size st)
    /\ (forall capacity first urls,
          1 <= capacity ->
          len (first :: urls) = capacity + 1 ->
          NoDup (first :: urls) ->
          (forall u, In u (first :: urls) -> u <> "") ->
          (forall u calls, In u (first :: urls) ->
                           fst (fetch world u calls) <> None) ->
          let st' := load_all world (first :: urls) (init Surface capacity) in
          len (image_cache st') = capacity
          /\ keys (image_cache st') = urls
          /\ contains first (image_cache st') = false)
    /\ (forall url other image,
          2 <= max_cache_size st ->
          url <> "" -> other <> "" ->
          lookup url (image_cache st) = Some image ->
          lookup other (image_cache st) = None ->
          fst (load_image world (Some url) st) = image
          /\ image_cache (snd (load_image world (Some url) st))
             = remove url (image_cache st) ++ [(url, image)]
          /\ contains url
               (image_cache
                  (snd (load_image world (Some other)
                          (snd (load_image world (Some url) st))))) = true).
Proof.
  intros st. split; [|split; [|split; [|split]]].
  - intros url Hcap. now apply load_image_capacity.
  - intros urls Hcap. now apply load_all_capacity.
  - intros url image. apply load_image_evicts_oldest.
  - intros capacity first urls Hcap Hlen Hnodup Hne Hfetch st'.
    destruct (load_all_keys (first :: urls) [] (init Surface capacity))
      as [_ Hkeys]; try assumption; try reflexivity.
    change (max_cache_size (init Surface capacity)) with capacity in Hkeys.
    change ([] ++ first :: urls) with (first :: urls) in Hkeys.
    fold st' in Hkeys.
    assert (Hk : keys (image_cache st') = urls).
    { rewrite Hkeys. unfold len in Hlen.
      replace (List.length (first :: urls) - Z.to_nat capacity)%nat
        with 1%nat by lia.
      reflexivity. }
    split; [|split].
    + unfold len in *. rewrite <- (length_map fst). fold (keys (image_cache st')).
      rewrite Hk. simpl List.length in Hlen. lia.
    + exact Hk.
    + unfold contains.
      destruct (lookup first (image_cache st')) eqn:Hlook; [|reflexivity].
      assert (Habsent : lookup first (image_cache st') = None).
      { apply lookup_None_keys. rewrite Hk. now inversion Hnodup. }
      congruence.
  - intros url other image. apply read_then_insert_keeps.
Qed.

End CacheFacts.

(** Three posters loaded into a cache of capacity 2. *)
Lemma image_cache_lru_capacity_witness :
  keys (image_cache
          (load_all demo_world ["/a.jpg"; "/b.jpg"; "/c.jpg"] (init bytes 2)))
  = ["/b.jpg"; "/c.jpg"].
Proof.
  destruct (image_cache_lru_capacity bytes demo_world (init bytes 2))
    as (_ & _ & _ & Hfill & _).
  destruct (Hfill 2 "/a.jpg" ["/b.jpg"; "/c.jpg"]) as (_ & Hkeys & _).
  - lia.
  - reflexivity.
  - repeat constructor; simpl; intuition discriminate.
  - intros u Hu. simpl in Hu. intuition (subst; discriminate).
  - intros u calls Hu. simpl in Hu.
    intuition (subst; discriminate).
  - exact Hkeys.
Defined.

(** C1 as stated fails for capacity 1: the key that was just read is the
    only entry, and the next insertion evicts it. *)
Lemma read_then_insert_evicts_at_capacity_one :
  let st1 := snd (load_image demo_world (Some "/a.jpg") (init bytes 1)) in
  let hit := load_image demo_world (Some "/a.jpg") st1 in
  let st3 := snd (load_image demo_world (Some "/b.jpg") (snd hit)) in
  keys (image_cache st1) = ["/a.jpg"]
  /\ fst hit = list_byte_of_string "/a.jpg"
  /\ len (image_cache (snd hit)) = max_cache_size (snd hit)
  /\ keys (image_cache st3) = ["/b.jpg"]
  /\ contains "/a.jpg" (image_cache st3) = false.
Proof. repeat split. Qed.

(** The configured capacity is in the range where a read hit protects its
    key. *)
Remark default_capacity_protects_reads :
  2 <= max_cache_size (init bytes MAX_IMAGE_CACHE_SIZE).
Proof. simpl. unfold MAX_IMAGE_CACHE_SIZE. lia. Qed.

(* ------------------------------------------------------------------- *)
(** ** Failures *)

(** [download_image] asks the network at least once and at most three
    times, always for the URL it was given. *)
Lemma download_image_calls (session_get : Api.Network) (url : string)
    (calls : list string) :
  exists k : nat,
    (1 <= k <= 3)%nat
    /\ snd (Api.download_image session_get url calls) = calls ++ repeat url k.
Proof.
  unfold Api.download_image, Api.max_retries. cbn [Api.download_attempts].
  destruct (Api.attempt (session_get (List.length calls) url));
    [exists 1%nat; split; [lia | reflexivity] | |
     exists 1%nat; split; [lia | reflexivity]].
  destruct (Api.attempt (session_get (List.length (calls ++ [url])) url));
    [exists 2%nat; split; [lia | simpl; now rewrite <- app_assoc] | |
     exists 2%nat; split; [lia | simpl; now rewrite <- app_assoc]].
  exists 3%nat. split; [lia|].
  destruct (Api.attempt
              (session_get (List.length ((calls ++ [url]) ++ [url])) url));
    simpl; now rewrite <- !app_assoc.
Qed.

Lemma chunks_size_nonneg (chunks : list bytes) : 0 <= Api.chunks_size chunks.
Proof.
  induction chunks as [|c chunks IH]; simpl; [lia|].
  unfold len. lia.
Qed.

(** A body whose chunks add up to more than the limit is refused, whatever
    follows them. *)
Lemma read_body_oversized (chunks : list bytes) (rest : list Api.StreamItem) :
  forall (read : list bytes) (total_size : Z),
    total_size <= Api.MAX_IMAGE_DOWNLOAD_SIZE ->
    Api.MAX_IMAGE_DOWNLOAD_SIZE < total_size + Api.chunks_size chunks ->
    Api.read_body (map Api.Chunk chunks ++ rest) read total_size
    = Api.Return None.
Proof.
  induction chunks as [|c chunks IH]; intros read total Hle Hgt.
  - simpl in Hgt. lia.
  - simpl. simpl in Hgt.
    destruct (Z.ltb_spec Api.MAX_IMAGE_DOWNLOAD_SIZE (total + len c));
      [reflexivity|].
    apply IH; lia.
Qed.

(** An image announced or delivered with more than the limit makes
    [download_image] return [None] at once. *)
Lemma download_image_oversized (session_get : Api.Network) (url : string)
    (calls : list string) (status_code : Z) (header : Api.ContentLength)
    (chunks : list bytes) (rest : list Api.StreamItem) :
  session_get (List.length calls) url
  = Api.Response status_code header (map Api.Chunk chunks ++ rest) ->
  Api.raise_for_status status_code = false ->
  (exists n, header = Api.Declared n /\ Api.MAX_IMAGE_DOWNLOAD_SIZE < n)
  \/ (header <> Api.Malformed
      /\ Api.MAX_IMAGE_DOWNLOAD_SIZE < Api.chunks_size chunks) ->
  Api.download_image session_get url calls
  = (Api.Returned None, calls ++ [url]).
Proof.
  intros Hget Hstatus Hbig.
  unfold Api.download_image, Api.max_retries. cbn [Api.download_attempts].
  rewrite Hget. unfold Api.attempt. rewrite Hstatus.
  assert (Hbody : Api.MAX_IMAGE_DOWNLOAD_SIZE < Api.chunks_size chunks ->
                  Api.read_body (map Api.Chunk chunks ++ rest) [] 0
                  = Api.Return None).
  { intros H. apply read_body_oversized; [unfold Api.MAX_IMAGE_DOWNLOAD_SIZE|];
      lia. }
  destruct Hbig as [(n & -> & Hn) | (Hheader & Hsize)].
  - destruct (Z.ltb_spec Api.MAX_IMAGE_DOWNLOAD_SIZE n); [reflexivity | lia].
  - destruct header as [| |n]; [|congruence|].
    + now rewrite Hbody.
    + destruct (Z.ltb_spec Api.MAX_IMAGE_DOWNLOAD_SIZE n); [reflexivity|].
      now rewrite Hbody.
Qed.

Section FailureFacts.

Variable Surface : Type.
Variable world : World Surface.

Lemma fetch_calls (url : string) (calls : list string) :
  exists k : nat,
    (1 <= k <= 3)%nat /\ snd (fetch world url calls) = calls ++ repeat url k.
Proof.
  unfold fetch.
  destruct (download_image_calls (session_get world) url calls)
    as (k & Hk & Hcalls).
  exists k. split; [exact Hk|].
  destruct (Api.download_image (session_get world) url calls). exact Hcalls.
Qed.

(** A fetch that fails leaves the cache as it was and yields the
    placeholder; the network was asked. *)
Lemma load_image_failure (url : string) (st : State Surface) :
  url <> "" ->
  lookup url (image_cache st) = None ->
  fst (fetch world url (http_calls st)) = None ->
  load_image world (Some url) st
  = (placeholder_image world,
     set_http_calls st (snd (fetch world url (http_calls st)))).
Proof.
  intros Hurl Hmiss Hfail. rewrite (load_image_miss Surface world url st Hurl Hmiss).
  destruct (fetch world url (http_calls st)) as [r calls].
  simpl in Hfail. subst r. reflexivity.
Qed.

(** C6.  For an empty or missing URL [load_image] returns the placeholder
    and leaves the whole state, network log included, untouched: the network
    is not asked.  For a URL that is not cached, when the fetch fails (the
    download raises or returns nothing, as it does for an image announced or
    delivered beyond the size limit, or the bytes cannot be decoded),
    [load_image] returns the placeholder and leaves the cache as it was; the
    network was asked.  The failure is not remembered: the next call for the
    same URL asks the network again, returns the placeholder again if the
    fetch fails again, and returns the image if the fetch now succeeds. *)
Theorem load_image_failure_not_cached :
  forall st : State Surface,
    (forall url,
        url = None \/ url = Some "" ->
        load_image world url st = (placeholder_image world, st))
    /\ (forall url,
          url <> "" ->
          lookup url (image_cache st) = None ->
          fst (fetch world url (http_calls st)) = None ->
          let st1 := snd (load_image world (Some url) st) in
          fst (load_image world (Some url) st) = placeholder_image world
          /\ image_cache st1 = image_cache st
          /\ max_cache_size st1 = max_cache_size st
          /\ (exists k : nat,
                (1 <= k <= 3)%nat
                /\ http_calls st1 = http_calls st ++ repeat url k)
          /\ (exists k : nat,
                (1 <= k <= 3)%nat
                /\ http_calls (snd (load_image world (Some url) st1))
                   = http_calls st1 ++ repeat url k)
          /\ (fst (fetch world url (http_calls st1)) = None ->
              fst (load_image world (Some url) st1) = placeholder_image world
              /\ image_cache (snd (load_image world (Some url) st1))
                 = image_cache st)
          /\ (forall image,
                fst (fetch world url (http_calls st1)) = Some image ->
                len (image_cache st) <= max_cache_size st ->
                1 <= max_cache_size st ->
                fst (load_image world (Some url) st1) = image))
    /\ (forall url calls status_code header chunks rest,
          session_get world (List.length calls) url
          = Api.Response status_code header (map Api.Chunk chunks ++ rest) ->
          Api.raise_for_status status_code = false ->
          (exists n, header = Api.Declared n
                     /\ Api.MAX_IMAGE_DOWNLOAD_SIZE < n)
          \/ (header <> Api.Malformed
              /\ Api.MAX_IMAGE_DOWNLOAD_SIZE < Api.chunks_size chunks) ->
          fetch world url calls = (None, calls ++ [url])).
Proof.
  intros st. split; [|split].
  - intros url Hurl. now apply load_image_falsy.
  - intros url Hurl Hmiss Hfail st1.
    pose proof (load_image_failure url st Hurl Hmiss Hfail) as Hload.
    assert (Hst1 : st1 = set_http_calls st
                           (snd (fetch world url (http_calls st))))
      by (unfold st1; now rewrite Hload).
    assert (Hmiss1 : lookup url (image_cache st1) = None)
      by (now rewrite Hst1).
    rewrite Hload. cbn [fst].
    split; [reflexivity|]. split; [now rewrite Hst1|].
    split; [now rewrite Hst1|]. split; [|split; [|split]].
    + rewrite Hst1. apply fetch_calls.
    + rewrite (load_image_miss Surface world url st1 Hurl Hmiss1).
      destruct (fetch_calls url (http_calls st1)) as (k & Hk & Hcalls).
      exists k. split; [exact Hk|].
      destruct (fetch world url (http_calls st1)) as [[image|] calls];
        cbn [snd] in Hcalls; subst calls; [|reflexivity].
      unfold cache_and_return, _add_to_cache.
      destruct (max_cache_size (set_http_calls st1 _) <=? _);
        [destruct (image_cache (set_http_calls st1 _))|]; reflexivity.
    + intros Hfail1.
      rewrite (load_image_failure url st1 Hurl Hmiss1 Hfail1).
      split; [reflexivity | now rewrite Hst1].
    + intros image Hok Hcap Hone.
      rewrite (load_image_miss Surface world url st1 Hurl Hmiss1).
      destruct (fetch world url (http_calls st1)) as [r calls].
      cbn [fst] in Hok. subst r.
      unfold cache_and_return, _add_to_cache. rewrite Hst1. simpl.
      destruct (Z.leb_spec (max_cache_size st) (len (image_cache st)));
        [|reflexivity].
      destruct (image_cache st); [|reflexivity].
      unfold len in *. simpl in *. lia.
  - intros url calls status_code header chunks rest Hget Hstatus Hbig.
    unfold fetch.
    now rewrite (download_image_oversized (session_get world) url calls
                   status_code header chunks rest Hget Hstatus Hbig).
Qed.

End FailureFacts.

(** A poster announced with 6 MiB, asked for twice. *)
Lemma load_image_failure_not_cached_witness :
  let first := load_image oversized_world (Some "/big.jpg") (init bytes MAX_IMAGE_CACHE_SIZE) in
  let second := load_image oversized_world (Some "/big.jpg") (snd first) in
  fst first = placeholder_image oversized_world
  /\ fst second = placeholder_image oversized_world
  /\ image_cache (snd second) = [].
Proof.
  intros first second.
  destruct (load_image_failure_not_cached bytes oversized_world (init bytes MAX_IMAGE_CACHE_SIZE))
    as (_ & Hfail & _).
  destruct (Hfail "/big.jpg") as (Hfirst & _ & _ & _ & _ & Hsecond & _).
  - discriminate.
  - reflexivity.
  - reflexivity.
  - destruct Hsecond as [Hplaceholder Hcache]; [reflexivity|].
    repeat split; assumption.
Defined.

End ImageCacheFacts.

(* ===================================================================== *)
(** * Properties of entering a screen *)
(* ===================================================================== *)

Module SelectFacts.
Import UI.

Lemma select_item_enters (items : list Media) (i : Z) :
  0 <= i < len items -> exists item, py_getitem items i = Some item.
Proof.
  intros Hi. pose proof (NavigateFacts.py_getitem_in_range items i Hi) as H.
  destruct (py_getitem items i) as [item|]; [now exists item | discriminate].
Qed.

Lemma range_test (i n : Z) : 0 <= i < n -> (0 <=? i) && (i <? n) = true.
Proof.
  intros Hi. apply andb_true_intro. split;
    [apply Z.leb_le | apply Z.ltb_lt]; lia.
Qed.

(** C3 (amended).  Entering a screen pushes the current screen onto the
    back-stack and makes the target the current screen; the selection is
    left as it is.  This is what the select handlers do when they enter a
    screen: a search result or a browse entry opens the detail screen, the
    first two menu entries open the keyboard, the third the browse screen. *)
Theorem enter_screen_keeps_selection :
  forall (host : Host) (p : Process),
    (forall next, entered next (self p) (push_screen next (self p)))
    /\ (0 <= selected_index (self p) < len (search_results (self p)) ->
        exists s', handle_search_result_select (self p) = Some s'
                   /\ entered Media_detail (self p) s')
    /\ (0 <= selected_index (self p) < len (browse_results (self p)) ->
        exists s', handle_browse_select (self p) = Some s'
                   /\ entered Media_detail (self p) s')
    /\ (selected_index (self p) = 0 \/ selected_index (self p) = 1 ->
        raised (handle_main_menu_select host p) = false
        /\ entered Keyboard (self p)
             (self (final (handle_main_menu_select host p))))
    /\ (selected_index (self p) = 2 ->
        raised (handle_main_menu_select host p) = false
        /\ entered Browse (self p)
             (self (final (handle_main_menu_select host p)))).
Proof.
  intros host p. split; [|split; [|split; [|split]]].
  - intros next. apply BackStackFacts.push_screen_entered.
  - intros Hi. unfold handle_search_result_select.
    rewrite (range_test _ _ Hi).
    destruct (select_item_enters _ _ Hi) as [item ->].
    eexists. split; [reflexivity | repeat split].
  - intros Hi. unfold handle_browse_select.
    rewrite (range_test _ _ Hi).
    destruct (select_item_enters _ _ Hi) as [item ->].
    eexists. split; [reflexivity | repeat split].
  - intros Hi. unfold handle_main_menu_select, bind, get_self.
    destruct Hi as [Hi|Hi]; rewrite Hi; repeat split.
  - intros Hi. unfold handle_main_menu_select, bind, get_self.
    rewrite Hi. repeat split.
Qed.

Lemma enter_screen_keeps_selection_witness :
  exists s',
    handle_search_result_select results_state = Some s'
    /\ entered Media_detail results_state s'.
Proof.
  destruct (enter_screen_keeps_selection demo_host
              (start results_state)) as (_ & Hsearch & _).
  apply Hsearch. simpl. unfold len. simpl. lia.
Defined.

End SelectFacts.

(* ===================================================================== *)
(** * Properties of the deferred back-transition *)
(* ===================================================================== *)

Module DeferredBackFacts.
Import UI.
Import HandlerFacts.
Local Open Scope py_scope.

Lemma rescheduled_refl (host : Host) (x : option Q) : rescheduled host x x.
Proof. now left. Qed.

Lemma rescheduled_trans (host : Host) (x y z : option Q) :
  rescheduled host x y -> rescheduled host y z -> rescheduled host x z.
Proof.
  intros Hxy [-> | Hnew]; [exact Hxy | now right].
Qed.

(** The select handler of the detail screen sets the slot anew or leaves
    it. *)
Lemma detail_reschedules (host : Host) :
  Keeps (on_slot (rescheduled host)) (handle_media_detail_select host).
Proof.
  intros p. unfold on_slot, handle_media_detail_select, bind, get_self.
  destruct (selected_media (self p)) as [[|item media]|];
    try apply rescheduled_refl.
  unfold api_request_media.
  destruct (request_media host (api_requests p) _ _) as [[|]|]; cbn.
  - right. eexists. reflexivity.
  - now left.
  - now left.
Qed.

(** The cursor statements do not touch the slot. *)
Ltac cursor_statements :=
  unfold on_slot; intros;
  try match goal with
      | H : keyboard_right _ = Some _ |- _ =>
          apply slot_keyboard_right in H; cbn [view fst]; rewrite H
      end;
  try reflexivity.

(** No input clears the slot. *)
Lemma input_never_clears (host : Host) (input : Input) :
  Keeps (on_slot (rescheduled host)) (handle_input host input).
Proof.
  apply keeps_handle_input;
    try (cursor_statements; apply rescheduled_refl).
  - intros u v w. apply rescheduled_trans.
  - apply detail_reschedules.
Qed.

(** The inputs that navigate leave the slot as it is. *)
Lemma navigation_keeps_slot (host : Host) (event : Event) (p : Process) :
  is_navigation event = true ->
  slot (final (handle_event host event p)) = slot p.
Proof.
  intros Hnav.
  apply (keeps_navigation host (on_slot (fun before after => after = before)));
    try (now cursor_statements).
  unfold on_slot. intros u v w Huv Hvw. congruence.
Qed.

(** Neither does a background thread that completes. *)
Lemma thread_keeps_slot (host : Host) (i : nat) (api : Service) (p : Process) :
  slot (final (run_thread host i api p)) = slot p.
Proof.
  apply (keeps_run_thread host (on_slot (fun before after => after = before)));
    try (now cursor_statements).
  unfold on_slot. intros u v w Huv Hvw. congruence.
Qed.

(** A request that the service accepts schedules the back-transition. *)
Lemma submit_schedules (host : Host) (p : Process) (media : Media) :
  selected_media (self p) = Some media ->
  media <> [] ->
  request_media host (api_requests p)
    (dict_get media "id" VNone) (dict_get media "mediaType" (VStr "movie"))
  = Some true ->
  raised (handle_media_detail_select host p) = false
  /\ slot (final (handle_media_detail_select host p))
     = Some (clock host (S (clock_reads p)) + BACK_DELAY)%Q
  /\ message (self (final (handle_media_detail_select host p)))
     = Some "Request submitted successfully!"
  /\ message_time (self (final (handle_media_detail_select host p)))
     = (clock host (clock_reads p) + MESSAGE_DURATION)%Q
  /\ nav_of (self (final (handle_media_detail_select host p)))
     = nav_of (self p).
Proof.
  intros Hmedia Hne Haccept.
  unfold handle_media_detail_select, bind, get_self. rewrite Hmedia.
  destruct media as [|item media]; [congruence|].
  cbv zeta. unfold api_request_media. rewrite Haccept. cbn. repeat split.
Qed.

Lemma handle_back_set_slot (v : option Q) (s : JellyseerrUI) :
  handle_back (set_scheduled_back_time v s)
  = set_scheduled_back_time v (handle_back s).
Proof.
  unfold handle_back. simpl.
  destruct (pop (screen_stack s)) as [[top rest]|]; [reflexivity|].
  destruct (current_screen s); reflexivity.
Qed.

(** The check of the main loop. *)
Lemma check_due (host : Host) (p : Process) (t : Q) :
  slot p = Some t -> ~ (t == 0)%Q ->
  (t <= clock host (clock_reads p))%Q ->
  check_scheduled_back host p
  = Done tt {| self := handle_back (set_scheduled_back_time None (self p));
               threads := threads p;
               clock_reads := S (clock_reads p);
               api_requests := api_requests p |}.
Proof.
  unfold slot. intros Hslot Hnz Hdue.
  unfold check_scheduled_back, bind, get_self. rewrite Hslot.
  destruct (Qeq_bool t 0) eqn:E; [apply Qeq_bool_iff in E; contradiction|].
  unfold time_time. apply Qle_bool_iff in Hdue. rewrite Hdue. reflexivity.
Qed.

Lemma check_early (host : Host) (p : Process) (t : Q) :
  slot p = Some t ->
  ~ (t <= clock host (clock_reads p))%Q ->
  self (final (check_scheduled_back host p)) = self p
  /\ raised (check_scheduled_back host p) = false.
Proof.
  unfold slot. intros Hslot Hearly.
  unfold check_scheduled_back, bind, get_self. rewrite Hslot.
  destruct (Qeq_bool t 0); [split; reflexivity|].
  unfold time_time.
  destruct (Qle_bool t (clock host (clock_reads p))) eqn:E;
    [apply Qle_bool_iff in E; contradiction | split; reflexivity].
Qed.

Lemma check_empty (host : Host) (p : Process) :
  slot p = None -> check_scheduled_back host p = Done tt p.
Proof.
  unfold slot. intros Hslot.
  unfold check_scheduled_back, bind, get_self. now rewrite Hslot.
Qed.

(** An idle frame has no effect on [self] before the check, except that
    polling the stick may record the time in [last_nav_time]. *)
Lemma idle_input (host : Host) (p : Process) :
  exists p1,
    handle_input host idle p = Done tt p1
    /\ (self p1 = self p
        \/ exists t, self p1 = set_last_nav_time t (self p)).
Proof.
  unfold handle_input, idle, bind. simpl.
  destruct (joystick host) eqn:Hstick;
    [|eexists; split; [reflexivity | now left]].
  unfold ret, handle_analog_navigation. rewrite Hstick. simpl.
  unfold bind, can_navigate, bind, time_time, get_self. simpl.
  destruct (Qltb NAV_DELAY _); simpl.
  - destruct (current_screen (self p)); cbn;
      eexists; (split; [reflexivity | right; eexists; reflexivity]).
  - eexists; split; [reflexivity | now left].
Qed.

Lemma draw_self (host : Host) (p : Process) :
  exists p1,
    draw p = Done tt p1
    /\ nav_of (self p1) = nav_of (self p)
    /\ slot p1 = slot p.
Proof.
  unfold draw, bind, get_self.
  destruct (current_screen (self p)); eexists; repeat split.
Qed.

Lemma nav_of_handle_back (s s' : JellyseerrUI) :
  nav_of s = nav_of s' -> nav_of (handle_back s) = nav_of (handle_back s').
Proof.
  unfold nav_of. intros H.
  assert (Hc : current_screen s = current_screen s') by congruence.
  assert (Hs : screen_stack s = screen_stack s') by congruence.
  assert (Hi : selected_index s = selected_index s') by congruence.
  unfold handle_back. rewrite Hs, Hc.
  destruct (pop (screen_stack s')) as [[top rest]|]; [reflexivity|].
  destruct (current_screen s') eqn:E; simpl; congruence.
Qed.

(** An idle frame in which the deadline has passed fires the
    back-transition and empties the slot. *)
Lemma idle_frame_fires (host : Host) (p : Process) (t : Q) :
  slot p = Some t -> ~ (t == 0)%Q ->
  (t <= clock host (clock_reads (final (handle_input host idle p))))%Q ->
  raised (run_iteration host idle p) = false
  /\ nav_of (self (final (run_iteration host idle p)))
     = nav_of (handle_back (self p))
  /\ slot (final (run_iteration host idle p)) = None.
Proof.
  intros Hslot Hnz Hdue.
  destruct (idle_input host p) as (p1 & Hin & Hself).
  rewrite Hin in Hdue. simpl in Hdue.
  assert (Hslot1 : slot p1 = Some t).
  { unfold slot in *. destruct Hself as [-> | [t' ->]]; exact Hslot. }
  assert (Hnav1 : nav_of (self p1) = nav_of (self p)).
  { destruct Hself as [-> | [t' ->]]; reflexivity. }
  unfold run_iteration, bind. rewrite Hin.
  rewrite (check_due host p1 t Hslot1 Hnz Hdue).
  match goal with
  | |- context [draw ?q] =>
      destruct (draw_self host q) as (p3 & -> & Hnav3 & Hslot3)
  end.
  simpl in *. split; [reflexivity|]. split.
  - rewrite Hnav3, handle_back_set_slot.
    change (nav_of (set_scheduled_back_time None (handle_back (self p1))))
      with (nav_of (handle_back (self p1))).
    now apply nav_of_handle_back.
  - rewrite Hslot3. unfold slot. simpl.
    now rewrite handle_back_set_slot.
Qed.

(** An idle frame with an empty slot changes nothing of the navigation. *)
Lemma idle_frame_quiet (host : Host) (p : Process) :
  slot p = None ->
  raised (run_iteration host idle p) = false
  /\ nav_of (self (final (run_iteration host idle p))) = nav_of (self p)
  /\ slot (final (run_iteration host idle p)) = None.
Proof.
  intros Hslot.
  destruct (idle_input host p) as (p1 & Hin & Hself).
  assert (Hslot1 : slot p1 = None).
  { unfold slot in *. destruct Hself as [-> | [t' ->]]; exact Hslot. }
  assert (Hnav1 : nav_of (self p1) = nav_of (self p)).
  { destruct Hself as [-> | [t' ->]]; reflexivity. }
  unfold run_iteration, bind. rewrite Hin.
  rewrite (check_empty host p1 Hslot1).
  destruct (draw_self host p1) as (p3 & -> & Hnav3 & Hslot3).
  simpl. split; [reflexivity|]. split; congruence.
Qed.

(** A slot set from a reading of a clock that is not negative is true as a
    Python value: it is not [0.0]. *)
Lemma scheduled_time_true (now : Q) :
  (0 <= now)%Q -> ~ (now + BACK_DELAY == 0)%Q.
Proof. unfold BACK_DELAY. intros Hnow Hzero. lra. Qed.

(** C9.  The deferred back-transition is one optional timestamp,
    [scheduled_back_time], so at most one is pending.  A request that the
    service accepts sets it to 1.5 seconds after the reading of the clock,
    whatever it held before, and shows the success message; the navigation
    is untouched, and the timestamp is not [0.0] (which Python takes for
    false) when the clock is not negative.  An input that navigates leaves
    the slot as it is, no input of a frame clears it, and a background
    thread that completes leaves it as well.  The check of the main loop,
    once the clock has reached the timestamp, empties the slot and runs
    [handle_back]; before that it does nothing, and on an empty slot it does
    nothing.  So an idle frame after the deadline goes back once, and the
    idle frame that follows does not go back again. *)
Theorem deferred_back_fires_once :
  forall (host : Host) (p : Process),
    (forall media,
        selected_media (self p) = Some media ->
        media <> [] ->
        request_media host (api_requests p)
          (dict_get media "id" VNone)
          (dict_get media "mediaType" (VStr "movie")) = Some true ->
        raised (handle_media_detail_select host p) = false
        /\ slot (final (handle_media_detail_select host p))
           = Some (clock host (S (clock_reads p)) + BACK_DELAY)%Q
        /\ message (self (final (handle_media_detail_select host p)))
           = Some "Request submitted successfully!"
        /\ message_time (self (final (handle_media_detail_select host p)))
           = (clock host (clock_reads p) + MESSAGE_DURATION)%Q
        /\ nav_of (self (final (handle_media_detail_select host p)))
           = nav_of (self p)
        /\ ((0 <= clock host (S (clock_reads p)))%Q ->
            ~ (clock host (S (clock_reads p)) + BACK_DELAY == 0)%Q))
    /\ (forall event,
          is_navigation event = true ->
          slot (final (handle_event host event p)) = slot p)
    /\ (forall input,
          rescheduled host (slot p) (slot (final (handle_input host input p))))
    /\ (forall i api, slot (final (run_thread host i api p)) = slot p)
    /\ (forall t,
          slot p = Some t ->
          ((t <= clock host (clock_reads p))%Q -> ~ (t == 0)%Q ->
           check_scheduled_back host p
           = Done tt {| self := handle_back
                                  (set_scheduled_back_time None (self p));
                        threads := threads p;
                        clock_reads := S (clock_reads p);
                        api_requests := api_requests p |})
          /\ (~ (t <= clock host (clock_reads p))%Q ->
              self (final (check_scheduled_back host p)) = self p))
    /\ (slot p = None -> check_scheduled_back host p = Done tt p)
    /\ (forall t,
          slot p = Some t -> ~ (t == 0)%Q ->
          (t <= clock host
                  (clock_reads (final (handle_input host idle p))))%Q ->
          let p1 := final (run_iteration host idle p) in
          let p2 := final (run_iteration host idle p1) in
          nav_of (self p1) = nav_of (handle_back (self p))
          /\ slot p1 = None
          /\ nav_of (self p2) = nav_of (self p1)
          /\ slot p2 = None).
Proof.
  intros host p. repeat apply conj.
  - intros media Hmedia Hne Haccept.
    destruct (submit_schedules host p media Hmedia Hne Haccept)
      as (H1 & H2 & H3 & H4 & H5).
    repeat split; try assumption. apply scheduled_time_true.
  - intros event. apply navigation_keeps_slot.
  - intros input. apply (input_never_clears host input p).
  - intros i api. apply thread_keeps_slot.
  - intros t Hslot. split.
    + intros Hdue Hnz. now apply (check_due host p t).
    + intros Hearly. now apply (check_early host p t).
  - apply check_empty.
  - intros t Hslot Hnz Hdue p1 p2.
    destruct (idle_frame_fires host p t Hslot Hnz Hdue) as (_ & Hnav1 & Hslot1).
    destruct (idle_frame_quiet host p1 Hslot1) as (_ & Hnav2 & Hslot2).
    repeat split; assumption.
Qed.

Lemma deferred_back_fires_once_witness :
  slot (final (handle_media_detail_select demo_host (start detail_state)))
  = Some ((1 # 4) + BACK_DELAY)%Q.
Proof.
  destruct (deferred_back_fires_once demo_host (start detail_state))
    as (Hsubmit & _).
  destruct (Hsubmit [("id", VInt 603); ("mediaType", VStr "movie")])
    as (_ & Hslot & _).
  - reflexivity.
  - discriminate.
  - reflexivity.
  - exact Hslot.
Defined.

(** The scenario of the request under the demo clock.  Button A on the
    detail screen schedules the transition for 0.25 + 1.5 seconds; the check
    of that frame and of the frame with a hat motion that follows come too
    early and leave the slot; the third idle frame after that reads 1.75
    seconds and goes back; the frame after it does not go back again. *)
Example request_then_back :
  let p1 := final (run demo_host
                     [Frame {| events := [JOYBUTTONDOWN 0];
                               axes := (0%Q, 0%Q) |}]
                     (start detail_state)) in
  let p2 := final (run demo_host
                     [Frame {| events := [JOYHATMOTION (0, -1)];
                               axes := (0%Q, 0%Q) |}] p1) in
  let p3 := final (run demo_host [Frame idle; Frame idle] p2) in
  let p4 := final (run demo_host [Frame idle] p3) in
  let p5 := final (run demo_host [Frame idle] p4) in
  (slot p1, current_screen (self p1))
  = (Some ((1 # 4) + BACK_DELAY)%Q, Media_detail)
  /\ (slot p2, current_screen (self p2)) = (slot p1, Media_detail)
  /\ (slot p3, current_screen (self p3)) = (slot p1, Media_detail)
  /\ (slot p4, current_screen (self p4), screen_stack (self p4))
     = (None, Search_results, [Main_menu])
  /\ (slot p5, current_screen (self p5), screen_stack (self p5))
     = (None, Search_results, [Main_menu]).
Proof. vm_compute. repeat split. Qed.

End DeferredBackFacts.

(* ===================================================================== *)
(** * Properties of the background search *)
(* ===================================================================== *)

Module SearchFacts.
Import UI.

(** [perform_search] starts a thread and keeps no record of it on [self]:
    the threads started before stay in the pool. *)
Lemma perform_search_starts (host : Host) (query : string) (p : Process) :
  raised (perform_search host query p) = false
  /\ threads (final (perform_search host query p))
     = threads p ++ [PerformSearch query]
  /\ search_results (self (final (perform_search host query p)))
     = search_results (self p)
  /\ nav_of (self (final (perform_search host query p))) = nav_of (self p).
Proof. repeat split. Qed.

(** A search thread that completes with results applies them. *)
Lemma search_thread_applies (host : Host) (i : nat) (api : Service)
    (query : string) (results : list Media) (p : Process) :
  nth_error (threads p) i = Some (PerformSearch query) ->
  search_answer api (self p) query = Answer (Some results) ->
  results <> [] ->
  run_thread host i api p
  = Done tt {| self := set_message None
                         (set_selected_index 0
                            (set_current_screen Search_results
                               (set_search_results results (self p))));
               threads := without i (threads p);
               clock_reads := clock_reads p;
               api_requests := api_requests p |}.
Proof.
  intros Hthread Hanswer Hresults.
  unfold run_thread. rewrite Hthread.
  unfold search_in_background, bind, get_self. cbn [self].
  rewrite Hanswer. destruct results as [|item results]; [congruence|].
  reflexivity.
Qed.

(** C2 (amended).  The search keeps no request identifier.  Every search
    thread that completes with a non-empty result applies it: the results
    become the search results, the results screen becomes the current
    screen, the selection is 0 and the message is cleared, whatever was
    dispatched before or after.  Of two searches in flight, the one whose
    thread completes last determines the results shown, in either order of
    completion. *)
Theorem last_search_completion_wins :
  forall (host : Host) (p : Process),
    (forall query,
        threads (final (perform_search host query p))
        = threads p ++ [PerformSearch query]
        /\ search_results (self (final (perform_search host query p)))
           = search_results (self p))
    /\ (forall i api query results,
          nth_error (threads p) i = Some (PerformSearch query) ->
          search_answer api (self p) query = Answer (Some results) ->
          results <> [] ->
          let p' := final (run_thread host i api p) in
          search_results (self p') = results
          /\ current_screen (self p') = Search_results
          /\ selected_index (self p') = 0
          /\ message (self p') = None
          /\ threads p' = without i (threads p))
    /\ (forall first second api1 api2 results1 results2,
          threads p = [PerformSearch first; PerformSearch second] ->
          search_answer api1 (self p) first = Answer (Some results1) ->
          search_answer api2 (self p) second = Answer (Some results2) ->
          results1 <> [] -> results2 <> [] ->
          search_results
            (self (final (run host [ThreadDone 1 api2; ThreadDone 0 api1] p)))
          = results1
          /\ search_results
               (self (final (run host [ThreadDone 0 api1; ThreadDone 0 api2]
                               p)))
             = results2).
Proof.
  intros host p. repeat apply conj.
  - intros query. split; reflexivity.
  - intros i api query results Hthread Hanswer Hresults p'.
    unfold p'. rewrite (search_thread_applies host i api query results p)
      by assumption.
    repeat split.
  - intros first second api1 api2 results1 results2 Hpool H1 H2 Hne1 Hne2.
    split.
    + cbn [run]. unfold bind at 1.
      rewrite (search_thread_applies host 1 api2 second results2 p);
        [|now rewrite Hpool|assumption|assumption].
      unfold bind at 1.
      rewrite (search_thread_applies host 0 api1 first results1);
        [reflexivity| cbn; now rewrite Hpool | exact H1 | assumption].
    + cbn [run]. unfold bind at 1.
      rewrite (search_thread_applies host 0 api1 first results1 p);
        [|now rewrite Hpool|assumption|assumption].
      unfold bind at 1.
      rewrite (search_thread_applies host 0 api2 second results2);
        [reflexivity| cbn; now rewrite Hpool | exact H2 | assumption].
Qed.

Lemma last_search_completion_wins_witness :
  search_results
    (self (final (run_thread demo_host 0 demo_service two_dispatched)))
  = [[("id", VInt 1); ("mediaType", VStr "movie"); ("title", VStr "ma")]].
Proof.
  destruct (last_search_completion_wins demo_host two_dispatched)
    as (_ & Hdone & _).
  destruct (Hdone 0%nat demo_service "ma"
              [[("id", VInt 1); ("mediaType", VStr "movie");
                ("title", VStr "ma")]]) as (Hresults & _).
  - vm_compute. reflexivity.
  - vm_compute. reflexivity.
  - discriminate.
  - exact Hresults.
Defined.

(** C2 as stated fails: the result of the first search arrives after the
    result of the second one and replaces it, although ["mat"] is the search
    dispatched last. *)
Lemma stale_search_overwrites :
  let second_done := final (run demo_host [ThreadDone 1 demo_service]
                              two_dispatched) in
  let first_done := final (run demo_host [ThreadDone 0 demo_service]
                             second_done) in
  threads two_dispatched = [PerformSearch "ma"; PerformSearch "mat"]
  /\ search_query (self two_dispatched) = "mat"
  /\ search_results (self second_done)
     = [[("id", VInt 1); ("mediaType", VStr "movie"); ("title", VStr "mat")]]
  /\ search_results (self first_done)
     = [[("id", VInt 1); ("mediaType", VStr "movie"); ("title", VStr "ma")]]
  /\ search_results (self first_done) <> search_results (self second_done)
  /\ first_done = final (run demo_host two_searches (start typing_state)).
Proof. vm_compute. repeat split. discriminate. Qed.

End SearchFacts.

(* ===================================================================== *)
(** * Properties of drawing *)
(* ===================================================================== *)

Module DrawFacts.
Import Draw.

Lemma In_range (start stop i : Z) :
  In i (range start stop) <-> start <= i < stop.
Proof.
  unfold range. rewrite in_map_iff. split.
  - intros (k & <- & Hk). apply in_seq in Hk. lia.
  - intros Hi. exists (Z.to_nat (i - start)). split; [lia|].
    apply in_seq. lia.
Qed.

Lemma length_range (start stop : Z) :
  List.length (range start stop) = Z.to_nat (stop - start).
Proof. unfold range. now rewrite length_map, length_seq. Qed.

(** X1.  The list loop of [draw_search_results] and [draw_browse] visits at
    most ten indices, each of them a valid subscript of the list that is
    drawn in one of the rows 0 to 9, whatever the selection is; and when the
    selection is an index of the list, the selected entry is among them. *)
Theorem list_window_shows_selection :
  forall (A : Type) (results : list A) (selected_index : Z),
    (forall i, In i (visible_rows selected_index results) ->
        0 <= i < len results
        /\ 0 <= i - scroll_offset selected_index < visible_items
        /\ UI.defined (py_getitem results i) = true)
    /\ (List.length (visible_rows selected_index results) <= 10)%nat
    /\ (0 <= selected_index < len results ->
        In selected_index (visible_rows selected_index results)).
Proof.
  intros A results idx. unfold visible_rows, scroll_offset, visible_items.
  change (10 / 2) with 5. split; [|split].
  - intros i Hi. apply In_range in Hi.
    split; [lia|]. split; [lia|].
    apply NavigateFacts.py_getitem_in_range. lia.
  - rewrite length_range. lia.
  - intros Hidx. apply In_range. lia.
Qed.

Lemma list_window_shows_selection_witness :
  In 12 (visible_rows 12 (repeat tt 20)).
Proof.
  destruct (list_window_shows_selection unit (repeat tt 20) 12)
    as (_ & _ & Hshown).
  apply Hshown. unfold len. simpl. lia.
Defined.

Lemma length_append (a b : string) :
  String.length (String.append a b) = (String.length a + String.length b)%nat.
Proof. induction a as [|c a IH]; simpl; [reflexivity | now rewrite IH]. Qed.

Lemma length_prefix (n : nat) :
  forall s : string,
    String.length (substring 0 n s) = Nat.min n (String.length s).
Proof.
  induction n as [|n IH]; intros [|c s]; simpl; try reflexivity.
  now rewrite IH.
Qed.

(** X2.  A title is shown with at most [max_chars = 40] characters: one of
    that length or shorter is left as it is, a longer one becomes its first
    37 characters followed by three dots, 40 characters in all. *)
Theorem truncate_bounds_title :
  forall title_text : string,
    (String.length (truncate title_text) <= 40)%nat
    /\ ((String.length title_text <= 40)%nat ->
        truncate title_text = title_text)
    /\ ((40 < String.length title_text)%nat ->
        truncate title_text
        = String.append (substring 0 37 title_text) "..."
        /\ String.length (truncate title_text) = 40%nat).
Proof.
  intros t. unfold truncate, max_chars.
  destruct (Nat.ltb_spec 40 (String.length t)) as [Hlong|Hshort].
  - change (40 - 3)%nat with 37%nat.
    assert (Hlen : String.length (String.append (substring 0 37 t) "...")
                   = 40%nat).
    { rewrite length_append, length_prefix.
      change (String.length "...") with 3%nat. lia. }
    split; [lia|]. split; [lia|]. intros _. split; [reflexivity | exact Hlen].
  - split; [lia|]. split; [reflexivity | lia].
Qed.

Lemma truncate_bounds_title_witness :
  truncate "The Lord of the Rings: The Fellowship of the Ring"
  = "The Lord of the Rings: The Fellowship..."
  /\ truncate "Heat" = "Heat".
Proof.
  destruct (truncate_bounds_title
              "The Lord of the Rings: The Fellowship of the Ring")
    as (_ & _ & Hlong).
  destruct (truncate_bounds_title "Heat") as (_ & Hshort & _).
  split.
  - destruct Hlong as [Heq _]; [simpl; lia|]. rewrite Heq. reflexivity.
  - apply Hshort. simpl. lia.
Defined.

(* ------------------------------------------------------------------- *)
(** ** Splitting and joining *)

Lemma split_not_nil (text : string) : split text <> [].
Proof.
  destruct text as [|c rest]; simpl; [discriminate|].
  destruct (Ascii.eqb c " "); [discriminate|].
  destruct (split rest); discriminate.
Qed.

Lemma split_no_space (text : string) :
  Forall (fun word => has_space word = false) (split text).
Proof.
  induction text as [|c rest IH]; simpl.
  - repeat constructor.
  - destruct (Ascii.eqb c " ") eqn:Hc.
    + constructor; [reflexivity | exact IH].
    + destruct (split rest) as [|word words].
      * repeat constructor. simpl. now rewrite Hc.
      * inversion IH; subst. constructor; [|assumption].
        simpl. now rewrite Hc.
Qed.

Lemma join_cons (word : string) (words : list string) :
  words <> [] ->
  join (word :: words) = String.append word (String " " (join words)).
Proof. destruct words; [congruence | reflexivity]. Qed.

Lemma split_append_word (word rest : string) :
  has_space word = false ->
  split (String.append word (String " " rest)) = word :: split rest.
Proof.
  induction word as [|c word IH]; simpl.
  - reflexivity.
  - destruct (Ascii.eqb c " "); [discriminate|]. simpl.
    intros Hword. now rewrite IH.
Qed.

Lemma split_word (word : string) :
  has_space word = false -> split word = [word].
Proof.
  induction word as [|c word IH]; simpl; [reflexivity|].
  destruct (Ascii.eqb c " "); [discriminate|]. simpl.
  intros Hword. now rewrite IH.
Qed.

(** Splitting the join of words that hold no space gives the words back. *)
Lemma split_join (words : list string) :
  words <> [] ->
  Forall (fun word => has_space word = false) words ->
  split (join words) = words.
Proof.
  induction words as [|word words IH]; [congruence|].
  intros _ Hwords. inversion Hwords as [|? ? Hword Hrest]; subst.
  destruct words as [|next words].
  - now apply split_word.
  - rewrite join_cons by discriminate.
    rewrite split_append_word by assumption.
    f_equal. apply IH; [discriminate | assumption].
Qed.

(** Joining the pieces of a text gives the text back. *)
Lemma join_split (text : string) : join (split text) = text.
Proof.
  induction text as [|c rest IH]; [reflexivity|]. simpl.
  pose proof (split_not_nil rest) as Hne.
  destruct (Ascii.eqb_spec c " ") as [->|Hc].
  - rewrite join_cons by assumption. simpl. now rewrite IH.
  - destruct (split rest) as [|word words]; [congruence|].
    destruct words as [|next words].
    + simpl in *. now rewrite IH.
    + change (join (String c word :: next :: words))
        with (String c (join (word :: next :: words))).
      now rewrite IH.
Qed.

(* ------------------------------------------------------------------- *)
(** ** Word wrapping *)

Section WrapFacts.

Variable width : string -> Z.
Variable max_width : Z.

Local Abbreviation no_space := (fun word : string => has_space word = false).

Lemma removelast_snoc {A} (l : list A) (x : A) : removelast (l ++ [x]) = l.
Proof. rewrite removelast_app by discriminate. simpl. apply app_nil_r. Qed.

(** The words of the lines and of the line in progress are the words read
    so far. *)
Lemma wrap_word_words (lines current : list string) (word : string) :
  Forall no_space current ->
  no_space word ->
  let state := wrap_word width max_width (lines, current) word in
  flat_map split (fst state) ++ snd state
  = (flat_map split lines ++ current) ++ [word]
  /\ Forall no_space (snd state).
Proof.
  intros Hcurrent Hword. unfold wrap_word.
  destruct (max_width <? width (join (current ++ [word]))).
  - destruct (1 <? len (current ++ [word])) eqn:Hlen; cbn [fst snd].
    + rewrite removelast_snoc, flat_map_app. cbn [flat_map].
      rewrite app_nil_r, split_join; [| |assumption].
      * split; [reflexivity | now constructor].
      * intros ->. unfold len in Hlen. simpl in Hlen. discriminate.
    + assert (current = []) as ->.
      { destruct current as [|w ws]; [reflexivity|]. exfalso.
        apply Z.ltb_ge in Hlen. unfold len in Hlen.
        rewrite length_app in Hlen. simpl in Hlen. lia. }
      rewrite flat_map_app. cbn [flat_map].
      rewrite (split_word word Hword). simpl.
      rewrite !app_nil_r. split; [reflexivity | constructor].
  - cbn [fst snd]. split; [now rewrite app_assoc|].
    apply Forall_app. split; [assumption | now constructor].
Qed.

Lemma wrap_fold_words (words : list string) :
  forall lines current : list string,
    Forall no_space current ->
    Forall no_space words ->
    let state := fold_left (wrap_word width max_width) words (lines, current) in
    flat_map split (fst state) ++ snd state
    = (flat_map split lines ++ current) ++ words
    /\ Forall no_space (snd state).
Proof.
  induction words as [|word words IH]; intros lines current Hcurrent Hwords.
  - simpl. rewrite app_nil_r. split; [reflexivity | assumption].
  - inversion Hwords as [|? ? Hword Hrest]; subst. cbn [fold_left].
    destruct (wrap_word_words lines current word Hcurrent Hword) as [Hstep Hns].
    destruct (wrap_word width max_width (lines, current) word)
      as [lines1 current1].
    cbn [fst snd] in Hstep, Hns.
    destruct (IH lines1 current1 Hns Hrest) as [Hfold Hns'].
    split; [|exact Hns'].
    rewrite Hfold, Hstep, <- app_assoc. reflexivity.
Qed.

(** X3.  Word wrapping loses no word and keeps the order: the words of the
    lines of [draw_wrapped_text], read line after line, are the words of the
    text, so that joining them with spaces gives the text back; the words of
    the eight lines that are drawn are the first words of the text. *)
Theorem wrap_keeps_words :
  forall text : string,
    flat_map split (wrap width max_width text) = split text
    /\ join (flat_map split (wrap width max_width text)) = text
    /\ (exists rest,
          split text
          = flat_map split (drawn width max_width text) ++ rest).
Proof.
  intros text.
  assert (Hwords : flat_map split (wrap width max_width text) = split text).
  { unfold wrap.
    destruct (wrap_fold_words (split text) [] [] (Forall_nil _)
                (split_no_space text)) as [Hfold Hns].
    destruct (fold_left (wrap_word width max_width) (split text) ([], []))
      as [lines current].
    cbn [fst snd] in Hfold, Hns. simpl in Hfold.
    destruct current as [|word current].
    - now rewrite app_nil_r in Hfold.
    - rewrite flat_map_app. cbn [flat_map].
      rewrite app_nil_r, split_join; [exact Hfold | discriminate | exact Hns]. }
  split; [exact Hwords|]. split.
  - rewrite Hwords. apply join_split.
  - exists (flat_map split (skipn 8 (wrap width max_width text))).
    unfold drawn. rewrite <- flat_map_app, firstn_skipn. now rewrite Hwords.
Qed.

Lemma line_ok_join (current : list string) :
  Forall no_space current -> current_ok width max_width current -> line_ok width max_width (join current).
Proof.
  intros Hns [Hone|Hfit] Hspace; [|exact Hfit].
  destruct current as [|word [|next current]]; simpl in *; try discriminate.
  - inversion Hns; subst. congruence.
  - lia.
Qed.

Lemma wrap_word_fits (lines current : list string) (word : string) :
  Forall (line_ok width max_width) lines ->
  Forall no_space current ->
  current_ok width max_width current ->
  no_space word ->
  let state := wrap_word width max_width (lines, current) word in
  Forall (line_ok width max_width) (fst state)
  /\ Forall no_space (snd state)
  /\ current_ok width max_width (snd state).
Proof.
  intros Hlines Hns Hcurrent Hword. unfold wrap_word.
  destruct (Z.ltb_spec max_width (width (join (current ++ [word])))).
  - destruct (1 <? len (current ++ [word])); cbn [fst snd].
    + rewrite removelast_snoc. repeat split.
      * apply Forall_app. split; [assumption|].
        constructor; [now apply line_ok_join | constructor].
      * now constructor.
      * left. simpl. lia.
    + repeat split.
      * apply Forall_app. split; [assumption|].
        constructor; [|constructor]. intros Hspace. congruence.
      * constructor.
      * left. simpl. lia.
  - cbn [fst snd]. repeat split.
    + assumption.
    + apply Forall_app. split; [assumption | now constructor].
    + now right.
Qed.

Lemma wrap_fold_fits (words : list string) :
  forall lines current : list string,
    Forall (line_ok width max_width) lines ->
    Forall no_space current ->
    current_ok width max_width current ->
    Forall no_space words ->
    let state := fold_left (wrap_word width max_width) words (lines, current) in
    Forall (line_ok width max_width) (fst state)
    /\ Forall no_space (snd state)
    /\ current_ok width max_width (snd state).
Proof.
  induction words as [|word words IH];
    intros lines current Hlines Hns Hcurrent Hwords.
  - simpl. auto.
  - inversion Hwords as [|? ? Hword Hrest]; subst. cbn [fold_left].
    destruct (wrap_word_fits lines current word Hlines Hns Hcurrent Hword)
      as (H1 & H2 & H3).
    destruct (wrap_word width max_width (lines, current) word)
      as [lines1 current1].
    now apply IH.
Qed.

(** X4.  Every line of [draw_wrapped_text] that holds more than one word
    (that is, holds a space) is at most [max_width] wide: only a single word
    can stick out.  This holds for the lines that are drawn as well. *)
Theorem wrap_lines_fit :
  forall (text line : string),
    (In line (wrap width max_width text) ->
     has_space line = true -> width line <= max_width)
    /\ (In line (drawn width max_width text) ->
        has_space line = true -> width line <= max_width).
Proof.
  intros text line.
  assert (Hall : Forall (line_ok width max_width) (wrap width max_width text)).
  { unfold wrap.
    destruct (wrap_fold_fits (split text) [] [] (Forall_nil _) (Forall_nil _)
                (or_introl (Nat.le_0_l 1)) (split_no_space text))
      as (Hlines & Hns & Hcurrent).
    destruct (fold_left (wrap_word width max_width) (split text) ([], []))
      as [lines current].
    cbn [fst snd] in *.
    destruct current as [|word current]; [assumption|].
    apply Forall_app. split; [assumption|].
    constructor; [now apply line_ok_join | constructor]. }
  rewrite Forall_forall in Hall. split.
  - intros Hin. now apply Hall.
  - intros Hin. apply Hall. unfold drawn in Hin.
    rewrite <- (firstn_skipn 8 (wrap width max_width text)).
    apply in_or_app. now left.
Qed.

End WrapFacts.

Lemma wrap_lines_fit_witness :
  wrap demo_width 100 "a tale of two cities" = ["a tale of"; "two cities"]
  /\ demo_width "two cities" <= 100.
Proof.
  split; [reflexivity|].
  destruct (wrap_lines_fit demo_width 100 "a tale of two cities" "two cities")
    as [Hfit _].
  apply Hfit; [|reflexivity]. simpl. auto.
Defined.

End DrawFacts.

(* ===================================================================== *)
(** * More properties of navigation and typing *)
(* ===================================================================== *)

Module UIMoreFacts.
Import UI.
Import UIMore.
Local Open Scope py_scope.

(** X5.  On a non-empty list with the selection in range, "up" and "down"
    undo each other: [navigate(-1)] followed by [navigate(1)] gives the
    state back, and so does [navigate(1)] followed by [navigate(-1)]. *)
Theorem navigate_up_down_inverse :
  forall (s : JellyseerrUI) (N : Z),
    active_length s = Some N ->
    0 < N ->
    0 <= selected_index s < N ->
    navigate 1 (navigate (-1) s) = s /\ navigate (-1) (navigate 1 s) = s.
Proof.
  intros s N HN Hpos Hidx.
  assert (Hstep : forall d e, d + e = 0 -> -1 <= d <= 1 -> -1 <= e <= 1 ->
                              navigate e (navigate d s) = s).
  { intros d e Hde Hd He.
    rewrite (NavigateFacts.navigate_mod d N s) by assumption.
    rewrite (NavigateFacts.navigate_mod e N).
    - simpl selected_index.
      rewrite NavigateFacts.set_selected_index_twice.
      replace (clamp d) with d by (unfold clamp; lia).
      replace (clamp e) with e by (unfold clamp; lia).
      rewrite Zplus_mod_idemp_l.
      replace (selected_index s + d + e) with (selected_index s) by lia.
      rewrite Z.mod_small by lia.
      apply NavigateFacts.set_selected_index_same.
    - exact HN.
    - exact Hpos.
    - simpl. apply Z.mod_pos_bound. lia. }
  split; apply Hstep; lia.
Qed.

Lemma navigate_up_down_inverse_witness :
  navigate 1 (navigate (-1) menu_state) = menu_state.
Proof.
  destruct (navigate_up_down_inverse menu_state 4) as [Hup _].
  - reflexivity.
  - lia.
  - simpl. lia.
  - exact Hup.
Defined.

(* ------------------------------------------------------------------- *)
(** ** The rate limit of navigation *)

Lemma Qltb_lt (x y : Q) : Qltb x y = true <-> (x < y)%Q.
Proof.
  unfold Qltb. rewrite Bool.negb_true_iff. split.
  - intros H. apply Qnot_le_lt. intros Hle.
    apply Qle_bool_iff in Hle. congruence.
  - intros H. destruct (Qle_bool y x) eqn:E; [|reflexivity].
    apply Qle_bool_iff in E. apply Qlt_not_le in H. contradiction.
Qed.

(** [can_navigate] in one step. *)
Lemma can_navigate_step (host : Host) (p : Process) :
  let now := clock host (clock_reads p) in
  let ok := Qltb NAV_DELAY (now - last_nav_time (self p))%Q in
  can_navigate host p
  = Done ok {| self := if ok then set_last_nav_time now (self p) else self p;
               threads := threads p;
               clock_reads := S (clock_reads p);
               api_requests := api_requests p |}.
Proof.
  unfold can_navigate, bind, time_time, get_self. cbn [self].
  destruct (Qltb NAV_DELAY _); reflexivity.
Qed.

Lemma polls_spaced (host : Host) (n : nat) :
  forall p : Process,
  exists answers p',
    polls host n p = Done answers p'
    /\ List.length answers = n
    /\ (forall j, (j < n)%nat -> nth j answers false = true ->
          (last_nav_time (self p) + NAV_DELAY
           < clock host (clock_reads p + j))%Q)
    /\ (forall i j, (i < j < n)%nat ->
          nth i answers false = true -> nth j answers false = true ->
          (clock host (clock_reads p + i) + NAV_DELAY
           < clock host (clock_reads p + j))%Q).
Proof.
  induction n as [|n IH]; intros p.
  - exists [], p. repeat split; intros; lia.
  - cbn [polls]. unfold bind at 1. rewrite can_navigate_step.
    set (now := clock host (clock_reads p)).
    set (ok := Qltb NAV_DELAY (now - last_nav_time (self p))%Q).
    set (p1 := {| self := if ok then set_last_nav_time now (self p)
                          else self p;
                  threads := threads p;
                  clock_reads := S (clock_reads p);
                  api_requests := api_requests p |}).
    destruct (IH p1) as (answers & p' & Hrun & Hlen & Hfirst & Hpair).
    unfold bind. rewrite Hrun. exists (ok :: answers), p'.
    assert (Hshift : forall j, (clock_reads p1 + j = clock_reads p + S j)%nat)
      by (intros j; simpl; lia).
    assert (Hlast : ok = true ->
                    (last_nav_time (self p) + NAV_DELAY < now)%Q).
    { intros Hok. unfold ok in Hok. apply Qltb_lt in Hok. lra. }
    assert (Hdelay : (0 < NAV_DELAY)%Q) by reflexivity.
    split; [reflexivity|]. split; [simpl; now rewrite Hlen|]. split.
    + intros [|j] Hj Hnth.
      * rewrite Nat.add_0_r. apply Hlast. exact Hnth.
      * simpl in Hnth. specialize (Hfirst j (proj2 (Nat.succ_lt_mono _ _) Hj) Hnth).
        rewrite Hshift in Hfirst. unfold p1 in Hfirst. simpl in Hfirst.
        destruct ok eqn:Hok; simpl in Hfirst; [|exact Hfirst].
        specialize (Hlast eq_refl). lra.
    + intros [|i] [|j] [Hij Hj] Hi Hnth; try lia.
      * simpl in Hi, Hnth.
        specialize (Hfirst j (proj2 (Nat.succ_lt_mono _ _) Hj) Hnth).
        rewrite Hshift in Hfirst. unfold p1 in Hfirst. simpl in Hfirst.
        rewrite Hi in Hfirst. simpl in Hfirst.
        rewrite Nat.add_0_r. exact Hfirst.
      * simpl in Hi, Hnth.
        assert (Hij' : (i < j < n)%nat) by lia.
        specialize (Hpair i j Hij' Hi Hnth).
        now rewrite !Hshift in Hpair.
Qed.

(** X6.  Navigation is rate limited: of any number of calls of
    [can_navigate] in a row, two that answer [True] read the clock more than
    [NAV_DELAY] (0.15 seconds) apart, and the first of them more than
    [NAV_DELAY] after the time recorded before.  The calls always return. *)
Theorem navigation_inputs_spaced :
  forall (host : Host) (n : nat) (p : Process),
  exists answers p',
    polls host n p = Done answers p'
    /\ List.length answers = n
    /\ (forall j, (j < n)%nat -> nth j answers false = true ->
          (NAV_DELAY
           < clock host (clock_reads p + j) - last_nav_time (self p))%Q)
    /\ (forall i j, (i < j < n)%nat ->
          nth i answers false = true -> nth j answers false = true ->
          (NAV_DELAY
           < clock host (clock_reads p + j)
             - clock host (clock_reads p + i))%Q).
Proof.
  intros host n p.
  destruct (polls_spaced host n p)
    as (answers & p' & Hrun & Hlen & Hfirst & Hpair).
  exists answers, p'. repeat split; try assumption.
  - intros j Hj Hnth. specialize (Hfirst j Hj Hnth). lra.
  - intros i j Hij Hi Hnth. specialize (Hpair i j Hij Hi Hnth). lra.
Qed.

(** Under the demo clock, a quarter of a second per reading, the first call
    (at time 0, the time recorded at start) is refused and the next ones are
    accepted. *)
Lemma navigation_inputs_spaced_witness :
  exists p', polls demo_host 3 (start init) = Done [false; true; true] p'.
Proof.
  destruct (navigation_inputs_spaced demo_host 3 (start init))
    as (answers & p' & Hrun & _).
  exists p'. rewrite Hrun. f_equal.
  vm_compute in Hrun. now inversion Hrun.
Defined.

End UIMoreFacts.

(* ===================================================================== *)
(** * What the whole process maintains: selection, query, stop flag *)
(* ===================================================================== *)

Module SnapshotFacts.
Import UI.
Import UIMore.
Local Open Scope py_scope.

Create HintDb snap.
Create HintDb maintains.

(** The keys of the layout are the three action keys and single keyboard
    characters. *)
Lemma py_getitem_In {A} (l : list A) (i : Z) (x : A) :
  py_getitem l i = Some x -> In x l.
Proof.
  unfold py_getitem.
  repeat match goal with
         | |- context [if ?b then _ else _] => destruct b
         end; try discriminate; apply nth_error_In.
Qed.

Lemma py_getitem_Some_lt {A} (l : list A) (i : Z) (x : A) :
  py_getitem l i = Some x -> (len l <=? i) = false.
Proof.
  unfold py_getitem. intros H. apply Z.leb_gt.
  destruct ((0 <=? i) && (i <? len l)) eqn:Hin.
  - lia.
  - destruct ((- len l <=? i) && (i <? 0)) eqn:Hneg; [|discriminate].
    pose proof (NavigateFacts.len_nonneg l). lia.
Qed.

Lemma layout_keys (s : JellyseerrUI) (key : string) :
  key_under_cursor s = Some key ->
  is_action_key key = true
  \/ exists c, key = String c EmptyString /\ keyboard_char c = true.
Proof.
  unfold key_under_cursor.
  destruct (py_getitem keyboard_layout (keyboard_row s)) as [row|] eqn:Hrow;
    [|discriminate].
  intros Hkey. apply py_getitem_In in Hrow. apply py_getitem_In in Hkey.
  unfold keyboard_layout in Hrow. simpl in Hrow.
  repeat (destruct Hrow as [<-|Hrow]); try contradiction;
    simpl in Hkey;
    repeat (destruct Hkey as [<-|Hkey]); try contradiction;
    first [ left; reflexivity
          | right; eexists; split; reflexivity ].
Qed.

Lemma bind_get_self {B} (k : JellyseerrUI -> M B) (p : Process) :
  bind get_self k p = k (self p) p.
Proof. reflexivity. Qed.

(** [handle_keyboard_select] with a key under the cursor: the two guards
    pass and the key is dispatched. *)
Lemma handle_keyboard_select_key (host : Host) (p : Process) (key : string) :
  key_under_cursor (self p) = Some key ->
  handle_keyboard_select host p
  = (if String.eqb key "SEARCH" then
       if strip_nonempty (search_query (self p))
       then perform_search host (search_query (self p))
       else ret tt
     else if String.eqb key "CANCEL" then modify handle_back
     else if String.eqb key "DEL" then
       modify (set_search_query (drop_last (search_query (self p))))
     else
       modify (set_search_query (String.append (search_query (self p)) key)))
      p.
Proof.
  unfold key_under_cursor.
  destruct (py_getitem keyboard_layout (keyboard_row (self p)))
    as [row|] eqn:Hrow; [|discriminate].
  intros Hkey. unfold handle_keyboard_select. rewrite bind_get_self.
  rewrite (py_getitem_Some_lt _ _ _ Hrow), Hrow.
  rewrite (py_getitem_Some_lt _ _ _ Hkey), Hkey.
  destruct (String.eqb key "SEARCH"); [reflexivity|].
  destruct (String.eqb key "CANCEL"); [reflexivity|].
  destruct (String.eqb key "DEL"); [reflexivity|].
  destruct (String.eqb_spec key " ") as [->|]; reflexivity.
Qed.

Lemma drop_last_append (q : string) (c : ascii) :
  drop_last (String.append q (String c EmptyString)) = q.
Proof.
  induction q as [|a q IH]; [reflexivity|].
  simpl. rewrite IH. destruct q; reflexivity.
Qed.

(** X7.  On the on-screen keyboard, a key that is not SEARCH, CANCEL or DEL
    appends itself to the query, and DEL pressed next gives the query back as
    it was. *)
Theorem typed_key_then_del_restores_query :
  forall (host : Host) (p : Process) (key : string),
    key_under_cursor (self p) = Some key ->
    is_action_key key = false ->
    let typed := final (handle_keyboard_select host p) in
    search_query (self typed) = String.append (search_query (self p)) key
    /\ forall p' : Process,
         search_query (self p') = search_query (self typed) ->
         key_under_cursor (self p') = Some "DEL" ->
         search_query (self (final (handle_keyboard_select host p')))
         = search_query (self p).
Proof.
  intros host p key Hkey Haction typed.
  assert (Htyped : search_query (self typed)
                   = String.append (search_query (self p)) key).
  { unfold typed. rewrite (handle_keyboard_select_key host p key Hkey).
    unfold is_action_key in Haction.
    apply Bool.orb_false_iff in Haction. destruct Haction as [Haction Hdel].
    apply Bool.orb_false_iff in Haction. destruct Haction as [Hsearch Hcancel].
    rewrite Hsearch, Hcancel, Hdel. reflexivity. }
  split; [exact Htyped|].
  intros p' Hquery Hdel.
  rewrite (handle_keyboard_select_key host p' "DEL" Hdel). simpl.
  rewrite Hquery, Htyped.
  destruct (layout_keys (self p) key Hkey) as [Hact | (c & -> & _)].
  - congruence.
  - apply drop_last_append.
Qed.

Lemma typed_key_then_del_restores_query_witness :
  search_query
    (self (final (handle_keyboard_select demo_host
                    (start (set_keyboard_col 7
                              (set_search_query "maa" typing_state))))))
  = "ma"
  /\ search_query
       (self (final (handle_keyboard_select demo_host
                       (start (set_keyboard_col 0
                                 (set_keyboard_row 0 typing_state))))))
     = "maa".
Proof.
  destruct (typed_key_then_del_restores_query demo_host
              (start (set_keyboard_col 0 (set_keyboard_row 0 typing_state)))
              "a" eq_refl eq_refl) as [Htyped Hdel].
  split.
  - apply (Hdel (start (set_keyboard_col 7
                          (set_search_query "maa" typing_state))));
      reflexivity.
  - exact Htyped.
Defined.

(* ------------------------------------------------------------------- *)
(** ** Properties of the snapshot that every method preserves *)

(** The functions on [self] that leave the snapshot alone. *)
Lemma snapshot_select_item (s s' : JellyseerrUI) :
  handle_search_result_select s = Some s'
  \/ handle_browse_select s = Some s' ->
  snapshot s' = snapshot s.
Proof.
  unfold handle_search_result_select, handle_browse_select.
  intros [H|H];
    match type of H with
    | (if ?b then _ else _) = _ => destruct b
    end;
    try match type of H with
        | match ?o with _ => _ end = _ => destruct o
        end;
    inversion H; reflexivity.
Qed.

Lemma snapshot_keyboard_right (s s' : JellyseerrUI) :
  keyboard_right s = Some s' -> snapshot s' = snapshot s.
Proof.
  unfold keyboard_right.
  destruct (py_getitem keyboard_layout (keyboard_row s)); [|discriminate].
  intros H; inversion H; reflexivity.
Qed.

(** The characters of the letter and digit keys. *)
Lemma keyboard_char_chr (key : Z) :
  (K_a <=? key) && (key <=? K_z) = true
  \/ (K_0 <=? key) && (key <=? K_9) = true ->
  keyboard_char (ascii_of_nat (Z.to_nat key)) = true.
Proof.
  unfold K_a, K_z, K_0, K_9, keyboard_char. intros H.
  assert (Hkey : (Z.to_nat key < 256)%nat) by lia.
  rewrite (nat_ascii_embedding _ Hkey).
  cbv zeta.
  destruct H as [H|H]; apply Bool.andb_true_iff in H; destruct H as [Hlo Hhi];
    apply Z.leb_le in Hlo; apply Z.leb_le in Hhi.
  - replace (97 <=? Z.to_nat key)%nat with true
      by (symmetry; apply Nat.leb_le; lia).
    replace (Z.to_nat key <=? 122)%nat with true
      by (symmetry; apply Nat.leb_le; lia).
    reflexivity.
  - replace (48 <=? Z.to_nat key)%nat with true
      by (symmetry; apply Nat.leb_le; lia).
    replace (Z.to_nat key <=? 57)%nat with true
      by (symmetry; apply Nat.leb_le; lia).
    apply Bool.orb_true_iff. left. apply Bool.orb_true_r.
Qed.

Section Invariant.

Variable host : Host.
Variable I : Snapshot -> Prop.

(** What [I] has to withstand: a selection that is not negative, one edit
    of the query, the stop of the loop, a browse list within the bound. *)
Hypothesis I_index :
  forall i q r b j, 0 <= j -> I (i, q, r, b) -> I (j, q, r, b).
Hypothesis I_edit :
  forall i q r b q', edit q q' -> I (i, q, r, b) -> I (i, q', r, b).
Hypothesis I_stop : forall i q r b, I (i, q, r, b) -> I (i, q, false, b).
Hypothesis I_browse :
  forall i q r b l,
    (List.length l <= 2 * MAX_BROWSE_ITEMS_PER_TYPE)%nat ->
    I (i, q, r, b) -> I (i, q, r, l).

Lemma I_set_selected_index (j : Z) (s : JellyseerrUI) :
  0 <= j -> I (snapshot s) -> I (snapshot (set_selected_index j s)).
Proof. intros Hj. apply I_index. exact Hj. Qed.

Lemma I_navigate (d : Z) (s : JellyseerrUI) :
  I (snapshot s) -> I (snapshot (navigate d s)).
Proof.
  assert (Hitems : forall (A : Type) (items : list A),
             I (snapshot s) -> I (snapshot (navigate_items items d s))).
  { intros A [|item items] Hs; unfold navigate_items.
    - apply I_set_selected_index; [lia | exact Hs].
    - apply I_set_selected_index; [|exact Hs].
      pose proof (NavigateFacts.len_nonneg items).
      replace (len (item :: items)) with (len items + 1)
        by (unfold len; simpl List.length; lia).
      destruct (_ <? 0) eqn:Hlow; [lia|].
      destruct (_ <=? _); [lia|]. apply Z.ltb_ge in Hlow. exact Hlow. }
  unfold navigate. destruct (current_screen s); auto.
Qed.

Lemma I_handle_back (s : JellyseerrUI) :
  I (snapshot s) -> I (snapshot (handle_back s)).
Proof.
  intros Hs. unfold handle_back.
  destruct (pop (screen_stack s)) as [[top rest]|].
  - apply I_set_selected_index; [lia | exact Hs].
  - destruct (current_screen s); try exact Hs;
      (apply I_set_selected_index; [lia | exact Hs]).
Qed.

Lemma I_set_running (s : JellyseerrUI) :
  I (snapshot s) -> I (snapshot (set_running false s)).
Proof. apply I_stop. Qed.

Lemma I_clear_query (s : JellyseerrUI) :
  I (snapshot s) -> I (snapshot (set_search_query "" s)).
Proof. apply I_edit. apply edit_clear. Qed.

Lemma I_handle_dpad_motion (value : Z * Z) (s s' : JellyseerrUI) :
  handle_dpad_motion value s = Some s' ->
  I (snapshot s) -> I (snapshot s').
Proof.
  destruct value as [x y]. unfold handle_dpad_motion.
  destruct (current_screen s).
  2: { set (moved := if y =? 1 then keyboard_up s
                     else if y =? -1 then keyboard_down s else s).
       assert (Hmoved : snapshot moved = snapshot s)
         by (unfold moved; destruct (y =? 1); [|destruct (y =? -1)];
             reflexivity).
       destruct (x =? -1).
       - intros H; inversion H. intros Hs.
         change (I (snapshot moved)). now rewrite Hmoved.
       - destruct (x =? 1).
         + intros H Hs. rewrite (snapshot_keyboard_right _ _ H), Hmoved.
           exact Hs.
         + intros H Hs. inversion H. subst s'. rewrite Hmoved. exact Hs. }
  all: destruct (y =? 1); [|destruct (y =? -1)];
    intros H; inversion H; auto using I_navigate.
Qed.

Lemma preserves_ret {A} (a : A) : Preserves I (ret a).
Proof. intros p Hp. exact Hp. Qed.

Lemma preserves_raise {A} : Preserves I (@raise A).
Proof. intros p Hp. exact Hp. Qed.

Lemma preserves_get_self : Preserves I get_self.
Proof. intros p Hp. exact Hp. Qed.

Lemma preserves_time_time : Preserves I (time_time host).
Proof. intros p Hp. exact Hp. Qed.

Lemma preserves_start_thread (t : Thread) : Preserves I (start_thread t).
Proof. intros p Hp. exact Hp. Qed.

Lemma preserves_api_request_media (media_id media_type : Value) :
  Preserves I (api_request_media host media_id media_type).
Proof.
  intros p Hp. unfold api_request_media.
  destruct (request_media host (api_requests p) media_id media_type);
    exact Hp.
Qed.

Lemma preserves_bind {A B} (c : M A) (k : A -> M B) :
  Preserves I c -> (forall a, Preserves I (k a)) -> Preserves I (bind c k).
Proof.
  intros Hc Hk p Hp. unfold bind. specialize (Hc p Hp).
  destruct (c p) as [a p'|p']; simpl in Hc.
  - apply Hk. exact Hc.
  - exact Hc.
Qed.

Lemma preserves_step (f : JellyseerrUI -> JellyseerrUI) :
  (forall s, I (snapshot s) -> I (snapshot (f s))) -> Preserves I (modify f).
Proof. intros Hf p. apply Hf. Qed.

Lemma preserves_modify (f : JellyseerrUI -> JellyseerrUI) :
  (forall s, snapshot (f s) = snapshot s) -> Preserves I (modify f).
Proof. intros Hf. apply preserves_step. intros s. now rewrite Hf. Qed.

Lemma preserves_attempt (f : JellyseerrUI -> option JellyseerrUI) :
  (forall s s', f s = Some s' -> I (snapshot s) -> I (snapshot s')) ->
  Preserves I (attempt f).
Proof.
  intros Hf p Hp. unfold attempt.
  destruct (f (self p)) as [s'|] eqn:E; simpl.
  - now apply (Hf (self p)).
  - exact Hp.
Qed.

#[local] Hint Resolve I_navigate I_handle_back I_set_running I_clear_query
  : snap.

(** Decompose a method into its statements. *)
Ltac preserves :=
  repeat first
    [ solve [auto with maintains]
    | apply preserves_ret
    | apply preserves_raise
    | apply preserves_get_self
    | apply preserves_time_time
    | apply preserves_start_thread
    | apply preserves_api_request_media
    | apply preserves_modify; solve [intros; reflexivity]
    | apply preserves_step; solve [auto with snap]
    | apply preserves_step; intros ? ?; apply I_set_selected_index;
      solve [lia | assumption]
    | apply preserves_attempt; solve [eauto using I_handle_dpad_motion]
    | apply preserves_attempt;
      solve [intros ? ? H ?; now rewrite (snapshot_keyboard_right _ _ H)]
    | apply preserves_bind; [|intros ?]
    | match goal with
      | |- Preserves _ (if ?b then _ else _) => destruct b
      | |- Preserves _ (match ?x with _ => _ end) => destruct x
      end ].

Lemma preserves_show_message (text : string) (color : option Color)
    (duration : Q) :
  Preserves I (show_message host text color duration).
Proof. unfold show_message. preserves. Qed.

Lemma preserves_can_navigate : Preserves I (can_navigate host).
Proof. unfold can_navigate. preserves. Qed.

#[local] Hint Resolve preserves_show_message preserves_can_navigate
  : maintains.

Lemma preserves_when_can_navigate (c : M unit) :
  Preserves I c -> Preserves I (when_can_navigate host c).
Proof. intros Hc. unfold when_can_navigate. preserves. Qed.

Lemma preserves_perform_search (query : string) :
  Preserves I (perform_search host query).
Proof. unfold perform_search. preserves. Qed.

Lemma preserves_load_popular_content :
  Preserves I (load_popular_content host).
Proof. unfold load_popular_content. preserves. Qed.

#[local] Hint Resolve preserves_perform_search
  preserves_load_popular_content : maintains.

Lemma preserves_handle_main_menu_select :
  Preserves I (handle_main_menu_select host).
Proof. unfold handle_main_menu_select. preserves. Qed.

Lemma preserves_handle_media_detail_select :
  Preserves I (handle_media_detail_select host).
Proof. unfold handle_media_detail_select. preserves. Qed.

(** The on-screen keyboard edits the query of the state it runs in. *)
Lemma preserves_handle_keyboard_select :
  Preserves I (handle_keyboard_select host).
Proof.
  intros p Hp. unfold handle_keyboard_select. rewrite bind_get_self.
  destruct (len keyboard_layout <=? keyboard_row (self p)); [exact Hp|].
  destruct (py_getitem keyboard_layout (keyboard_row (self p)))
    as [row|] eqn:Hrow; [|exact Hp].
  destruct (len row <=? keyboard_col (self p)); [exact Hp|].
  destruct (py_getitem row (keyboard_col (self p))) as [key|] eqn:Hkey;
    [|exact Hp].
  assert (Hcursor : key_under_cursor (self p) = Some key)
    by (unfold key_under_cursor; now rewrite Hrow).
  destruct (String.eqb key "SEARCH") eqn:Hsearch.
  { destruct (strip_nonempty (search_query (self p))); [|exact Hp].
    now apply preserves_perform_search. }
  destruct (String.eqb key "CANCEL") eqn:Hcancel.
  { now apply (preserves_step handle_back I_handle_back). }
  destruct (String.eqb key "DEL") eqn:Hdel.
  { apply (I_edit (selected_index (self p)) (search_query (self p))).
    - apply edit_delete.
    - exact Hp. }
  destruct (layout_keys (self p) key Hcursor) as [Haction | (c & -> & Hc)].
  { unfold is_action_key in Haction.
    rewrite Hsearch, Hcancel, Hdel in Haction. discriminate. }
  destruct (String.eqb (String c EmptyString) " ") eqn:Hspace.
  - apply (I_edit (selected_index (self p)) (search_query (self p)));
      [|exact Hp].
    apply (edit_char (search_query (self p)) " "%char). reflexivity.
  - apply (I_edit (selected_index (self p)) (search_query (self p)));
      [|exact Hp].
    now apply edit_char.
Qed.

Lemma preserves_handle_analog_navigation (axes : Q * Q) :
  Preserves I (handle_analog_navigation host axes).
Proof. unfold handle_analog_navigation. preserves. Qed.

Lemma preserves_draw : Preserves I draw.
Proof. unfold draw. preserves. Qed.

Lemma preserves_check_scheduled_back :
  Preserves I (check_scheduled_back host).
Proof. unfold check_scheduled_back. preserves. Qed.

#[local] Hint Resolve preserves_handle_main_menu_select
  preserves_handle_media_detail_select preserves_handle_keyboard_select
  preserves_handle_analog_navigation preserves_draw
  preserves_check_scheduled_back : maintains.

(** The background threads. *)
Lemma preserves_search_in_background (query : string) (api : Service) :
  Preserves I (search_in_background host query api).
Proof. unfold search_in_background. preserves. Qed.

Lemma preserves_load_in_background (api : Service) :
  Preserves I (load_in_background host api).
Proof.
  unfold load_in_background.
  destruct (get_popular_movies api) as [movies|];
    [|destruct (get_popular_tv api); preserves].
  destruct (get_popular_tv api) as [tv_shows|]; [|preserves].
  set (part := fun r : option (list Media) =>
                 match r with
                 | Some l => firstn MAX_BROWSE_ITEMS_PER_TYPE l
                 | None => []
                 end).
  assert (Hbound : (List.length (part movies ++ part tv_shows)
                    <= 2 * MAX_BROWSE_ITEMS_PER_TYPE)%nat).
  { rewrite length_app.
    assert (Hpart : forall r, (List.length (part r)
                               <= MAX_BROWSE_ITEMS_PER_TYPE)%nat).
    { intros [l|]; unfold part; [rewrite length_firstn | simpl]; lia. }
    pose proof (Hpart movies). pose proof (Hpart tv_shows). lia. }
  apply preserves_bind.
  - apply preserves_step. intros s. now apply I_browse.
  - intros _. destruct (part movies ++ part tv_shows); preserves.
Qed.

Lemma preserves_run_thread (i : nat) (api : Service) :
  Preserves I (run_thread host i api).
Proof.
  intros p. unfold run_thread.
  destruct (nth_error (threads p) i) as [[|query]|]; [| |auto].
  - apply (preserves_load_in_background api
             {| self := self p; threads := without i (threads p);
                clock_reads := clock_reads p;
                api_requests := api_requests p |}).
  - apply (preserves_search_in_background query api
             {| self := self p; threads := without i (threads p);
                clock_reads := clock_reads p;
                api_requests := api_requests p |}).
Qed.

Lemma preserves_handle_select : Preserves I (handle_select host).
Proof.
  unfold handle_select. apply preserves_bind; [preserves|]. intros s.
  destruct (current_screen s); auto with maintains;
    apply preserves_attempt; intros s1 s2 H;
    rewrite (snapshot_select_item s1 s2) by auto; auto.
Qed.

#[local] Hint Resolve preserves_handle_select : maintains.

Lemma preserves_handle_button_press (button : Z) :
  Preserves I (handle_button_press host button).
Proof. unfold handle_button_press. preserves. Qed.

(** The keys of a real keyboard edit the query of the state they meet. *)
Lemma preserves_handle_keyboard (key : Z) :
  Preserves I (handle_keyboard host key).
Proof.
  intros p Hp. unfold handle_keyboard. rewrite bind_get_self.
  assert (Hedit : forall q',
             edit (search_query (self p)) q' ->
             I (snapshot (self (final
                  (modify (set_search_query q') p))))).
  { intros q' Hq'.
    apply (I_edit (selected_index (self p)) (search_query (self p)));
      assumption. }
  assert (Hpoint : forall c : M unit,
             Preserves I c -> I (snapshot (self (final (c p)))))
    by (intros c Hc; now apply Hc).
  destruct (current_screen (self p)).
  2: { destruct (key =? K_UP);
         [apply Hpoint, preserves_when_can_navigate; preserves|].
       destruct (key =? K_DOWN);
         [apply Hpoint, preserves_when_can_navigate; preserves|].
       destruct (key =? K_LEFT);
         [apply Hpoint, preserves_when_can_navigate; preserves|].
       destruct (key =? K_RIGHT).
       { apply Hpoint, preserves_when_can_navigate, preserves_attempt.
         intros s s' H Hs. now rewrite (snapshot_keyboard_right s s' H). }
       destruct (key =? K_RETURN); [apply Hpoint; preserves|].
       destruct (key =? K_ESCAPE); [apply Hpoint; preserves|].
       destruct (key =? K_BACKSPACE); [apply Hedit, edit_delete|].
       destruct (key =? K_SPACE).
       { apply Hedit.
         apply (edit_char (search_query (self p)) " "%char). reflexivity. }
       destruct ((K_a <=? key) && (key <=? K_z)) eqn:Hletter.
       { apply Hedit. unfold chr. apply edit_char.
         apply keyboard_char_chr. now left. }
       destruct ((K_0 <=? key) && (key <=? K_9)) eqn:Hdigit.
       { apply Hedit. unfold chr. apply edit_char.
         apply keyboard_char_chr. now right. }
       exact Hp. }
  all: apply Hpoint;
    repeat match goal with
           | |- Preserves _ (if ?b then _ else _) => destruct b
           end;
    try apply preserves_when_can_navigate; preserves.
Qed.

#[local] Hint Resolve preserves_handle_button_press preserves_handle_keyboard
  : maintains.

Lemma preserves_handle_event (event : Event) :
  Preserves I (handle_event host event).
Proof.
  destruct event; unfold handle_event;
    try apply preserves_when_can_navigate; preserves.
Qed.

Lemma preserves_handle_events (events : list Event) :
  Preserves I (handle_events host events).
Proof.
  induction events as [|event events IH]; simpl.
  - apply preserves_ret.
  - apply preserves_bind; [apply preserves_handle_event | intros _; exact IH].
Qed.

Lemma preserves_handle_input (input : Input) :
  Preserves I (handle_input host input).
Proof.
  unfold handle_input. apply preserves_bind; [apply preserves_handle_events|].
  intros _. preserves.
Qed.

Lemma preserves_run_iteration (input : Input) :
  Preserves I (run_iteration host input).
Proof.
  unfold run_iteration. apply preserves_bind; [apply preserves_handle_input|].
  intros _. preserves.
Qed.

Lemma preserves_run (schedule : list Step) : Preserves I (run host schedule).
Proof.
  induction schedule as [|[input|i api] schedule IH]; cbn [run].
  - apply preserves_ret.
  - apply preserves_bind; [apply preserves_get_self|]. intros s.
    destruct (running s); [|apply preserves_ret].
    apply preserves_bind; [apply preserves_run_iteration | intros _; exact IH].
  - apply preserves_bind; [apply preserves_run_thread | intros _; exact IH].
Qed.

End Invariant.

(* ------------------------------------------------------------------- *)
(** ** The four properties along the whole process *)

Lemma typed_text_append (q : string) (c : ascii) :
  typed_text q = true -> keyboard_char c = true ->
  typed_text (String.append q (String c EmptyString)) = true.
Proof.
  intros Hq Hc. induction q as [|a q IH]; simpl.
  - now rewrite Hc.
  - simpl in Hq. apply Bool.andb_true_iff in Hq. destruct Hq as [Ha Hq].
    rewrite Ha. now apply IH.
Qed.

Lemma typed_text_drop_last (q : string) :
  typed_text q = true -> typed_text (drop_last q) = true.
Proof.
  induction q as [|a q IH]; [reflexivity|]. intros Hq.
  simpl in Hq. apply Bool.andb_true_iff in Hq. destruct Hq as [Ha Hq].
  destruct q as [|b q]; [reflexivity|].
  change (drop_last (String a (String b q)))
    with (String a (drop_last (String b q))).
  simpl typed_text at 1. rewrite Ha. now apply IH.
Qed.

Lemma typed_text_edit (q q' : string) :
  edit q q' -> typed_text q = true -> typed_text q' = true.
Proof.
  intros [| |c Hc] Hq.
  - reflexivity.
  - now apply typed_text_drop_last.
  - now apply typed_text_append.
Qed.

(** X8.  The selection never becomes negative: whatever the inputs and the
    answers of the service, and in whatever order frames and background
    threads run, [selected_index] is at least 0 at the end if it was at the
    start (as it is after [__init__]). *)
Theorem selection_never_negative :
  forall (host : Host) (schedule : list Step) (p : Process),
    0 <= selected_index (self p) ->
    0 <= selected_index (self (final (run host schedule p))).
Proof.
  intros host schedule p.
  apply (preserves_run host index_ok); unfold index_ok; auto.
Qed.

Lemma selection_never_negative_witness :
  0 <= selected_index
         (self (final (run demo_host two_searches (start typing_state)))).
Proof.
  apply (selection_never_negative demo_host two_searches (start typing_state)).
  simpl. lia.
Defined.

(** X9.  The query holds nothing but what the keyboards type: if
    [search_query] is made of the letters a-z, the digits and spaces at the
    start (as the empty query of [__init__] is), it is at the end of every
    run of the process. *)
Theorem query_stays_typed_text :
  forall (host : Host) (schedule : list Step) (p : Process),
    typed_text (search_query (self p)) = true ->
    typed_text (search_query (self (final (run host schedule p)))) = true.
Proof.
  intros host schedule p.
  apply (preserves_run host query_ok); unfold query_ok; auto.
  intros _ q _ _ q'. apply typed_text_edit.
Qed.

Lemma query_stays_typed_text_witness :
  typed_text
    (search_query
       (self (final (run demo_host two_searches (start typing_state)))))
  = true.
Proof.
  apply (query_stays_typed_text demo_host two_searches (start typing_state)).
  reflexivity.
Defined.

(** X10.  The browse list never holds more than twice
    [MAX_BROWSE_ITEMS_PER_TYPE] items, that is 20: no run of the process
    takes it over the bound. *)
Theorem browse_list_bounded :
  forall (host : Host) (schedule : list Step) (p : Process),
    (List.length (browse_results (self p))
     <= 2 * MAX_BROWSE_ITEMS_PER_TYPE)%nat ->
    (List.length (browse_results (self (final (run host schedule p))))
     <= 2 * MAX_BROWSE_ITEMS_PER_TYPE)%nat.
Proof.
  intros host schedule p.
  apply (preserves_run host browse_ok); unfold browse_ok; auto.
Qed.

Lemma browse_list_bounded_witness :
  (List.length
     (browse_results
        (self (final (run demo_host two_searches (start typing_state)))))
   <= 2 * MAX_BROWSE_ITEMS_PER_TYPE)%nat.
Proof.
  apply (browse_list_bounded demo_host two_searches (start typing_state)).
  simpl. lia.
Defined.

(* ------------------------------------------------------------------- *)
(** ** Leaving the main loop *)

Lemma run_stays_stopped (host : Host) (schedule : list Step) (p : Process) :
  running (self p) = false ->
  running (self (final (run host schedule p))) = false.
Proof. apply (preserves_run host stopped); unfold stopped; auto. Qed.

Lemma handle_events_stays_stopped (host : Host) (events : list Event)
    (p : Process) :
  running (self p) = false ->
  running (self (final (handle_events host events p))) = false.
Proof. apply (preserves_handle_events host stopped); unfold stopped; auto. Qed.

Lemma exit_event_stops (host : Host) (event : Event) (p : Process) :
  is_exit host event = true ->
  running (self (final (handle_event host event p))) = false.
Proof.
  destruct event as [|button| | |]; try discriminate; simpl; intros Hexit.
  - reflexivity.
  - unfold handle_button_press. rewrite Hexit. reflexivity.
Qed.

Lemma raised_bind {A B} (c : M A) (k : A -> M B) (p : Process) :
  raised (bind c k p) = false ->
  exists a p', c p = Done a p' /\ bind c k p = k a p'.
Proof.
  unfold bind. destruct (c p) as [a p'|p']; [|discriminate].
  intros _. now exists a, p'.
Qed.

Lemma exit_events_stop (host : Host) (event : Event) (events : list Event) :
  In event events -> is_exit host event = true ->
  forall p, raised (handle_events host events p) = false ->
            running (self (final (handle_events host events p))) = false.
Proof.
  intros Hin Hexit. induction events as [|first rest IH]; [contradiction|].
  intros p Hraised. cbn [handle_events] in *.
  destruct (raised_bind _ _ p Hraised) as (a & p' & Hfirst & Hrest).
  rewrite Hrest in *. destruct Hin as [->|Hin].
  - apply handle_events_stays_stopped.
    pose proof (exit_event_stops host event p Hexit) as Hstop.
    now rewrite Hfirst in Hstop.
  - now apply IH.
Qed.

Lemma exit_frame_stops (host : Host) (event : Event) (input : Input)
    (p : Process) :
  In event (events input) -> is_exit host event = true ->
  raised (run_iteration host input p) = false ->
  running (self (final (run_iteration host input p))) = false.
Proof.
  intros Hin Hexit Hraised. unfold run_iteration, handle_input in *.
  destruct (raised_bind _ _ p Hraised) as (a & p1 & Hinput & Hrest).
  rewrite Hrest.
  assert (Hstop : running (self p1) = false).
  { assert (Hr : raised (bind (handle_events host (events input))
                           (fun _ => if joystick host
                                     then handle_analog_navigation host
                                            (axes input)
                                     else ret tt) p) = false)
      by now rewrite Hinput.
    destruct (raised_bind _ _ p Hr) as (b & p0 & Hevents & Hanalog).
    assert (Hp0 : running (self p0) = false).
    { pose proof (exit_events_stop host event (events input) Hin Hexit p)
        as Hstop.
      rewrite Hevents in Hstop. now apply Hstop. }
    rewrite Hanalog in Hinput.
    assert (Hk : Preserves stopped
                   (if joystick host
                    then handle_analog_navigation host (axes input)
                    else ret tt)).
    { destruct (joystick host).
      - apply preserves_handle_analog_navigation; unfold stopped; auto.
      - apply preserves_ret. }
    specialize (Hk p0 Hp0). rewrite Hinput in Hk. exact Hk. }
  assert (Hk : Preserves stopped
                 (bind (check_scheduled_back host) (fun _ => draw))).
  { apply preserves_bind.
    - apply preserves_check_scheduled_back; unfold stopped; auto.
    - intros _. apply preserves_draw; unfold stopped; auto. }
  exact (Hk p1 Hstop).
Qed.

(** X11.  Closing the window or pressing START ends the main loop: after a
    run of the process in which some frame received such an event, and which
    no exception ended, [self.running] is false. *)
Theorem exit_event_ends_loop :
  forall (host : Host) (schedule : list Step) (input : Input)
         (event : Event) (p : Process),
    In (Frame input) schedule ->
    In event (events input) ->
    is_exit host event = true ->
    raised (run host schedule p) = false ->
    running (self (final (run host schedule p))) = false.
Proof.
  intros host schedule input event p Hframe Hin Hexit. revert p.
  induction schedule as [|step rest IH]; [contradiction|].
  intros p Hraised. destruct step as [first|i api]; cbn [run] in *.
  - rewrite bind_get_self in *.
    destruct (running (self p)) eqn:Hrunning; [|exact Hrunning].
    destruct (raised_bind _ _ p Hraised) as (a & p' & Hfirst & Hrest).
    rewrite Hrest in *. destruct Hframe as [Hhere|Hlater].
    + inversion Hhere. subst first. apply run_stays_stopped.
      pose proof (exit_frame_stops host event input p Hin Hexit) as Hstop.
      rewrite Hfirst in Hstop. now apply Hstop.
    + now apply IH.
  - destruct (raised_bind _ _ p Hraised) as (a & p' & Hfirst & Hrest).
    rewrite Hrest in *. destruct Hframe as [Hhere|Hlater]; [discriminate|].
    now apply IH.
Qed.

Lemma exit_event_ends_loop_witness :
  running
    (self (final (run demo_host [frame [KEYDOWN 116; QUIT]; frame []]
                    (start typing_state))))
  = false.
Proof.
  apply (exit_event_ends_loop demo_host _
           {| events := [KEYDOWN 116; QUIT]; axes := (0%Q, 0%Q) |} QUIT).
  - left. reflexivity.
  - right. left. reflexivity.
  - reflexivity.
  - vm_compute. reflexivity.
Defined.

End SnapshotFacts.

(* ===================================================================== *)
(** * From a request to its answer: the search and the browse list *)
(* ===================================================================== *)

Module ThreadFacts.
Import UI.
Import UIMore.
Local Open Scope py_scope.









(** X14.  A search that finds nothing, or fails, changes nothing but the
    message: the thread leaves the screen, the back-stack, the selection,
    the query and the results of an earlier search as they are, shows an
    error text, and is gone from the pool. *)
Theorem failed_search_changes_only_message :
  forall (host : Host) (i : nat) (api : Service) (p : Process)
         (query : string),
    nth_error (threads p) i = Some (PerformSearch query) ->
    (forall item items,
        search_answer api (self p) query <> Answer (Some (item :: items))) ->
    let after := run_thread host i api p in
    raised after = false
    /\ threads (final after) = without i (threads p)
    /\ current_screen (self (final after)) = current_screen (self p)
    /\ screen_stack (self (final after)) = screen_stack (self p)
    /\ selected_index (self (final after)) = selected_index (self p)
    /\ search_query (self (final after)) = search_query (self p)
    /\ search_results (self (final after)) = search_results (self p)
    /\ (message (self (final after)) = Some "No results found"
        \/ message (self (final after)) = Some "Search error")
    /\ message_color (self (final after)) = COLOR_ERROR.
Proof.
  intros host i api p query Hthread Hanswer after. unfold after, run_thread.
  rewrite Hthread. unfold search_in_background.
  rewrite SnapshotFacts.bind_get_self. cbn [self].
  destruct (search_answer api (self p) query) as [[[|item items]|]|];
    try (now destruct (Hanswer item items));
    cbn; repeat split; auto.
Qed.

Lemma failed_search_changes_only_message_witness :
  search_results
    (self (final (run_thread demo_host 0
                    {| search_movies := fun _ => Fails;
                       search_tv := fun _ => Fails;
                       get_popular_movies := Fails;
                       get_popular_tv := Fails |}
                    {| self := results_state;
                       threads := [PerformSearch "ma"];
                       clock_reads := 0; api_requests := 0 |})))
  = search_results results_state.
Proof.
  apply (failed_search_changes_only_message demo_host 0 _
           {| self := results_state; threads := [PerformSearch "ma"];
              clock_reads := 0; api_requests := 0 |} "ma").
  - reflexivity.
  - intros item items. vm_compute. discriminate.
Defined.

End ThreadFacts.

(* ===================================================================== *)
(** * More properties of the download and of the cache *)
(* ===================================================================== *)

Module DownloadFacts.
Import ImageCache.

(** What [read_body] returns is what was read before and the chunks of the
    body, which then has no break; and it is within the limit. *)
Lemma read_body_returns (body : list Api.StreamItem) :
  forall (read : list bytes) (total_size : Z) (data : bytes),
    total_size = len (List.concat read) ->
    total_size <= Api.MAX_IMAGE_DOWNLOAD_SIZE ->
    Api.read_body body read total_size = Api.Return (Some data) ->
    exists chunks,
      body = map Api.Chunk chunks
      /\ data = List.concat (read ++ chunks)
      /\ len data <= Api.MAX_IMAGE_DOWNLOAD_SIZE.
Proof.
  induction body as [|[chunk|] body IH]; intros read total data Htotal Hle Hrun.
  - simpl in Hrun. inversion Hrun. exists []. rewrite app_nil_r.
    repeat split. now rewrite <- Htotal.
  - simpl in Hrun.
    destruct (Z.ltb_spec Api.MAX_IMAGE_DOWNLOAD_SIZE (total + len chunk));
      [discriminate|].
    destruct (IH (read ++ [chunk]) (total + len chunk) data)
      as (chunks & Hbody & Hdata & Hsize); try assumption.
    + rewrite concat_app. simpl. rewrite app_nil_r.
      unfold len in *. rewrite length_app. lia.
    + exists (chunk :: chunks). rewrite Hbody. repeat split; try assumption.
      rewrite Hdata, <- app_assoc. reflexivity.
  - discriminate.
Qed.

Lemma attempt_returns (e : Api.Exchange) (data : bytes) :
  Api.attempt e = Api.Return (Some data) ->
  exists status_code header chunks,
    e = Api.Response status_code header (map Api.Chunk chunks)
    /\ Api.raise_for_status status_code = false
    /\ data = List.concat chunks
    /\ len data <= Api.MAX_IMAGE_DOWNLOAD_SIZE.
Proof.
  destruct e as [|status_code header body]; [discriminate|].
  unfold Api.attempt.
  destruct (Api.raise_for_status status_code) eqn:Hstatus; [discriminate|].
  assert (Hbody : Api.read_body body [] 0 = Api.Return (Some data) ->
                  exists chunks,
                    body = map Api.Chunk chunks
                    /\ data = List.concat chunks
                    /\ len data <= Api.MAX_IMAGE_DOWNLOAD_SIZE).
  { intros Hrun.
    apply (read_body_returns body [] 0 data) in Hrun;
      [exact Hrun | reflexivity | unfold Api.MAX_IMAGE_DOWNLOAD_SIZE; lia]. }
  intros Hrun.
  assert (Hread : Api.read_body body [] 0 = Api.Return (Some data)).
  { destruct header as [| |n]; [exact Hrun | discriminate|].
    destruct (Api.MAX_IMAGE_DOWNLOAD_SIZE <? n); [discriminate | exact Hrun]. }
  destruct (Hbody Hread) as (chunks & -> & Hdata & Hsize).
  now exists status_code, header, chunks.
Qed.

Lemma download_attempts_returns (session_get : Api.Network) (url : string)
    (data : bytes) (remaining : nat) :
  forall calls calls' : list string,
    Api.download_attempts session_get remaining url calls
    = (Api.Returned (Some data), calls') ->
    exists k : nat,
      (List.length calls <= k < List.length calls + remaining)%nat
      /\ Api.attempt (session_get k url) = Api.Return (Some data).
Proof.
  induction remaining as [|remaining IH]; intros calls calls' Hrun.
  - discriminate.
  - cbn [Api.download_attempts] in Hrun.
    destruct (Api.attempt (session_get (List.length calls) url)) as [r| |]
      eqn:Hattempt.
    + inversion Hrun. subst r. exists (List.length calls). split; [lia|].
      exact Hattempt.
    + destruct remaining as [|remaining']; [discriminate|].
      destruct (IH _ _ Hrun) as (k & Hk & Hlast).
      rewrite length_app in Hk. simpl in Hk. exists k. split; [lia|].
      exact Hlast.
    + discriminate.
Qed.

(** X15.  The bytes [download_image] returns are the complete body of one
    response to a request for this URL, among the at most three it makes: a
    response without an error status, whose stream did not break, and they
    are never more than [MAX_IMAGE_DOWNLOAD_SIZE] bytes. *)
Theorem download_image_returns_served_body :
  forall (session_get : Api.Network) (url : string)
         (calls calls' : list string) (data : bytes),
    Api.download_image session_get url calls
    = (Api.Returned (Some data), calls') ->
    len data <= Api.MAX_IMAGE_DOWNLOAD_SIZE
    /\ exists (k : nat) status_code header chunks,
         (List.length calls <= k < List.length calls + 3)%nat
         /\ session_get k url
            = Api.Response status_code header (map Api.Chunk chunks)
         /\ Api.raise_for_status status_code = false
         /\ data = List.concat chunks.
Proof.
  intros session_get url calls calls' data Hrun.
  destruct (download_attempts_returns session_get url data _ _ _ Hrun)
    as (k & Hk & Hattempt).
  destruct (attempt_returns _ _ Hattempt)
    as (status_code & header & chunks & Hget & Hstatus & Hdata & Hsize).
  split; [exact Hsize|].
  now exists k, status_code, header, chunks.
Qed.

Lemma download_image_returns_served_body_witness :
  len (list_byte_of_string "poster") <= Api.MAX_IMAGE_DOWNLOAD_SIZE.
Proof.
  apply (download_image_returns_served_body (session_get demo_world)
           "poster" [] ["poster"] (list_byte_of_string "poster")).
  reflexivity.
Defined.

Section HitFacts.

Variable Surface : Type.
Variable world : World Surface.

Lemma lookup_setitem (url : string) (image : Surface)
    (d : list (string * Surface)) :
  lookup url (setitem url image d) = Some image.
Proof.
  induction d as [|[k v] d IH]; simpl.
  - now rewrite String.eqb_refl.
  - destruct (String.eqb k url) eqn:E; simpl; rewrite E; [reflexivity|].
    exact IH.
Qed.

(** X16.  A poster is downloaded once: when [load_image] fetched and decoded
    the image of a URL (with a cache of capacity at least 1, the least
    [validate_config] accepts), the next call for the same URL returns the
    same image and does not ask the network. *)
Theorem load_image_twice_downloads_once :
  forall (st : State Surface) (url : string) (image : Surface)
         (calls : list string),
    url <> "" ->
    lookup url (image_cache st) = None ->
    fetch world url (http_calls st) = (Some image, calls) ->
    1 <= max_cache_size st ->
    let first := load_image world (Some url) st in
    let second := load_image world (Some url) (snd first) in
    fst first = image
    /\ http_calls (snd first) = calls
    /\ fst second = image
    /\ http_calls (snd second) = calls.
Proof.
  intros st url image calls Hurl Hmiss Hfetch Hcapacity first second.
  assert (Hfirst : exists d,
             first = (image, set_image_cache (set_http_calls st calls)
                               (setitem url image d))).
  { unfold first.
    rewrite (ImageCacheFacts.load_image_miss Surface world url st Hurl Hmiss).
    rewrite Hfetch. unfold cache_and_return, _add_to_cache.
    cbn [max_cache_size image_cache set_http_calls].
    destruct (Z.leb_spec (max_cache_size st) (len (image_cache st))).
    - destruct (image_cache st) as [|oldest rest] eqn:Hcache.
      + unfold len in *. simpl in *. lia.
      + now exists rest.
    - now exists (image_cache st). }
  destruct Hfirst as (d & Hfirst).
  unfold second. rewrite Hfirst. cbn [fst snd].
  rewrite (ImageCacheFacts.load_image_hit Surface world url image)
    by (assumption || apply lookup_setitem).
  repeat split.
Qed.

End HitFacts.

Lemma load_image_twice_downloads_once_witness :
  let first := load_image demo_world (Some "poster")
                 (init bytes MAX_IMAGE_CACHE_SIZE) in
  let second := load_image demo_world (Some "poster") (snd first) in
  fst second = list_byte_of_string "poster"
  /\ http_calls (snd second) = ["poster"].
Proof.
  destruct (load_image_twice_downloads_once bytes demo_world
              (init bytes MAX_IMAGE_CACHE_SIZE) "poster"
              (list_byte_of_string "poster") ["poster"])
    as (_ & _ & Himage & Hcalls).
  - discriminate.
  - reflexivity.
  - reflexivity.
  - unfold MAX_IMAGE_CACHE_SIZE. simpl. lia.
  - split; [exact Himage | exact Hcalls].
Defined.

End DownloadFacts.

(* ===================================================================== *)
(** * Properties of the client: validation, rate limit, requests *)
(* ===================================================================== *)

Module ClientFacts.
Import Client.

(* ------------------------------------------------------------------- *)
(** ** [validate_search_query] *)

Lemma clean_sanitize (q : string) : clean (sanitize q) = true.
Proof.
  induction q as [|c q IH]; [reflexivity|]. simpl.
  destruct (dangerous c) eqn:E; [exact IH|].
  unfold clean in *. simpl. now rewrite E.
Qed.

Lemma sanitize_clean (q : string) : clean q = true -> sanitize q = q.
Proof.
  unfold clean. induction q as [|c q IH]; [reflexivity|]. simpl.
  intros H. apply Bool.andb_true_iff in H. destruct H as [Hc Hq].
  apply Bool.negb_true_iff in Hc. rewrite Hc. now rewrite IH.
Qed.

Lemma all_chars_lstrip (test : ascii -> bool) (s : string) :
  all_chars test s = true -> all_chars test (lstrip s) = true.
Proof.
  induction s as [|c s IH]; [reflexivity|]. simpl. intros H.
  destruct (isspace c); [|exact H].
  apply Bool.andb_true_iff in H. now apply IH.
Qed.

Lemma all_chars_rstrip (test : ascii -> bool) (s : string) :
  all_chars test s = true -> all_chars test (rstrip s) = true.
Proof.
  induction s as [|c s IH]; [reflexivity|]. simpl. intros H.
  apply Bool.andb_true_iff in H. destruct H as [Hc Hs].
  specialize (IH Hs). destruct (rstrip s) as [|d kept].
  - destruct (isspace c); [reflexivity|]. simpl. now rewrite Hc.
  - simpl in *. now rewrite Hc, IH.
Qed.

Lemma all_chars_strip (test : ascii -> bool) (s : string) :
  all_chars test s = true -> all_chars test (strip s) = true.
Proof. intros H. now apply all_chars_rstrip, all_chars_lstrip. Qed.

Lemma length_sanitize (q : string) :
  (String.length (sanitize q) <= String.length q)%nat.
Proof.
  induction q as [|c q IH]; [reflexivity|]. simpl.
  destruct (dangerous c); simpl; lia.
Qed.

Lemma length_lstrip (s : string) :
  (String.length (lstrip s) <= String.length s)%nat.
Proof.
  induction s as [|c s IH]; [reflexivity|]. simpl.
  destruct (isspace c); simpl; lia.
Qed.

Lemma length_rstrip (s : string) :
  (String.length (rstrip s) <= String.length s)%nat.
Proof.
  induction s as [|c s IH]; [reflexivity|]. simpl.
  destruct (rstrip s) as [|d kept]; [destruct (isspace c)|]; simpl in *; lia.
Qed.

Lemma length_strip (s : string) :
  (String.length (strip s) <= String.length s)%nat.
Proof.
  unfold strip. pose proof (length_rstrip (lstrip s)).
  pose proof (length_lstrip s). lia.
Qed.

(** A string that is stripped on the left starts with no white space. *)
Lemma lstrip_head (s : string) :
  lstrip s = EmptyString
  \/ exists c rest, lstrip s = String c rest /\ isspace c = false.
Proof.
  induction s as [|c s IH]; [now left|]. simpl.
  destruct (isspace c) eqn:E; [exact IH|]. right. now exists c, s.
Qed.

Lemma rstrip_idempotent (s : string) : rstrip (rstrip s) = rstrip s.
Proof.
  induction s as [|c s IH]; [reflexivity|]. simpl.
  destruct (rstrip s) as [|d kept] eqn:E.
  - destruct (isspace c) eqn:Ec; [reflexivity|]. simpl. now rewrite Ec.
  - change (rstrip (String c (String d kept)))
      with (match rstrip (String d kept) with
            | EmptyString =>
                if isspace c then EmptyString else String c EmptyString
            | kept' => String c kept'
            end).
    now rewrite IH.
Qed.

Lemma strip_idempotent (s : string) : strip (strip s) = strip s.
Proof.
  unfold strip.
  destruct (lstrip_head s) as [-> | (c & rest & -> & Hc)]; [reflexivity|].
  assert (Hhead : exists kept, rstrip (String c rest) = String c kept).
  { simpl. destruct (rstrip rest) as [|d kept].
    - rewrite Hc. now exists EmptyString.
    - now exists (String d kept). }
  destruct Hhead as (kept & Hkept).
  assert (Hl : lstrip (rstrip (String c rest)) = rstrip (String c rest))
    by (rewrite Hkept; simpl; now rewrite Hc).
  rewrite Hl. apply rstrip_idempotent.
Qed.

(** X17.  What [validate_search_query] returns holds none of the characters
    it removes, has no white space at either end, and is no longer than the
    query, so at most 200 characters; validating it again returns it
    unchanged, unless it is empty.  The functions raises exactly for the
    empty query and for one of more than 200 characters. *)
Theorem validate_search_query_sanitizes :
  forall query : string,
    (validate_search_query query = None
     <-> query = EmptyString \/ (200 < String.length query)%nat)
    /\ forall sanitized : string,
         validate_search_query query = Some sanitized ->
         clean sanitized = true
         /\ strip sanitized = sanitized
         /\ (String.length sanitized <= String.length query <= 200)%nat
         /\ (sanitized <> EmptyString ->
             validate_search_query sanitized = Some sanitized).
Proof.
  intros query. unfold validate_search_query at 1 2.
  destruct (Nat.eqb_spec (String.length query) 0) as [Hempty|Hsome].
  { split; [|discriminate]. split; [|reflexivity]. intros _. left.
    destruct query; [reflexivity | discriminate]. }
  destruct (Nat.ltb_spec 200 (String.length query)) as [Hlong|Hshort].
  { split; [|discriminate]. split; [|reflexivity]. intros _. now right. }
  split.
  { split; [discriminate|]. intros [-> | Hlong]; [now destruct Hsome | lia]. }
  intros sanitized H. inversion H as [Hs]. clear H.
  assert (Hclean : clean (strip (sanitize query)) = true)
    by (apply all_chars_strip, clean_sanitize).
  assert (Hlen : (String.length (strip (sanitize query))
                  <= String.length query)%nat).
  { pose proof (length_strip (sanitize query)).
    pose proof (length_sanitize query). lia. }
  repeat split; try assumption.
  - apply strip_idempotent.
  - intros Hne. unfold validate_search_query.
    destruct (Nat.eqb_spec (String.length (strip (sanitize query))) 0)
      as [Hzero|_].
    { destruct (strip (sanitize query)); [now destruct Hne | discriminate]. }
    destruct (Nat.ltb_spec 200 (String.length (strip (sanitize query))));
      [lia|].
    rewrite sanitize_clean by exact Hclean. now rewrite strip_idempotent.
Qed.

(** The characters of the keyboards are not removed, and the space is the
    only white space among them. *)
Lemma keyboard_char_kept (c : ascii) :
  UIMore.keyboard_char c = true ->
  dangerous c = false /\ isspace c = UI.is_space c.
Proof.
  destruct c as [[] [] [] [] [] [] [] []]; intros H;
    first [discriminate H | split; reflexivity].
Qed.

Lemma typed_text_clean (q : string) :
  UIMore.typed_text q = true -> clean q = true.
Proof.
  unfold clean. induction q as [|c q IH]; [reflexivity|]. simpl.
  intros H. apply Bool.andb_true_iff in H. destruct H as [Hc Hq].
  destruct (keyboard_char_kept c Hc) as [-> _]. now apply IH.
Qed.

Lemma typed_text_all_chars (q : string) :
  UIMore.typed_text q = all_chars UIMore.keyboard_char q.
Proof. induction q as [|c q IH]; [reflexivity|]. simpl. now rewrite IH. Qed.

Lemma rstrip_nonempty (s : string) :
  UI.strip_nonempty s = true ->
  (forall c rest, s = String c rest -> isspace c = false) ->
  UIMore.typed_text s = true ->
  rstrip s <> EmptyString.
Proof.
  destruct s as [|c s]; [discriminate|]. intros _ Hhead _.
  simpl. destruct (rstrip s).
  - now rewrite (Hhead c s eq_refl).
  - discriminate.
Qed.

Lemma lstrip_nonempty (s : string) :
  UIMore.typed_text s = true ->
  UI.strip_nonempty s = true ->
  UI.strip_nonempty (lstrip s) = true.
Proof.
  induction s as [|c s IH]; [discriminate|].
  cbn [lstrip UI.strip_nonempty UIMore.typed_text]. intros Ht Hs.
  apply Bool.andb_true_iff in Ht. destruct Ht as [Hc Ht].
  destruct (keyboard_char_kept c Hc) as [_ Hspace].
  destruct (isspace c) eqn:E.
  - rewrite <- Hspace in Hs. now apply IH.
  - cbn [UI.strip_nonempty]. now rewrite <- Hspace.
Qed.

(** X18.  The interface and the client agree on queries.  A query that the
    keyboards typed, that is not blank (the test of the SEARCH key) and has
    at most 200 characters, passes [validate_search_query]: what is sent is
    the query with the spaces at its ends removed, nothing else is taken from
    it, and it is not empty. *)
Theorem typed_query_passes_validation :
  forall query : string,
    UIMore.typed_text query = true ->
    UI.strip_nonempty query = true ->
    (String.length query <= 200)%nat ->
    validate_search_query query = Some (strip query)
    /\ strip query <> EmptyString
    /\ UIMore.typed_text (strip query) = true.
Proof.
  intros query Htyped Hblank Hlen. unfold validate_search_query.
  destruct (Nat.eqb_spec (String.length query) 0) as [Hzero|_].
  { destruct query; discriminate. }
  destruct (Nat.ltb_spec 200 (String.length query)); [lia|].
  rewrite (sanitize_clean query (typed_text_clean query Htyped)).
  split; [reflexivity|]. split.
  - unfold strip. apply rstrip_nonempty.
    + now apply lstrip_nonempty.
    + intros c rest Hl.
      destruct (lstrip_head query) as [He | (c' & rest' & He & Hc)];
        rewrite He in Hl; [discriminate|].
      now inversion Hl; subst.
    + rewrite typed_text_all_chars. apply all_chars_lstrip.
      now rewrite <- typed_text_all_chars.
  - rewrite typed_text_all_chars. apply all_chars_strip.
    now rewrite <- typed_text_all_chars.
Qed.

Lemma typed_query_passes_validation_witness :
  validate_search_query " the matrix 2 " = Some "the matrix 2".
Proof.
  assert (Hlen : (String.length " the matrix 2 " <= 200)%nat)
    by (simpl; lia).
  exact (proj1 (typed_query_passes_validation " the matrix 2 "
                  eq_refl eq_refl Hlen)).
Defined.

(** X19.  The check cannot make a query valid that was only noise: a query
    of at most 200 characters, not empty, that holds nothing but removed
    characters and white space is accepted, and what is returned, for the
    search methods to send, is the empty string. *)
Theorem noise_query_is_sent_empty :
  forall query : string,
    query <> EmptyString ->
    (String.length query <= 200)%nat ->
    all_chars (fun c => dangerous c || isspace c) query = true ->
    validate_search_query query = Some EmptyString.
Proof.
  intros query Hne Hlen Hnoise. unfold validate_search_query.
  destruct (Nat.eqb_spec (String.length query) 0) as [Hzero|_].
  { destruct query; [now destruct Hne | discriminate]. }
  destruct (Nat.ltb_spec 200 (String.length query)); [lia|].
  f_equal. clear Hne Hlen.
  assert (Hspaces : all_chars isspace (sanitize query) = true).
  { revert Hnoise. clear. induction query as [|c q IH]; [reflexivity|].
    cbn [sanitize all_chars]. intros H.
    apply Bool.andb_true_iff in H. destruct H as [Hc Hq].
    destruct (dangerous c) eqn:E; [now apply IH|].
    cbn [all_chars]. cbn [orb] in Hc. rewrite Hc. now apply IH. }
  unfold strip.
  assert (Hl : forall s, all_chars isspace s = true -> lstrip s = EmptyString).
  { clear. induction s as [|c s IH]; [reflexivity|].
    cbn [lstrip all_chars]. intros H.
    apply Bool.andb_true_iff in H. destruct H as [-> Hs]. now apply IH. }
  now rewrite Hl.
Qed.

Lemma noise_query_is_sent_empty_witness :
  validate_search_query " <$> " = Some EmptyString.
Proof.
  apply noise_query_is_sent_empty.
  - discriminate.
  - simpl. lia.
  - reflexivity.
Defined.

(* ------------------------------------------------------------------- *)
(** ** The rate limit *)

(** What [popleft_old] drops is older than the window. *)
Lemma popleft_old_split (now : Z) (request_times : list Z) :
  exists old,
    request_times = old ++ popleft_old now request_times
    /\ forall t, In t old -> rate_limit_window < now - t.
Proof.
  induction request_times as [|oldest rest IH].
  - exists []. split; [reflexivity | contradiction].
  - simpl. destruct (Z.ltb_spec rate_limit_window (now - oldest)).
    + destruct IH as (old & Hsplit & Hold). exists (oldest :: old). split.
      * simpl. now rewrite <- Hsplit.
      * intros t [<-|Ht]; auto.
    + exists []. split; [reflexivity | contradiction].
Qed.

Lemma in_window_app (start : Z) (l1 l2 : list Z) :
  in_window start (l1 ++ l2) = in_window start l1 ++ in_window start l2.
Proof. apply filter_app. Qed.

Lemma in_window_old (start now : Z) (old : list Z) :
  now <= start + rate_limit_window ->
  (forall t, In t old -> rate_limit_window < now - t) ->
  in_window start old = [].
Proof.
  intros Hnow Hold. induction old as [|t old IH]; [reflexivity|].
  unfold in_window in *. simpl.
  assert (Ht : rate_limit_window < now - t) by (apply Hold; now left).
  destruct (Z.leb_spec start t); [lia|]. simpl.
  apply IH. intros t' Ht'. apply Hold. now right.
Qed.

Lemma length_in_window (start : Z) (l : list Z) :
  (List.length (in_window start l) <= List.length l)%nat.
Proof. apply filter_length_le. Qed.

Lemma nondecreasing_cons (now : Z) (rest : list Z) :
  nondecreasing (now :: rest) = true ->
  nondecreasing rest = true /\ forall t, In t rest -> now <= t.
Proof.
  revert now. induction rest as [|next rest IH]; intros now H.
  - split; [reflexivity | contradiction].
  - cbn [nondecreasing] in H. apply Bool.andb_true_iff in H.
    destruct H as [Hle Hrest]. apply Z.leb_le in Hle.
    split; [exact Hrest|].
    destruct (IH next Hrest) as [_ Hall].
    intros t [<-|Ht]; [exact Hle|]. specialize (Hall t Ht). lia.
Qed.

(** The invariant of a sequence of calls: the times admitted so far are
    those dropped, all older than the window at the last call, followed by
    those [request_times] holds. *)
Lemma admitted_window (nows : list Z) :
  forall (dropped request_times : list Z) (last : Z),
    (forall t, In t dropped -> rate_limit_window < last - t) ->
    (forall now, In now nows -> last <= now) ->
    nondecreasing nows = true ->
    (forall start,
        len (in_window start (dropped ++ request_times))
        <= max_requests_per_window) ->
    forall start,
      len (in_window start
             ((dropped ++ request_times) ++ admitted nows request_times))
      <= max_requests_per_window.
Proof.
  induction nows as [|now rest IH];
    intros dropped times last Hdropped Hlast Hsorted Hwindow start.
  - simpl. rewrite app_nil_r. apply Hwindow.
  - destruct (nondecreasing_cons now rest Hsorted) as [Hrest Hnext].
    assert (Hnow : last <= now) by (apply Hlast; now left).
    cbn [admitted]. unfold _check_rate_limit.
    destruct (popleft_old_split now times) as (old & Hsplit & Hold).
    set (kept := popleft_old now times) in *.
    assert (Hdropped' : forall t, In t (dropped ++ old) ->
                                  rate_limit_window < now - t).
    { intros t Ht. apply in_app_or in Ht. destruct Ht as [Ht|Ht].
      - specialize (Hdropped t Ht). lia.
      - now apply Hold. }
    assert (Hsame : dropped ++ times = (dropped ++ old) ++ kept)
      by (rewrite Hsplit at 1; now rewrite app_assoc).
    destruct (Z.leb_spec max_requests_per_window (len kept)) as [Hfull|Hroom].
    + cbn [app]. rewrite Hsame.
      apply (IH (dropped ++ old) kept now); try assumption.
      intros start'. rewrite <- Hsame. apply Hwindow.
    + assert (Happend : deque_append kept now = kept ++ [now]).
      { unfold deque_append.
        destruct (Z.leb_spec maxlen (len kept)); [|reflexivity].
        unfold maxlen, max_requests_per_window in *. lia. }
      rewrite Happend. rewrite Hsame.
      replace (((dropped ++ old) ++ kept)
               ++ [now] ++ admitted rest (kept ++ [now]))
        with (((dropped ++ old) ++ kept ++ [now])
              ++ admitted rest (kept ++ [now]))
        by (rewrite <- !app_assoc; reflexivity).
      apply (IH (dropped ++ old) (kept ++ [now]) now); try assumption.
      intros start'. rewrite app_assoc, in_window_app.
      unfold len. rewrite length_app.
      destruct (in_window start' [now]) as [|t l] eqn:Hin.
      * simpl. rewrite Nat.add_0_r. rewrite <- Hsame. apply Hwindow.
      * assert (Hone : (List.length (t :: l) <= 1)%nat)
          by (rewrite <- Hin; apply (length_in_window start' [now])).
        assert (Hinside : now <= start' + rate_limit_window).
        { unfold in_window in Hin. simpl in Hin.
          destruct (Z.leb_spec start' now); [|discriminate].
          destruct (Z.leb_spec now (start' + rate_limit_window));
            [assumption | discriminate]. }
        rewrite in_window_app.
        rewrite (in_window_old start' now (dropped ++ old) Hinside Hdropped').
        pose proof (length_in_window start' kept).
        unfold len, max_requests_per_window in *. simpl app.
        simpl List.length in *. lia.
Qed.

(** X20.  The rate limit holds: of calls made at times that do not go back,
    starting with no request on record, [_check_rate_limit] admits at most
    30 in any window of 60 seconds. *)
Theorem rate_limit_holds :
  forall nows : list Z,
    nondecreasing nows = true ->
    forall start : Z,
      len (in_window start (admitted nows [])) <= max_requests_per_window.
Proof.
  intros nows Hsorted start.
  destruct nows as [|first rest]; [discriminate|].
  apply (admitted_window (first :: rest) [] [] first); try assumption.
  - contradiction.
  - destruct (nondecreasing_cons first rest Hsorted) as [_ Hnext].
    intros now [<-|Hin]; [lia | now apply Hnext].
  - intros start'. discriminate.
Qed.

Lemma rate_limit_holds_witness :
  len (in_window 0 (admitted (repeat 5 40) [])) <= max_requests_per_window.
Proof.
  apply (rate_limit_holds (repeat 5 40)). reflexivity.
Defined.

Lemma popleft_old_sorted (now : Z) (request_times : list Z) :
  nondecreasing request_times = true ->
  popleft_old now request_times
  = filter (fun t => now - t <=? rate_limit_window) request_times.
Proof.
  induction request_times as [|oldest rest IH]; [reflexivity|].
  intros Hsorted. destruct (nondecreasing_cons oldest rest Hsorted)
    as [Hrest Hnext].
  cbn [popleft_old filter].
  destruct (Z.ltb_spec rate_limit_window (now - oldest)) as [Hold|Hnew].
  - destruct (Z.leb_spec (now - oldest) rate_limit_window); [lia|].
    now apply IH.
  - destruct (Z.leb_spec (now - oldest) rate_limit_window); [|lia].
    f_equal. symmetry. apply forallb_filter_id. apply forallb_forall.
    intros t Ht. specialize (Hnext t Ht). apply Z.leb_le. lia.
Qed.

(** X21.  The rate limit refuses no more than it must: when the times on
    record are in order and fewer than 30 of them lie within the last 60
    seconds, the call is admitted, and the record is then these times and
    the time of the call. *)
Theorem rate_limit_admits_below_the_limit :
  forall (now : Z) (request_times : list Z),
    nondecreasing request_times = true ->
    let recent :=
      filter (fun t => now - t <=? rate_limit_window) request_times in
    len recent < max_requests_per_window ->
    _check_rate_limit now request_times = (true, recent ++ [now]).
Proof.
  intros now times Hsorted recent Hroom. unfold _check_rate_limit.
  rewrite (popleft_old_sorted now times Hsorted). fold recent.
  destruct (Z.leb_spec max_requests_per_window (len recent)); [lia|].
  unfold deque_append.
  destruct (Z.leb_spec maxlen (len recent)); [|reflexivity].
  unfold maxlen, max_requests_per_window in *. lia.
Qed.

Lemma rate_limit_admits_below_the_limit_witness :
  _check_rate_limit 61000000 [0; 2000000] = (true, [2000000; 61000000]).
Proof.
  apply (rate_limit_admits_below_the_limit 61000000 [0; 2000000]).
  - reflexivity.
  - vm_compute. reflexivity.
Defined.

(* ------------------------------------------------------------------- *)
(** ** [request_media] *)

(** The POSTs of [_make_request_with_retry]: at most [remaining]; every one
    but the last failed with an exception or an error status other than 401;
    a response is returned only if the last one carried no error status. *)
Lemma post_with_retry_posts (server : Server) (media_id : Z)
    (media_type : string) (remaining : nat) :
  forall (before after : nat) (sent : Sent),
    post_with_retry server media_id media_type remaining before
    = (sent, after) ->
    (before <= after <= before + remaining)%nat
    /\ (forall j, (before <= j)%nat -> (S j < after)%nat ->
          match server j media_id media_type with
          | ConnectionError => True
          | Status status_code =>
              status_code <> 401 /\ Api.raise_for_status status_code = true
          end)
    /\ (sent = ReturnsResponse ->
        exists status_code,
          (before < after)%nat
          /\ server (Nat.pred after) media_id media_type = Status status_code
          /\ status_code <> 401
          /\ Api.raise_for_status status_code = false).
Proof.
  induction remaining as [|remaining IH]; intros before after sent Hrun.
  - inversion Hrun. subst. repeat split; try lia. discriminate.
  - cbn [post_with_retry] in Hrun.
    assert (Hretry :
              match server before media_id media_type with
              | ConnectionError => True
              | Status status_code =>
                  status_code <> 401
                  /\ Api.raise_for_status status_code = true
              end ->
              match remaining with
              | O => (RaisesRequestException, S before)
              | S _ => post_with_retry server media_id media_type remaining
                         (S before)
              end = (sent, after) ->
              (before <= after <= before + S remaining)%nat
              /\ (forall j, (before <= j)%nat -> (S j < after)%nat ->
                    match server j media_id media_type with
                    | ConnectionError => True
                    | Status status_code =>
                        status_code <> 401
                        /\ Api.raise_for_status status_code = true
                    end)
              /\ (sent = ReturnsResponse ->
                  exists status_code,
                    (before < after)%nat
                    /\ server (Nat.pred after) media_id media_type
                       = Status status_code
                    /\ status_code <> 401
                    /\ Api.raise_for_status status_code = false)).
    { intros Hfailed Hrest. destruct remaining as [|remaining'].
      - inversion Hrest. subst. repeat split; try lia. discriminate.
      - destruct (IH _ _ _ Hrest) as (Hbound & Hearlier & Hlast).
        split; [lia|]. split.
        + intros j Hj Hafter.
          destruct (Nat.eq_dec j before) as [->|Hne]; [exact Hfailed|].
          apply Hearlier; lia.
        + intros Hsent. destruct (Hlast Hsent) as (code & Hlt & Hrest').
          exists code. split; [lia | exact Hrest']. }
    destruct (server before media_id media_type) as [|status_code] eqn:Hreply.
    + now apply Hretry.
    + destruct (Z.eqb_spec status_code 401) as [H401|H401].
      * inversion Hrun. subst. repeat split; try lia. discriminate.
      * destruct (Api.raise_for_status status_code) eqn:Hstatus.
        -- now apply Hretry.
        -- inversion Hrun. subst. repeat split; try lia.
           intros _. exists status_code. cbn [Nat.pred].
           repeat split; solve [lia | assumption].
Qed.

(** X22.  [request_media] answers [True] only for a request the server took:
    the rate limit admitted the call, the id is an integer above 0 and the
    type is 'movie' or 'tv', and the last of the at most three POSTs made,
    which carries this id and type, was answered without an error status. *)
Theorem request_media_true_means_accepted :
  forall (server : Server) (now : Z) (media_id media_type : Value)
         (st st' : State),
    request_media server now media_id media_type st = (Returns true, st') ->
    exists (n : Z) (t : string) (k : nat) (status_code : Z),
      media_id = VInt n /\ 0 < n
      /\ media_type = VStr t /\ (t = "movie" \/ t = "tv")
      /\ fst (_check_rate_limit now (request_times st)) = true
      /\ (posts st <= k < posts st + 3)%nat
      /\ posts st' = S k
      /\ server k n t = Status status_code
      /\ status_code <> 401
      /\ Api.raise_for_status status_code = false.
Proof.
  intros server now media_id media_type st st'. unfold request_media.
  destruct (_check_rate_limit now (request_times st)) as [ok times].
  destruct ok; [|discriminate]. cbn [negb fst].
  destruct media_id as [|n|]; try discriminate. cbn [validate_media_id].
  destruct (Z.leb_spec n 0) as [|Hn]; [discriminate|].
  destruct media_type as [| |t]; try discriminate.
  cbn [validate_media_type].
  destruct (existsb (String.eqb t) ["movie"; "tv"]) eqn:Htype;
    [|discriminate].
  cbn [posts].
  destruct (post_with_retry server n t 3 (posts st)) as [sent after] eqn:Hrun.
  destruct (post_with_retry_posts server n t 3 _ _ _ Hrun)
    as (Hbound & _ & Hlast).
  destruct sent; try discriminate. intros H. inversion H. subst st'.
  destruct (Hlast eq_refl) as (status_code & Hlt & Hreply & H401 & Hstatus).
  exists n, t, (Nat.pred after), status_code. cbn [posts].
  repeat split; try assumption; try lia.
  simpl in Htype.
  destruct (String.eqb_spec t "movie"); [now left|].
  destruct (String.eqb_spec t "tv"); [now right | discriminate].
Qed.

Lemma request_media_true_means_accepted_witness :
  exists (n : Z) (t : string),
    VInt 603 = VInt n /\ VStr "movie" = VStr t /\ 0 < n.
Proof.
  destruct (request_media_true_means_accepted
              (fun k _ _ => if (k =? 0)%nat then ConnectionError
                            else Status 201)
              0 (VInt 603) (VStr "movie")
              {| request_times := []; posts := 0 |}
              {| request_times := [0]; posts := 2 |} eq_refl)
    as (n & t & _ & _ & Hid & Hn & Htype & _).
  exists n, t. now repeat split.
Defined.

(** X23.  An id or a type that is not valid never reaches the server: no
    POST is made and the answer is not [True].  The call still counts for
    the rate limit, which is checked first. *)
Theorem request_media_invalid_input_sends_nothing :
  forall (server : Server) (now : Z) (media_id media_type : Value)
         (st : State),
    validate_media_id media_id = None
    \/ validate_media_type media_type = None ->
    let result := request_media server now media_id media_type st in
    posts (snd result) = posts st
    /\ fst result <> Returns true
    /\ request_times (snd result)
       = snd (_check_rate_limit now (request_times st)).
Proof.
  intros server now media_id media_type st Hinvalid. unfold request_media.
  destruct (_check_rate_limit now (request_times st)) as [ok times].
  destruct ok; cbn [negb snd fst]; [|repeat split; discriminate].
  destruct (validate_media_id media_id) as [n|];
    [|repeat split; discriminate].
  destruct (validate_media_type media_type) as [t|];
    [|repeat split; discriminate].
  destruct Hinvalid; discriminate.
Qed.

Lemma request_media_invalid_input_sends_nothing_witness :
  request_times
    (snd (request_media (fun _ _ _ => Status 201) 7 VNone (VStr "movie")
            {| request_times := []; posts := 0 |}))
  = [7].
Proof.
  apply (request_media_invalid_input_sends_nothing
           (fun _ _ _ => Status 201) 7 VNone (VStr "movie")
           {| request_times := []; posts := 0 |}).
  left. reflexivity.
Defined.

(** X24.  One call of [request_media] makes at most three POSTs, and it
    makes another one only after an exception of the transport or an error
    status other than 401: a 401 and a success are final. *)
Theorem request_media_retries_only_failures :
  forall (server : Server) (now : Z) (media_id media_type : Value)
         (st : State),
    let st' := snd (request_media server now media_id media_type st) in
    (posts st <= posts st' <= posts st + 3)%nat
    /\ forall (n : Z) (t : string) (j : nat),
         validate_media_id media_id = Some n ->
         validate_media_type media_type = Some t ->
         (posts st <= j)%nat -> (S j < posts st')%nat ->
         match server j n t with
         | ConnectionError => True
         | Status status_code =>
             status_code <> 401 /\ Api.raise_for_status status_code = true
         end.
Proof.
  intros server now media_id media_type st. unfold request_media.
  destruct (_check_rate_limit now (request_times st)) as [ok times].
  destruct ok; cbn [negb snd posts]; [|split; [lia | intros; lia]].
  destruct (validate_media_id media_id) as [n|];
    [|cbn [snd posts]; split; [lia | intros; lia]].
  destruct (validate_media_type media_type) as [t|];
    [|cbn [snd posts]; split; [lia | intros; lia]].
  destruct (post_with_retry server n t 3 (posts st)) as [sent after] eqn:Hrun.
  destruct (post_with_retry_posts server n t 3 _ _ _ Hrun)
    as (Hbound & Hearlier & _).
  assert (Hposts : posts (snd (match sent with
                               | ReturnsResponse =>
                                   (Returns true,
                                    {| request_times := times;
                                       posts := after |})
                               | _ =>
                                   (Returns false,
                                    {| request_times := times;
                                       posts := after |})
                               end)) = after)
    by (destruct sent; reflexivity).
  rewrite Hposts. split; [exact Hbound|].
  intros n' t' j Hn Ht. inversion Hn. inversion Ht. subst. apply Hearlier.
Qed.

(* ------------------------------------------------------------------- *)
(** ** Posters *)

Section PosterFacts.

Variable Surface : Type.
Variable world : ImageCache.World Surface.



End PosterFacts.


End ClientFacts.

(* ===================================================================== *)
(** * Properties of the controller profiles *)
(* ===================================================================== *)

Module ConfigFacts.
Import UI.
Import Config.

(** X26.  Whatever the controller is called, [setup_controller] finds a
    profile for it, and in this profile the buttons A, B and START are three
    different buttons: [handle_button_press] selects on A, goes back on B and
    leaves the loop on START. *)
Theorem controller_buttons_dispatch :
  forall (controller_name : string) (host : Host),
  exists profile : Profile,
    setup_controller controller_name = Some profile
    /\ A profile <> B profile
    /\ A profile <> START profile
    /\ B profile <> START profile
    /\ let host := with_profile profile host in
       handle_button_press host (BUTTON_A host) = handle_select host
       /\ handle_button_press host (BUTTON_B host) = modify handle_back
       /\ handle_button_press host (BUTTON_START host)
          = modify (set_running false).
Proof.
  intros controller_name host.
  unfold setup_controller, detect_controller_profile.
  repeat match goal with
         | |- context [if ?b then _ else _] => destruct b
         end;
    (eexists; split; [reflexivity|]);
    repeat split; discriminate.
Qed.

End ConfigFacts.
